(** * Alexa shopping list MCP server: batch reconciliation and clearing

    A shallow embedding of [mcp_server.py] (the tools [add_item],
    [delete_item], [mark_complete], [mark_incomplete] and
    [clear_completed_items]) together with [filter_incomplete_items] of
    [alexa_api.py].  The remote list accessor (fetch-all, add-one,
    delete-one, set-completion-one) is an interface; every call to it is
    recorded, with its outcome, in the list of calls of a run.

    Further on come the listing tools and the lookup helper of
    [mcp_server.py], the request functions of [alexa_api.py] over an
    interface for the [requests] session and the cookie file, and the tools
    of the proxy server [src/mcp/mcp_server.py]. *)

From Stdlib Require Import Ascii String.
From stdpp Require Import gmap strings list fin_maps pretty.

Open Scope string_scope.
Open Scope list_scope.

(** ** Python strings

    A [str] is modelled by the sequence of its code points, each below 256.
    [is_space] is [str.isspace] on one character, [lower] is [str.lower]
    and [strip] is [str.strip] with no argument, on that range. *)

Module PyStr.

Definition is_space (c : ascii) : bool :=
  let n := nat_of_ascii c in
  (((9 <=? n) && (n <=? 13)) || ((28 <=? n) && (n <=? 32))
   || (n =? 133) || (n =? 160))%nat.

Definition lower_char (c : ascii) : ascii :=
  let n := nat_of_ascii c in
  if (((65 <=? n) && (n <=? 90))
      || ((192 <=? n) && (n <=? 222) && negb (n =? 215)))%nat
  then ascii_of_nat (n + 32) else c.

Fixpoint lower (s : string) : string :=
  match s with
  | EmptyString => EmptyString
  | String c s' => String (lower_char c) (lower s')
  end.

Fixpoint lstrip (s : string) : string :=
  match s with
  | EmptyString => EmptyString
  | String c s' => if is_space c then lstrip s' else s
  end.

Fixpoint rstrip (s : string) : string :=
  match s with
  | EmptyString => EmptyString
  | String c s' =>
      match rstrip s' with
      | EmptyString => if is_space c then EmptyString else String c EmptyString
      | r => String c r
      end
  end.

Definition strip (s : string) : string := rstrip (lstrip s).

(** Truth value of a string: [bool(s)], false exactly for the empty one. *)
Definition truthy (s : string) : bool :=
  match s with EmptyString => false | String _ _ => true end.

(** [sep.join(parts)]. *)
Definition join (sep : string) (parts : list string) : string :=
  String.concat sep parts.

(** [x in l] for a list of strings. *)
Definition contains (x : string) (l : list string) : bool :=
  existsb (String.eqb x) l.

End PyStr.

Import PyStr.

(** ** Shopping items

    An item is the dict received from the remote service.  A field is [None]
    when the key is absent or null. *)

Record item := Item {
  item_id : option string;
  item_value : option string;
  item_completed : option bool
}.

#[global] Instance item_eq_dec : EqDecision item.
Proof. solve_decision. Defined.

(** [item.get('value', dflt)] *)
Definition get_value (it : item) (dflt : string) : string :=
  default dflt (item_value it).

(** Truth value of [item.get('completed', False)] *)
Definition get_completed (it : item) : bool :=
  default false (item_completed it).

(** Truth value of [item.get('id')]: an absent, null or empty id is falsy. *)
Definition has_id (it : item) : bool :=
  match item_id it with
  | Some i => truthy i
  | None => false
  end.

(** [alexa_api.filter_incomplete_items] *)
Definition filter_incomplete_items (list_items : list item) : list item :=
  List.filter (fun it => negb (get_completed it)) list_items.

(** [item['completed'] = False] *)
Definition set_incomplete (it : item) : item :=
  {| item_id := item_id it; item_value := item_value it;
     item_completed := Some false |}.

(** The argument of a tool: [Union[str, List[str]]]. *)
Inductive item_values :=
| OneValue (s : string)
| ManyValues (l : list string).

(** [[item_values] if isinstance(item_values, str) else item_values] *)
Definition values_to_process (a : item_values) : list string :=
  match a with
  | OneValue s => [s]
  | ManyValues l => l
  end.

(** [not values_to_process or not any(v.strip() for v in values_to_process)] *)
Definition no_valid_values (vs : list string) : bool :=
  match vs with [] => true | _ => false end
  || negb (existsb (fun v => truthy (strip v)) vs).

(** ** The remote list accessor and the runs of a tool *)

(** One call to the accessor, with what it returned. *)
Inductive call :=
| Fetch (r : option (list item))
| AddOne (v : string) (ok : bool)
| DeleteOne (it : item) (ok : bool)
| MarkCompleted (it : item) (ok : bool)
| UnmarkCompleted (it : item) (ok : bool).

(** The accessor over a remote state [W]; the names are those imported by
    [mcp_server.py]. *)
Class RemoteList (W : Type) := {
  get_shopping_list_items : W -> option (list item) * W;
  add_shopping_list_item : string -> W -> bool * W;
  delete_shopping_list_item : item -> W -> bool * W;
  mark_item_as_completed : item -> W -> bool * W;
  unmark_item_as_completed : item -> W -> bool * W
}.

(** What a computation leaves: its value, the remote state and the calls it
    made, oldest first. *)
Record run (W A : Type) := Run {
  result : A;
  remote : W;
  calls : list call
}.
Arguments Run {W A}.
Arguments result {W A}.
Arguments remote {W A}.
Arguments calls {W A}.

Definition M (W A : Type) : Type := W -> run W A.

Definition ret {W A} (a : A) : M W A := fun w => Run a w [].

Definition bind {W A B} (m : M W A) (k : A -> M W B) : M W B :=
  fun w =>
    let r1 := m w in
    let r2 := k (result r1) (remote r1) in
    Run (result r2) (remote r2) (calls r1 ++ calls r2).

Notation "x <- m ;; k" := (bind m (fun x => k))
  (at level 100, m at next level, right associativity).

(** [for x in xs: body], the loop variables threaded as [s]; a [continue]
    is the body returning early. *)
Fixpoint for_each {W A S} (body : A -> S -> M W S) (xs : list A) (s : S)
  : M W S :=
  match xs with
  | [] => ret s
  | x :: xs' => s' <- body x s ;; for_each body xs' s'
  end.

Section Accessor.
Context {W : Type} `{RemoteList W}.

Definition fetch_items : M W (option (list item)) :=
  fun w => let (r, w') := get_shopping_list_items w in Run r w' [Fetch r].

Definition add_one (v : string) : M W bool :=
  fun w => let (ok, w') := add_shopping_list_item v w in Run ok w' [AddOne v ok].

Definition delete_one (it : item) : M W bool :=
  fun w =>
    let (ok, w') := delete_shopping_list_item it w in Run ok w' [DeleteOne it ok].

Definition mark_one (it : item) : M W bool :=
  fun w =>
    let (ok, w') := mark_item_as_completed it w in Run ok w' [MarkCompleted it ok].

Definition unmark_one (it : item) : M W bool :=
  fun w =>
    let (ok, w') := unmark_item_as_completed it w in
    Run ok w' [UnmarkCompleted it ok].

End Accessor.

(** ** Matching and the result buckets *)

(** [item.get('value', '').strip().lower() == key], where [key] is
    [val_strip.lower()]. *)
Definition matches (key : string) (it : item) : bool :=
  String.eqb (lower (strip (get_value it ""))) key.

(** The search loop of [delete_item] and [mark_complete]:
    [for item in incomplete_items: if ...: item_to_delete = item; break]. *)
Fixpoint find_item (items : list item) (key : string) : option item :=
  match items with
  | [] => None
  | it :: rest => if matches key it then Some it else find_item rest key
  end.

(** The search loop of [mark_incomplete], over
    [enumerate(searchable_items)] counted from [i]. *)
Fixpoint find_item_index (items : list item) (key : string) (i : nat)
  : option (nat * item) :=
  match items with
  | [] => None
  | it :: rest =>
      if matches key it then Some (i, it) else find_item_index rest key (S i)
  end.

(** [l.remove(x)]: the first element equal to [x] is dropped.  Python raises
    [ValueError] when there is none; the tools only remove an item they have
    just found in [l] ([find_item_elem_of]), so that case is left as no
    change. *)
Fixpoint list_remove (x : item) (l : list item) : list item :=
  match l with
  | [] => []
  | y :: l' => if decide (x = y) then l' else y :: list_remove x l'
  end.

(** The [results] dict of a tool: bucket name to the names in it. *)
Abbreviation buckets := (gmap string (list string)).

(** [results[k]] *)
Definition bucket (k : string) (results : buckets) : list string :=
  default [] (results !! k).

(** [results[k].append(v)]; [k] is always one of the keys the dict was
    created with. *)
Definition bucket_append (k v : string) (results : buckets) : buckets :=
  alter (fun l => l ++ [v]) k results.

(** [if results[k]: summary.append(f"{label}{', '.join(results[k])}.")] *)
Definition summary_line (label k : string) (results : buckets) : list string :=
  match bucket k results with
  | [] => []
  | names => [label +:+ join ", " names +:+ "."]
  end.

(** [" ".join(summary) if summary else "No actions performed or items provided."] *)
Definition summary_text (summary : list string) : string :=
  match summary with
  | [] => "No actions performed or items provided."
  | _ => join " " summary
  end.

Section Tools.
Context {W : Type} `{RemoteList W}.

(** ** [add_item] *)

Definition add_results0 : buckets := {[ "added" := []; "failed" := [] ]}.

Definition add_body (value : string) (results : buckets) : M W buckets :=
  let val_strip := strip value in
  if negb (truthy val_strip) then ret results
  else
    success <- add_one val_strip ;;
    if success then ret (bucket_append "added" val_strip results)
    else ret (bucket_append "failed" val_strip results).

Definition add_item_results (values : list string) : M W buckets :=
  for_each add_body values add_results0.

Definition add_summary (results : buckets) : string :=
  summary_text (summary_line "Added: " "added" results
                ++ summary_line "Failed to add: " "failed" results).

Definition add_item (a : item_values) : M W string :=
  let values := values_to_process a in
  if no_valid_values values
  then ret "Error: No valid item values provided to add."
  else results <- add_item_results values ;; ret (add_summary results).

(** [filter_incomplete_items(all_items) if all_items else []] *)
Definition incomplete_snapshot (all_items : option (list item)) : list item :=
  match all_items with
  | Some (it :: l) => filter_incomplete_items (it :: l)
  | _ => []
  end.

(** ** [delete_item] *)

Definition delete_results0 : buckets :=
  {[ "deleted" := []; "not_found" := []; "missing_id" := []; "failed" := [] ]}.

Definition delete_body (value : string) (st : list item * buckets)
  : M W (list item * buckets) :=
  let (incomplete_items, results) := st in
  let val_strip := strip value in
  if negb (truthy val_strip) then ret st
  else
    match find_item incomplete_items (lower val_strip) with
    | None => ret (incomplete_items, bucket_append "not_found" val_strip results)
    | Some item_to_delete =>
        if negb (has_id item_to_delete)
        then ret (incomplete_items, bucket_append "missing_id" val_strip results)
        else
          success <- delete_one item_to_delete ;;
          if success
          then ret (list_remove item_to_delete incomplete_items,
                    bucket_append "deleted" val_strip results)
          else ret (incomplete_items, bucket_append "failed" val_strip results)
    end.

Definition delete_item_results (values : list string)
  : M W (list item * buckets) :=
  all_items <- fetch_items ;;
  for_each delete_body values (incomplete_snapshot all_items, delete_results0).

Definition delete_summary (results : buckets) : string :=
  summary_text
    (summary_line "Deleted: " "deleted" results
     ++ summary_line "Not found (incomplete): " "not_found" results
     ++ summary_line "Found but missing ID: " "missing_id" results
     ++ summary_line "Failed to delete: " "failed" results).

Definition delete_item (a : item_values) : M W string :=
  let values := values_to_process a in
  if no_valid_values values
  then ret "Error: No valid item values provided for deletion."
  else st <- delete_item_results values ;; ret (delete_summary (snd st)).

(** ** [mark_complete] *)

Definition mark_complete_results0 : buckets :=
  {[ "marked" := []; "not_found" := []; "already_complete" := [];
     "failed" := [] ]}.

Definition mark_complete_body (value : string) (st : list item * buckets)
  : M W (list item * buckets) :=
  let (incomplete_items, results) := st in
  let val_strip := strip value in
  if negb (truthy val_strip) then ret st
  else
    match find_item incomplete_items (lower val_strip) with
    | None => ret (incomplete_items, bucket_append "not_found" val_strip results)
    | Some item_to_mark =>
        if get_completed item_to_mark
        then ret (incomplete_items,
                  bucket_append "already_complete" val_strip results)
        else
          success <- mark_one item_to_mark ;;
          if success
          then ret (list_remove item_to_mark incomplete_items,
                    bucket_append "marked" val_strip results)
          else ret (incomplete_items, bucket_append "failed" val_strip results)
    end.

Definition mark_complete_results (values : list string)
  : M W (list item * buckets) :=
  all_items <- fetch_items ;;
  for_each mark_complete_body values
    (incomplete_snapshot all_items, mark_complete_results0).

Definition mark_complete_summary (results : buckets) : string :=
  summary_text
    (summary_line "Marked complete: " "marked" results
     ++ summary_line "Not found (incomplete): " "not_found" results
     ++ summary_line "Already complete: " "already_complete" results
     ++ summary_line "Failed to mark complete: " "failed" results).

Definition mark_complete (a : item_values) : M W string :=
  let values := values_to_process a in
  if no_valid_values values
  then ret "Error: No valid item values provided to mark complete."
  else st <- mark_complete_results values ;;
       ret (mark_complete_summary (snd st)).

(** ** [mark_incomplete] *)

Definition mark_incomplete_results0 : buckets :=
  {[ "unmarked" := []; "not_found" := []; "already_incomplete" := [];
     "failed" := [] ]}.

Definition mark_incomplete_body (value : string) (st : list item * buckets)
  : M W (list item * buckets) :=
  let (searchable_items, results) := st in
  let val_strip := strip value in
  if negb (truthy val_strip) then ret st
  else
    match find_item_index searchable_items (lower val_strip) 0 with
    | None => ret (searchable_items, bucket_append "not_found" val_strip results)
    | Some (item_index, item_to_unmark) =>
        if negb (get_completed item_to_unmark)
        then ret (searchable_items,
                  bucket_append "already_incomplete" val_strip results)
        else
          success <- unmark_one item_to_unmark ;;
          if success
          then ret (alter set_incomplete item_index searchable_items,
                    bucket_append "unmarked" val_strip results)
          else ret (searchable_items, bucket_append "failed" val_strip results)
    end.

(** [None] is the early [return] on a failed fetch. *)
Definition mark_incomplete_results (values : list string)
  : M W (option (list item * buckets)) :=
  all_items <- fetch_items ;;
  match all_items with
  | None => ret None
  | Some all_items =>
      st <- for_each mark_incomplete_body values
              (all_items, mark_incomplete_results0) ;;
      ret (Some st)
  end.

Definition mark_incomplete_summary (results : buckets) : string :=
  summary_text
    (summary_line "Marked incomplete: " "unmarked" results
     ++ summary_line "Not found: " "not_found" results
     ++ summary_line "Already incomplete: " "already_incomplete" results
     ++ summary_line "Failed to mark incomplete: " "failed" results).

Definition mark_incomplete (a : item_values) : M W string :=
  let values := values_to_process a in
  if no_valid_values values
  then ret "Error: No valid item values provided to mark incomplete."
  else
    st <- mark_incomplete_results values ;;
    match st with
    | None =>
        ret "Error: Could not retrieve shopping list items to process request."
    | Some st => ret (mark_incomplete_summary (snd st))
    end.

(** ** [clear_completed_items] *)

Definition max_iterations : nat := 10.

(** The loop variables of the inner [for]: [total_deleted_count],
    [total_failed_items] and [batch_failed]. *)
Record clearing := Clearing {
  total_deleted_count : nat;
  total_failed_items : list string;
  batch_failed : list string
}.

Definition clear_body (it : item) (st : clearing) : M W clearing :=
  let item_value := get_value it "<Unknown Item>" in
  if negb (has_id it) then
    let entry := item_value +:+ " (Missing ID)" in
    ret (Clearing (total_deleted_count st)
           (if negb (contains entry (total_failed_items st))
            then total_failed_items st ++ [entry]
            else total_failed_items st)
           (batch_failed st))
  else
    success <- delete_one it ;;
    if success
    then ret (Clearing (S (total_deleted_count st)) (total_failed_items st)
                (batch_failed st))
    else
      if negb (contains item_value (batch_failed st))
         && negb (contains item_value (total_failed_items st))
      then ret (Clearing (total_deleted_count st) (total_failed_items st)
                  (batch_failed st ++ [item_value]))
      else ret st.

(** How [clear_completed_items] ends: the early [return error_msg], or the
    final report, reached by [break] or by the loop condition failing. *)
Inductive clear_outcome :=
| FetchFailed (deleted : nat) (failures : list string)
| Finished (iteration deleted : nat) (failures : list string).

(** [while iteration < max_iterations], with [remaining] standing for
    [max_iterations - iteration]. *)
Fixpoint clear_loop (remaining iteration deleted : nat) (failures : list string)
  : M W clear_outcome :=
  match remaining with
  | 0 => ret (Finished iteration deleted failures)
  | S remaining' =>
      let iteration := S iteration in
      all_items <- fetch_items ;;
      match all_items with
      | None => ret (FetchFailed deleted failures)
      | Some all_items =>
          match List.filter get_completed all_items with
          | [] => ret (Finished iteration deleted failures)
          | completed_items_batch =>
              st <- for_each clear_body completed_items_batch
                      (Clearing deleted failures []) ;;
              clear_loop remaining' iteration (total_deleted_count st)
                (total_failed_items st ++ batch_failed st)
          end
      end
  end.

Definition clear_summary (out : clear_outcome) : string :=
  match out with
  | FetchFailed deleted failures =>
      "Error: Could not retrieve shopping list items during clearing process."
      +:+ (if (0 <? deleted)%nat
              || match failures with [] => false | _ => true end
           then " So far: Deleted " +:+ pretty deleted +:+ ", Failures: "
                +:+ pretty (length failures) +:+ "."
           else "")
  | Finished iteration deleted failures =>
      "Clear completed process finished after " +:+ pretty iteration
      +:+ " iteration(s). Total Deleted: " +:+ pretty deleted +:+ "."
      +:+ (match failures with
           | [] => ""
           | _ => " Failures encountered for: " +:+ join ", " failures +:+ "."
           end)
  end.

Definition clear_completed_outcome : M W clear_outcome :=
  clear_loop max_iterations 0 0 [].

Definition clear_completed_items : M W string :=
  out <- clear_completed_outcome ;; ret (clear_summary out).

End Tools.

(** ** A scripted remote list

    A remote list that holds its items, answers a fetch with them while
    [online], and carries out a mutation exactly when [accepting]. *)

Record scripted := Scripted {
  store : list item;
  online : bool;
  accepting : bool
}.

Definition scripted_update (f : list item -> list item) (s : scripted)
  : bool * scripted :=
  if accepting s then (true, Scripted (f (store s)) (online s) (accepting s))
  else (false, s).

#[global] Instance scripted_remote : RemoteList scripted := {
  get_shopping_list_items s := (if online s then Some (store s) else None, s);
  add_shopping_list_item v :=
    scripted_update (fun l => l ++ [Item None (Some v) (Some false)]);
  delete_shopping_list_item it := scripted_update (list_remove it);
  mark_item_as_completed it :=
    scripted_update
      (fmap (fun x => if decide (x = it)
                      then Item (item_id x) (item_value x) (Some true) else x));
  unmark_item_as_completed it :=
    scripted_update
      (fmap (fun x => if decide (x = it) then set_incomplete x else x))
}.

(** ** Notions used to state the properties *)

(** The names a batch processes: stripped, the empty ones skipped. *)
Definition stripped_names (values : list string) : list string :=
  List.filter truthy (map strip values).

(** The names of [names] that carry the label [k], in order, when the i-th
    name is labelled by the i-th element of [labels]. *)
Definition names_labelled (k : string) (names labels : list string)
  : list string :=
  map fst (List.filter (fun p => String.eqb (snd p) k) (zip names labels)).

(** The buckets [results] hold the names of [names], each name in exactly one
    bucket of [keys], every bucket in the order of [names]. *)
Definition bucketed_in_order (keys : gset string) (names : list string)
    (results : buckets) : Prop :=
  exists labels,
    length labels = length names
    /\ Forall (fun l => l ∈ keys) labels
    /\ forall k, bucket k results = names_labelled k names labels.

(** The item a mutating call was made on. *)
Definition mutated_item (c : call) : option item :=
  match c with
  | DeleteOne it _ | MarkCompleted it _ | UnmarkCompleted it _ => Some it
  | Fetch _ | AddOne _ _ => None
  end.

(** No mutating call of [cs] was made on an item matching [key]. *)
Definition no_mutation_for (key : string) (cs : list call) : Prop :=
  Forall (fun c => match mutated_item c with
                   | Some it => matches key it = false
                   | None => True
                   end) cs.

(** Number of fetches among the calls. *)
Definition fetch_count (cs : list call) : nat :=
  length (List.filter
            (fun c => match c with Fetch _ => true | _ => false end) cs).

(** Number of delete-one calls, and of those that succeeded. *)
Definition delete_count (cs : list call) : nat :=
  length (List.filter
            (fun c => match c with DeleteOne _ _ => true | _ => false end) cs).

Definition deleted_count (cs : list call) : nat :=
  length (List.filter
            (fun c => match c with DeleteOne _ true => true | _ => false end)
            cs).

(** Number of completed items seen in the snapshots fetched. *)
Fixpoint completed_observed (cs : list call) : nat :=
  match cs with
  | [] => 0
  | Fetch (Some l) :: cs' =>
      length (List.filter get_completed l) + completed_observed cs'
  | _ :: cs' => completed_observed cs'
  end.

(** What the loops of [delete_item] and [mark_complete] keep: the pool stays
    within the snapshot [pool0], every bucket of [results0] is still there,
    and every mutating call was made on an item of the snapshot. *)
Definition pool_inv (pool0 : list item) (results0 : buckets)
    (st : list item * buckets) (cs : list call) : Prop :=
  fst st ⊆ pool0
  /\ dom (snd st) = dom results0
  /\ Forall (fun c => match mutated_item c with
                      | Some it => it ∈ pool0
                      | None => True
                      end) cs.

(** What one pass of the loops of [delete_item] and [mark_complete] does to
    the pool and the buckets, whatever the tool: the pool only loses items,
    a mutating call is made on an item of the pool that matches the name of
    the pass, a name without a match goes to [not_found], and a name goes to
    at most one bucket of [keys]. *)
Definition searching_pass {W : Type}
    (body : string -> list item * buckets -> M W (list item * buckets))
    (keys : gset string) : Prop :=
  forall (x : string) (st : list item * buckets) (w : W),
    let r := body x st w in
    fst (result r) ⊆ fst st
    /\ Forall (fun c => exists it, mutated_item c = Some it /\ it ∈ fst st
                                   /\ matches (lower (strip x)) it = true)
         (calls r)
    /\ (strip x <> "" -> find_item (fst st) (lower (strip x)) = None ->
        snd (result r) = bucket_append "not_found" (strip x) (snd st))
    /\ ((strip x = "" /\ snd (result r) = snd st)
        \/ (strip x <> "" /\ exists k, k ∈ keys
              /\ snd (result r) = bucket_append k (strip x) (snd st))).

(** The failure list an outcome of [clear_completed_items] carries. *)
Definition outcome_failures (out : clear_outcome) : list string :=
  match out with
  | FetchFailed _ failures | Finished _ _ failures => failures
  end.

(** ** Sample lists and proof steps *)

Definition milk : item := Item (Some "id-1") (Some "Milk") (Some false).
Definition eggs_done : item := Item (Some "id-2") (Some "Eggs") (Some true).
Definition milk_no_id : item := Item None (Some "Milk") (Some false).

(** A list with one incomplete and one completed item, reachable. *)
Definition pantry : scripted := Scripted [milk; eggs_done] true true.
(** The same list while the service cannot be reached. *)
Definition pantry_offline : scripted := Scripted [milk; eggs_done] false true.
(** A list whose only item is completed. *)
Definition eggs_only : scripted := Scripted [eggs_done] true true.
(** A list whose only item has no id. *)
Definition no_id_list : scripted := Scripted [milk_no_id] true true.

(** Lookup of a literal key in the buckets a batch starts with. *)
Ltac empty_buckets :=
  intros; unfold bucket; rewrite ?lookup_insert, ?lookup_singleton;
  repeat case_decide; done.

(** Membership of a literal key among the buckets a batch starts with. *)
Ltac known_buckets :=
  simpl;
  unfold add_results0, delete_results0, mark_complete_results0,
    mark_incomplete_results0;
  rewrite ?dom_insert_L, ?dom_singleton_L; set_solver.

(** ** The listing tools and the lookup helper of [mcp_server.py] *)

Section Listing.
Context {W : Type} `{RemoteList W}.

(** [[item.get('value', '<Unknown Item>') for item in items]] *)
Definition item_values_of (items : list item) : list string :=
  map (fun it => get_value it "<Unknown Item>") items.

Definition get_list : M W (list string) :=
  all_items <- fetch_items ;;
  match all_items with
  | None => ret ["Error: Could not retrieve shopping list items."]
  | Some all_items =>
      match filter_incomplete_items all_items with
      | [] => ret ["Shopping list is empty or has no incomplete items."]
      | incomplete_items => ret (item_values_of incomplete_items)
      end
  end.

Definition get_completed_list : M W (list string) :=
  all_items <- fetch_items ;;
  match all_items with
  | None => ret ["Error: Could not retrieve shopping list items."]
  | Some all_items =>
      match List.filter get_completed all_items with
      | [] => ret ["No completed items found on the list."]
      | completed_items => ret (item_values_of completed_items)
      end
  end.

(** [if not all_items: return None], then the search among the incomplete
    items for [value_to_find.strip().lower()]. *)
Definition _find_item_by_value (value_to_find : string) : M W (option item) :=
  all_items <- fetch_items ;;
  match all_items with
  | None | Some [] => ret None
  | Some all_items =>
      ret (find_item (filter_incomplete_items all_items)
             (lower (strip value_to_find)))
  end.

End Listing.

(** The items of the delete-one, set-completion and unset-completion calls
    that succeeded, oldest first. *)
Definition succeeded_on (cs : list call) : list item :=
  omap (fun c => match c with
                 | DeleteOne it true | MarkCompleted it true
                 | UnmarkCompleted it true => Some it
                 | _ => None
                 end) cs.

(** The values of the add-one calls with outcome [ok], oldest first. *)
Definition added_values (ok : bool) (cs : list call) : list string :=
  omap (fun c => match c with
                 | AddOne v ok' => if Bool.eqb ok ok' then Some v else None
                 | _ => None
                 end) cs.

(** Number of mutating calls that failed. *)
Definition failed_count (cs : list call) : nat :=
  length (List.filter
            (fun c => match c with
                      | DeleteOne _ false | MarkCompleted _ false
                      | UnmarkCompleted _ false => true
                      | _ => false
                      end) cs).

(** Number of completed items without an id seen in the snapshots fetched. *)
Fixpoint missing_id_observed (cs : list call) : nat :=
  match cs with
  | [] => 0
  | Fetch (Some l) :: cs' =>
      length (List.filter (fun it => get_completed it && negb (has_id it)) l)
      + missing_id_observed cs'
  | _ :: cs' => missing_id_observed cs'
  end.

(** The cases of a key known to be one of the literal keys of a tool. *)
Ltac key_cases Hk :=
  repeat (apply elem_of_union in Hk as [Hk|Hk]);
  apply elem_of_singleton in Hk; subst.

(** ** Notions about the runs of [clear_completed_items] *)

(** Every fetch of [cs] returned a list with a completed item. *)
Definition fetches_found_completed (cs : list call) : Prop :=
  Forall (fun c => match c with
                   | Fetch r =>
                       exists l, r = Some l /\ List.filter get_completed l <> []
                   | _ => True
                   end) cs.

(** The calls [cs] are fetches and delete-one calls only, and every delete-one
    call is made on a completed item with an id of the list returned by the
    latest fetch before it ([current] before the first fetch of [cs]). *)
Fixpoint deletes_follow_snapshot (current : list item) (cs : list call)
  : Prop :=
  match cs with
  | [] => True
  | Fetch r :: cs' => deletes_follow_snapshot (default [] r) cs'
  | DeleteOne it _ :: cs' =>
      it ∈ current /\ get_completed it = true /\ has_id it = true
      /\ deletes_follow_snapshot current cs'
  | _ :: _ => False
  end.

(** Where an entry [x] of the failure list comes from: the value of an item
    whose delete-one call failed, or the value followed by " (Missing ID)" of
    a completed item without an id of a fetched list. *)
Definition failure_source (cs : list call) (x : string) : Prop :=
  (exists it, DeleteOne it false ∈ cs /\ x = get_value it "<Unknown Item>")
  \/ (exists l it, Fetch (Some l) ∈ cs /\ it ∈ l /\ get_completed it = true
        /\ has_id it = false
        /\ x = get_value it "<Unknown Item>" +:+ " (Missing ID)").

(** ** The Alexa API layer ([alexa_api.py])

    The request functions of [src/api/alexa_api.py]: each one builds a
    request, has [make_authenticated_request] send it with the cookies of
    the cookie file, and reads the answer.  The [requests] library and the
    file system are an interface, [Transport]; a call that raises is an
    answer [None].  The answers are taken to be well formed: a JSON body is
    an object, and a ['listItems'] entry is null or a list of item dicts.
    These functions take no [config]; the tools of [mcp_server.py] import
    their accessor from another module and pass it one, so the two are not
    put together here. *)

Module AlexaApi.

(** [str.upper] on the code points below 256.  The upper-case forms of
    U+00B5 and U+00FF lie outside that range; the two are left as they are,
    which no comparison with an ASCII word can tell apart. *)
Definition upper_char (c : ascii) : string :=
  let n := nat_of_ascii c in
  if (((97 <=? n) && (n <=? 122))
      || ((224 <=? n) && (n <=? 254) && negb (n =? 247)))%nat
  then String (ascii_of_nat (n - 32)) EmptyString
  else if (n =? 223)%nat then "SS"
  else String c EmptyString.

Fixpoint upper (s : string) : string :=
  match s with
  | EmptyString => EmptyString
  | String c s' => upper_char c +:+ upper s'
  end.

Definition DEFAULT_HEADERS : list (string * string) :=
  [("User-Agent",
    "Mozilla/5.0 (iPhone; CPU iPhone OS 13_5_1 like Mac OS X)"
    +:+ " AppleWebKit/605.1.15 (KHTML, like Gecko) Mobile/15E148"
    +:+ " PitanguiBridge/2.2.345247.0-[HARDWARE=iPhone10_4][SOFTWARE=13.5.1]");
   ("Accept", "*/*");
   ("Accept-Language", "*");
   ("DNT", "1");
   ("Upgrade-Insecure-Requests", "1")].

Definition CONTAINER_COOKIE_PATH : string := "/app/data/cookies.json".

(** One dict of the cookie file, as far as it is read: the keys ['name'],
    ['value'], ['domain'] and ['path'], [None] for an absent or null one. *)
Record cookie_dict := CookieDict {
  cookie_name : option string;
  cookie_value : option string;
  cookie_domain : option string;
  cookie_path : option string
}.

(** What opening the cookie file and [json.load] give: an exception of any
    kind, a JSON value that is not a list, or a list of cookie dicts. *)
Inductive cookie_file :=
| Unreadable
| NotAList
| CookieList (cookies_list : list cookie_dict).

(** The arguments of one [session.cookies.set]. *)
Record cookie := Cookie {
  name : string;
  value : string;
  domain : option string;
  path : option string
}.

Inductive http_method := GET | PUT | POST | DELETE.

(** The [json=] argument of a request: the dict built by
    [add_shopping_list_item], or an item dict. *)
Inductive payload :=
| NewItem (v kind : string)
| ItemDict (list_item : item).

(** One call of [session.get], [put], [post] or [delete], with the headers
    and the cookies the session was given. *)
Record request := Request {
  req_method : http_method;
  req_url : string;
  req_json : option payload;
  req_headers : list (string * string);
  req_cookies : list cookie
}.

(** A value of the response object, as far as [extract_list_items] looks at
    it: a dict, with its ['listItems'] entry when it has one (null being
    Python's [None]), or anything else. *)
Inductive member :=
| Dict (listItems : option (option (list item)))
| NotDict.

(** [response.json()]: a [JSONDecodeError], or the object. *)
Inductive body :=
| NotJson
| JsonObject (response_data : list (string * member)).

Record response := Response {
  status_code : nat;
  json : body
}.

(** The configuration, the file system and the [requests] session.
    [send] is [None] when the call raises. *)
Class Transport (T : Type) := {
  AMAZON_URL : string;
  read_cookie_file : string -> T -> cookie_file;
  cookie_set_raises : cookie -> bool;
  send : request -> T -> option response * T
}.

(** What a function of the layer leaves: its value, the state of the
    transport and the requests it sent, oldest first. *)
Record outcome (T A : Type) := Outcome {
  returned : A;
  after : T;
  sent : list request
}.
Arguments Outcome {T A}.
Arguments returned {T A}.
Arguments after {T A}.
Arguments sent {T A}.

(** [response.raise_for_status()] raises for the statuses 4xx and 5xx. *)
Definition raises_for_status (status : nat) : bool :=
  ((400 <=? status) && (status <? 600))%nat.

(** Truth value of a response, [response.ok]: its status does not raise. *)
Definition response_truthy (r : response) : bool :=
  negb (raises_for_status (status_code r)).

(** The chain [if method.upper() == 'GET': ... elif ...], [None] for the
    final [else]. *)
Definition method_of (method : string) : option http_method :=
  if String.eqb (upper method) "GET" then Some GET
  else if String.eqb (upper method) "PUT" then Some PUT
  else if String.eqb (upper method) "POST" then Some POST
  else if String.eqb (upper method) "DELETE" then Some DELETE
  else None.

Section Layer.
Context {T : Type} `{Transport T}.

(** The loop over the cookie dicts: a dict whose name or value is absent or
    empty is skipped; [None] when a [session.cookies.set] raises. *)
Fixpoint set_cookies (cookie_list_of_dicts : list cookie_dict)
    (jar : list cookie) : option (list cookie) :=
  match cookie_list_of_dicts with
  | [] => Some jar
  | cookie_dict :: rest =>
      match cookie_name cookie_dict, cookie_value cookie_dict with
      | Some name, Some value =>
          if truthy name && truthy value then
            let c := Cookie name value (cookie_domain cookie_dict)
                       (cookie_path cookie_dict) in
            if cookie_set_raises c then None else set_cookies rest (jar ++ [c])
          else set_cookies rest jar
      | _, _ => set_cookies rest jar
      end
  end.

Definition load_cookies_from_json_file (cookie_file_path : string) (t : T)
  : option (list cookie_dict) :=
  match read_cookie_file cookie_file_path t with
  | CookieList cookies_list => Some cookies_list
  | NotAList => None
  | Unreadable => None
  end.

Definition make_authenticated_request (url method : string)
    (payload : option payload) (t : T) : outcome T (option response) :=
  match load_cookies_from_json_file CONTAINER_COOKIE_PATH t with
  | None | Some [] => Outcome None t []
  | Some cookie_list_of_dicts =>
      match set_cookies cookie_list_of_dicts [] with
      | None => Outcome None t []
      | Some jar =>
          match method_of method with
          | None => Outcome None t []
          | Some m =>
              let req :=
                Request m url (match m with GET => None | _ => payload end)
                  DEFAULT_HEADERS jar in
              let (answer, t') := send req t in
              match answer with
              | None => Outcome None t' [req]
              | Some response =>
                  if raises_for_status (status_code response)
                  then Outcome None t' [req]
                  else Outcome (Some response) t' [req]
              end
          end
      end
  end.

(** The cookies a request sent from [t] carries: those of the cookie file
    that have a name and a value, when the file gives a list that is not
    empty and every [session.cookies.set] goes through. *)
Definition session_jar (t : T) : option (list cookie) :=
  match load_cookies_from_json_file CONTAINER_COOKIE_PATH t with
  | None | Some [] => None
  | Some cookie_list_of_dicts => set_cookies cookie_list_of_dicts []
  end.

(** The first key whose value is a dict with ['listItems'] decides. *)
Fixpoint extract_list_items (response_data : list (string * member))
  : option (list item) :=
  match response_data with
  | [] => None
  | (_, Dict (Some listItems)) :: _ => listItems
  | _ :: rest => extract_list_items rest
  end.

Definition get_shopping_list_items (t : T) : outcome T (option (list item)) :=
  let list_items_url := AMAZON_URL +:+ "/alexashoppinglists/api/getlistitems" in
  let o := make_authenticated_request list_items_url "GET" None t in
  match returned o with
  | Some response =>
      if response_truthy response then
        match json response with
        | JsonObject response_data =>
            Outcome (extract_list_items response_data) (after o) (sent o)
        | NotJson => Outcome None (after o) (sent o)
        end
      else Outcome None (after o) (sent o)
  | None => Outcome None (after o) (sent o)
  end.

Definition add_item_path : string :=
  "/alexashoppinglists/api/addlistitem/YW16bjEuYWNjb3VudC5BSERXNEkyVE00U1I0UVQ2VUpINzNWUVpaQU5BLVNIT1BQSU5HX0lURU0=".

Definition add_shopping_list_item (item_value : string) (t : T)
  : outcome T bool :=
  let url := AMAZON_URL +:+ add_item_path in
  let payload := NewItem item_value "TASK" in
  let o := make_authenticated_request url "POST" (Some payload) t in
  match returned o with
  | Some response =>
      Outcome (response_truthy response && (status_code response =? 200)%nat)
        (after o) (sent o)
  | None => Outcome false (after o) (sent o)
  end.

Definition delete_item_path : string := "/alexashoppinglists/api/deletelistitem".

Definition delete_shopping_list_item (list_item : item) (t : T)
  : outcome T bool :=
  if negb (has_id list_item) then Outcome false t []
  else
    let url := AMAZON_URL +:+ delete_item_path in
    let o := make_authenticated_request url "DELETE"
               (Some (ItemDict list_item)) t in
    match returned o with
    | Some response =>
        Outcome (response_truthy response
                 && ((status_code response =? 200)%nat
                     || (status_code response =? 204)%nat))
          (after o) (sent o)
    | None => Outcome false (after o) (sent o)
    end.

Definition _update_item_completion_status (list_item : item)
    (completed_status : bool) (t : T) : outcome T bool :=
  let url := AMAZON_URL +:+ "/alexashoppinglists/api/updatelistitem" in
  let list_item_copy :=
    {| item_id := item_id list_item; item_value := item_value list_item;
       item_completed := Some completed_status |} in
  let o := make_authenticated_request url "PUT"
             (Some (ItemDict list_item_copy)) t in
  match returned o with
  | Some response =>
      Outcome (response_truthy response && (status_code response =? 200)%nat)
        (after o) (sent o)
  | None => Outcome false (after o) (sent o)
  end.

Definition mark_item_as_completed (list_item : item) (t : T) : outcome T bool :=
  _update_item_completion_status list_item true t.

Definition unmark_item_as_completed (list_item : item) (t : T)
  : outcome T bool :=
  _update_item_completion_status list_item false t.

End Layer.

End AlexaApi.

(** ** The proxy server ([src/mcp/mcp_server.py])

    The tools of this server pass each request on to a FastAPI server with
    [make_api_request] and report on the answers.  The server and the
    [requests] library are an interface, [Server]: a call is answered, or
    raises a [ConnectionError], or raises something else (never an
    [HTTPError], which only [raise_for_status] raises).  A tool that raises
    returns [None]. *)

Module Proxy.

(** A JSON value as Python holds it; an object keeps each key once. *)
#[local] Unset Elimination Schemes.
Inductive json :=
| JNull
| JBool (b : bool)
| JNum (n : Z)
| JStr (s : string)
| JList (l : list json)
| JDict (d : list (string * json)).
#[local] Set Elimination Schemes.

(** [d.get(k)], [None] when the key is absent. *)
Fixpoint dict_get (k : string) (d : list (string * json)) : option json :=
  match d with
  | [] => None
  | (k', v) :: d' => if String.eqb k' k then Some v else dict_get k d'
  end.

(** [p in s] for two strings. *)
Fixpoint is_infix (p s : string) : bool :=
  String.prefix p s
  || match s with
     | EmptyString => false
     | String _ s' => is_infix p s'
     end.

(** ["error" in response]: a key of a dict, an element of a list, a part of
    a string; [None] is the [TypeError] for a value that is no container. *)
Definition error_in (response : json) : option bool :=
  match response with
  | JDict d => Some (bool_decide (is_Some (dict_get "error" d)))
  | JList l =>
      Some (existsb (fun x => match x with
                              | JStr s => String.eqb s "error"
                              | _ => false
                              end) l)
  | JStr s => Some (is_infix "error" s)
  | JNull | JBool _ | JNum _ => None
  end.

Definition API_BASE_URL : string := "http://127.0.0.1:8000".

Record request := Request {
  req_method : AlexaApi.http_method;
  req_url : string;
  req_json : option json
}.

(** An answer: its status, [response.json()] ([None] for a
    [JSONDecodeError]), [response.text], and [str(e)] of the [HTTPError]
    that [raise_for_status] raises for it. *)
Record response := Response {
  status_code : nat;
  body : option json;
  text : string;
  http_error : string
}.

Inductive call_outcome :=
| ConnectionError
| Raised (str_e : string)
| Answered (r : response).

Class Server (T : Type) := {
  call : request -> T -> call_outcome * T
}.

(** What a function leaves: its value, the state of the server and the
    requests made, oldest first. *)
Record outcome (T A : Type) := Outcome {
  returned : A;
  after : T;
  sent : list request
}.
Arguments Outcome {T A}.
Arguments returned {T A}.
Arguments after {T A}.
Arguments sent {T A}.

(** The chain [if method.upper() == "GET": ... elif ...]. *)
Definition method_of (method : string) : option AlexaApi.http_method :=
  if String.eqb (AlexaApi.upper method) "GET" then Some AlexaApi.GET
  else if String.eqb (AlexaApi.upper method) "POST" then Some AlexaApi.POST
  else if String.eqb (AlexaApi.upper method) "PUT" then Some AlexaApi.PUT
  else if String.eqb (AlexaApi.upper method) "DELETE" then Some AlexaApi.DELETE
  else None.

(** One entry of ["details"]. *)
Record detail := Detail {
  item : json;
  success : bool;
  message : json
}.

(** The dict a batch tool returns. *)
Record report := Report {
  report_success : bool;
  report_message : json;
  details : list detail
}.

(** The argument of a batch tool: a string, or a list whose elements may be
    anything. *)
Inductive names_arg :=
| OneName (s : string)
| ManyNames (l : list json).

(** [[item_name] if isinstance(item_name, str) else item_name] *)
Definition item_names_of (item_name : names_arg) : list json :=
  match item_name with
  | OneName s => [JStr s]
  | ManyNames l => l
  end.

(** [name.strip()] when [name] passes
    [isinstance(name, str) and name.strip()]. *)
Definition valid_name (name : json) : option string :=
  match name with
  | JStr s => if truthy (strip s) then Some (strip s) else None
  | _ => None
  end.

(** [response.get("message", response.get("error", "Unknown result"))] *)
Definition message_of (d : list (string * json)) : json :=
  default (default (JStr "Unknown result") (dict_get "error" d))
    (dict_get "message" d).

(** What tells the four batch tools apart: the request they make and the
    three sentences of their summary. *)
Record batch_tool := BatchTool {
  tool_method : string;
  tool_endpoint : string;
  all_succeeded_message : nat -> string;
  some_succeeded_message : nat -> nat -> string;
  none_succeeded_message : nat -> string
}.

Definition success_count (results : list detail) : nat :=
  length (List.filter success results).

Section Tools.
Context {T : Type} `{Server T}.

Definition make_api_request (method endpoint : string)
    (json_data : option json) (t : T) : outcome T json :=
  let url := API_BASE_URL +:+ endpoint in
  match method_of method with
  | None =>
      Outcome (JDict [("error", JStr ("Unsupported HTTP method: " +:+ method))])
        t []
  | Some m =>
      let req :=
        Request m url (match m with AlexaApi.GET => None | _ => json_data end) in
      let (answer, t') := call req t in
      match answer with
      | ConnectionError =>
          Outcome
            (JDict [("error",
                     JStr "Could not connect to FastAPI server. Is it running?")])
            t' [req]
      | Raised str_e => Outcome (JDict [("error", JStr str_e)]) t' [req]
      | Answered response =>
          if AlexaApi.raises_for_status (status_code response) then
            let error_detail :=
              match body response with
              | Some (JDict d) =>
                  default (JStr (http_error response)) (dict_get "detail" d)
              | _ => JStr (http_error response)
              end in
            Outcome (JDict [("error", error_detail)]) t' [req]
          else
            match body response with
            | Some data => Outcome data t' [req]
            | None => Outcome (JDict [("message", JStr (text response))]) t' [req]
            end
      end
  end.

(** The end of the three listing tools.  The branch for an error formats
    [response['error']], which raises unless the response is a dict. *)
Definition items_or_empty (response : json) : option (list json) :=
  match error_in response with
  | None => None
  | Some true =>
      match response with
      | JDict _ => Some []
      | _ => None
      end
  | Some false =>
      match response with
      | JList l => Some l
      | _ => Some []
      end
  end.

Definition get_all_items (t : T) : outcome T (option (list json)) :=
  let o := make_api_request "GET" "/items/all" None t in
  Outcome (items_or_empty (returned o)) (after o) (sent o).

Definition get_incomplete_items (t : T) : outcome T (option (list json)) :=
  let o := make_api_request "GET" "/items/incomplete" None t in
  Outcome (items_or_empty (returned o)) (after o) (sent o).

Definition get_completed_items (t : T) : outcome T (option (list json)) :=
  let o := make_api_request "GET" "/items/completed" None t in
  Outcome (items_or_empty (returned o)) (after o) (sent o).

(** The loop [for name in item_names] of a batch tool, with [results] and
    [all_succeeded] as they stand; [None] when a pass raises, which it does
    when the response is not a dict. *)
Fixpoint batch_loop (tool : batch_tool) (item_names : list json)
    (results : list detail) (all_succeeded : bool) (t : T)
  : outcome T (option (list detail * bool)) :=
  match item_names with
  | [] => Outcome (Some (results, all_succeeded)) t []
  | name :: rest =>
      match valid_name name with
      | None =>
          batch_loop tool rest
            (results ++ [Detail name false (JStr "Invalid item name provided.")])
            false t
      | Some stripped =>
          let o := make_api_request (tool_method tool) (tool_endpoint tool)
                     (Some (JDict [("item_name", JStr stripped)])) t in
          match returned o with
          | JDict d =>
              let success := negb (bool_decide (is_Some (dict_get "error" d))) in
              let o' := batch_loop tool rest
                          (results ++ [Detail (JStr stripped) success
                                         (message_of d)])
                          (all_succeeded && success) (after o) in
              Outcome (returned o') (after o') (sent o ++ sent o')
          | _ => Outcome None (after o) (sent o)
          end
      end
  end.

(** The summary message, by [len(item_names)] and the counts. *)
Definition summary_message (tool : batch_tool) (item_names : list json)
    (results : list detail) (all_succeeded : bool) : option json :=
  match item_names with
  | [_] => message <$> head results
  | _ =>
      let success_count := success_count results in
      let fail_count := length results - success_count in
      Some (JStr (if all_succeeded then all_succeeded_message tool success_count
                  else if (0 <? success_count)%nat
                       then some_succeeded_message tool success_count fail_count
                       else none_succeeded_message tool fail_count))
  end.

Definition run_batch (tool : batch_tool) (item_name : names_arg) (t : T)
  : outcome T (option report) :=
  let item_names := item_names_of item_name in
  let o := batch_loop tool item_names [] true t in
  match returned o with
  | Some (results, all_succeeded) =>
      match summary_message tool item_names results all_succeeded with
      | Some summary =>
          Outcome (Some (Report all_succeeded summary results)) (after o) (sent o)
      | None => Outcome None (after o) (sent o)
      end
  | None => Outcome None (after o) (sent o)
  end.

Definition add_item_tool : batch_tool :=
  BatchTool "POST" "/items"
    (fun s => "Successfully added " +:+ pretty s +:+ " items.")
    (fun s f => "Added " +:+ pretty s +:+ " items, failed to add " +:+ pretty f
                +:+ " items. Check logs for details.")
    (fun f => "Failed to add all " +:+ pretty f
              +:+ " items. Check logs for details.").

Definition delete_item_tool : batch_tool :=
  BatchTool "DELETE" "/items"
    (fun s => "Successfully deleted " +:+ pretty s +:+ " items.")
    (fun s f => "Deleted " +:+ pretty s +:+ " items, failed to delete "
                +:+ pretty f
                +:+ " items (may not exist or error occurred). Check logs.")
    (fun f => "Failed to delete any of the " +:+ pretty f
              +:+ " specified items (may not exist or error occurred). Check logs.").

Definition mark_item_completed_tool : batch_tool :=
  BatchTool "PUT" "/items/mark_completed"
    (fun s => "Successfully marked " +:+ pretty s +:+ " items as completed.")
    (fun s f => "Marked " +:+ pretty s +:+ " items completed, failed to mark "
                +:+ pretty f
                +:+ " items (may not exist or error occurred). Check logs.")
    (fun f => "Failed to mark any of the " +:+ pretty f
              +:+ " specified items as completed (may not exist or error occurred). Check logs.").

Definition mark_item_incomplete_tool : batch_tool :=
  BatchTool "PUT" "/items/mark_incomplete"
    (fun s => "Successfully marked " +:+ pretty s +:+ " items as incomplete.")
    (fun s f => "Marked " +:+ pretty s +:+ " items incomplete, failed to mark "
                +:+ pretty f
                +:+ " items (may not exist or error occurred). Check logs.")
    (fun f => "Failed to mark any of the " +:+ pretty f
              +:+ " specified items as incomplete (may not exist or error occurred). Check logs.").

Definition add_item := run_batch add_item_tool.
Definition delete_item := run_batch delete_item_tool.
Definition mark_item_completed := run_batch mark_item_completed_tool.
Definition mark_item_incomplete := run_batch mark_item_incomplete_tool.

End Tools.

(** The four batch tools. *)
Definition batch_tools : list batch_tool :=
  [add_item_tool; delete_item_tool; mark_item_completed_tool;
   mark_item_incomplete_tool].

(** The request [make_api_request] makes, if any. *)
Definition request_of (method endpoint : string) (json_data : option json)
  : list request :=
  match method_of method with
  | Some m =>
      [Request m (API_BASE_URL +:+ endpoint)
         (match m with AlexaApi.GET => None | _ => json_data end)]
  | None => []
  end.

(** The request a batch tool makes for a stripped name. *)
Definition request_for (tool : batch_tool) (stripped : string) : list request :=
  request_of (tool_method tool) (tool_endpoint tool)
    (Some (JDict [("item_name", JStr stripped)])).

(** What a batch tool records for an input name. *)
Definition recorded (name : json) (d : detail) : Prop :=
  match valid_name name with
  | None => d = Detail name false (JStr "Invalid item name provided.")
  | Some stripped => item d = JStr stripped
  end.

(** The three listing tools with their endpoints. *)
Definition listing_tools {T : Type} `{Server T}
  : list ((T -> outcome T (option (list json))) * string) :=
  [(get_all_items, "/items/all");
   (get_incomplete_items, "/items/incomplete");
   (get_completed_items, "/items/completed")].

(** A server that answers every call with the next of a list of prepared
    outcomes, and cannot be reached when the list is used up. *)
#[global] Instance scripted_server : Server (list call_outcome) := {
  call _ script :=
    match script with
    | [] => (ConnectionError, [])
    | a :: rest => (a, rest)
    end
}.

End Proxy.

(** An outcome of a call that no batch tool stumbles on: when it is an
    answer with a good status, its body is a JSON object or no JSON. *)
Definition object_answer (a : Proxy.call_outcome) : Prop :=
  match a with
  | Proxy.Answered r =>
      AlexaApi.raises_for_status (Proxy.status_code r) = false ->
      Proxy.body r = None \/ exists d, Proxy.body r = Some (Proxy.JDict d)
  | _ => True
  end.

(** Sample answers of the FastAPI server. *)
Definition item_added : Proxy.call_outcome :=
  Proxy.Answered
    (Proxy.Response 200 (Some (Proxy.JDict [("message", Proxy.JStr "Item added")]))
       "" "").

Definition item_not_found : Proxy.call_outcome :=
  Proxy.Answered
    (Proxy.Response 404
       (Some (Proxy.JDict [("detail", Proxy.JStr "Item not found")]))
       "" "404 Client Error: Not Found").

(** Number of times [x] occurs in [l]. *)
Definition occurrences (x : string) (l : list string) : nat :=
  length (List.filter (String.eqb x) l).

(** A delete-one call of [cs] failed on an item whose value is [x]. *)
Definition failed_delete_value (x : string) (cs : list call) : bool :=
  existsb (fun c => match c with
                    | DeleteOne it false =>
                        String.eqb (get_value it "<Unknown Item>") x
                    | _ => false
                    end) cs.

(** A list fetched in [cs] holds a completed item without an id whose value
    followed by " (Missing ID)" is [x]. *)
Definition missing_id_entry (x : string) (cs : list call) : bool :=
  existsb (fun c => match c with
                    | Fetch (Some l) =>
                        existsb (fun it =>
                                   get_completed it && negb (has_id it)
                                   && String.eqb
                                        (get_value it "<Unknown Item>"
                                         +:+ " (Missing ID)") x) l
                    | _ => false
                    end) cs.

(** ** Basic facts *)

Lemma truthy_false (s : string) : truthy s = false <-> s = "".
Proof. destruct s; simpl; split; congruence. Qed.

Lemma truthy_true (s : string) : truthy s = true <-> s <> "".
Proof. destruct s; simpl; split; congruence. Qed.

Lemma no_valid_values_all_empty (vs : list string) :
  Forall (fun v => strip v = "") vs -> no_valid_values vs = true.
Proof.
  intros Hall. unfold no_valid_values.
  destruct vs as [|v vs]; [done|]. cbn -[existsb].
  apply negb_true_iff, not_true_is_false. intros Hex.
  apply existsb_exists in Hex as (x & Hx & Htr).
  rewrite Forall_forall in Hall. apply list_elem_of_In in Hx.
  rewrite (Hall x Hx) in Htr. discriminate.
Qed.

Lemma no_valid_values_some (vs : list string) :
  no_valid_values vs = false -> stripped_names vs <> [].
Proof.
  intros Hnv Hnil. unfold no_valid_values in Hnv.
  apply orb_false_iff in Hnv as [_ Hex%negb_false_iff].
  apply existsb_exists in Hex as (x & Hx & Htr).
  assert (In (strip x) (stripped_names vs)) as Hin.
  { apply filter_In. split; [by apply in_map|done]. }
  rewrite Hnil in Hin. destruct Hin.
Qed.

Lemma stripped_names_cons (v : string) (vs : list string) :
  stripped_names (v :: vs) =
  if truthy (strip v) then strip v :: stripped_names vs else stripped_names vs.
Proof. reflexivity. Qed.

Lemma matches_spec (key : string) (it : item) :
  matches key it = true <-> lower (strip (get_value it "")) = key.
Proof. unfold matches. apply String.eqb_eq. Qed.

Lemma matches_other_key (k k' : string) (it : item) :
  matches k' it = true -> k <> k' -> matches k it = false.
Proof.
  intros Hm%matches_spec Hne. apply not_true_is_false.
  intros Hk%matches_spec. congruence.
Qed.

(** ** Runs *)

Lemma run_eta {W A} (r : run W A) : Run (result r) (remote r) (calls r) = r.
Proof. by destruct r. Qed.

Lemma bind_ret_l {W A B} (a : A) (k : A -> M W B) (w : W) :
  bind (ret a) k w = k a w.
Proof. unfold bind, ret. simpl. apply run_eta. Qed.

Lemma for_each_app {W A S} (body : A -> S -> M W S) (xs ys : list A) (s : S)
    (w : W) :
  for_each body (xs ++ ys) s w = bind (for_each body xs s) (for_each body ys) w.
Proof.
  revert s w. induction xs as [|x xs IH]; intros s w.
  - simpl. by rewrite bind_ret_l.
  - simpl. unfold bind at 1 3. simpl. rewrite IH. unfold bind. simpl.
    by rewrite app_assoc.
Qed.

Lemma for_each_cons {W A S} (body : A -> S -> M W S) (x : A) (xs : list A)
    (s : S) (w : W) :
  for_each body (x :: xs) s w =
  Run (result (for_each body xs (result (body x s w)) (remote (body x s w))))
      (remote (for_each body xs (result (body x s w)) (remote (body x s w))))
      (calls (body x s w)
       ++ calls (for_each body xs (result (body x s w)) (remote (body x s w)))).
Proof. reflexivity. Qed.

(** A property of the loop variables and of the calls made so far that every
    pass of the body keeps holds after the loop. *)
Lemma for_each_inv {W A S} (body : A -> S -> M W S)
    (I : S -> list call -> Prop) (xs : list A) :
  (forall x s w cs, x ∈ xs -> I s cs ->
     I (result (body x s w)) (cs ++ calls (body x s w))) ->
  forall s w cs, I s cs ->
    I (result (for_each body xs s w)) (cs ++ calls (for_each body xs s w)).
Proof.
  induction xs as [|x xs IH]; intros Hstep s w cs HI.
  - simpl. by rewrite app_nil_r.
  - simpl. rewrite app_assoc. apply IH.
    + intros y s' w' cs' Hy. apply Hstep. by right.
    + apply Hstep; [by left|done].
Qed.

(** What the pass for [x0] establishes, and later passes keep, holds after
    the loop when [x0] is among the elements. *)
Lemma for_each_reach {W A S} (body : A -> S -> M W S)
    (I : S -> list call -> Prop) (Q : S -> Prop) (x0 : A) (xs : list A) :
  x0 ∈ xs ->
  (forall x s w cs, I s cs ->
     I (result (body x s w)) (cs ++ calls (body x s w))) ->
  (forall s w cs, I s cs -> Q (result (body x0 s w))) ->
  (forall x s w cs, I s cs -> Q s -> Q (result (body x s w))) ->
  forall s w cs, I s cs -> Q (result (for_each body xs s w)).
Proof.
  intros Hin Hstep Hq Hkeep.
  induction xs as [|x xs IH]; intros s w cs HI; [by inversion Hin|].
  simpl.
  assert (forall ys s' w' cs', I s' cs' -> Q s' ->
            Q (result (for_each body ys s' w'))) as Hstable.
  { induction ys as [|y ys IHy]; intros s' w' cs' HI' HQ'; [done|].
    simpl. eapply IHy; [by apply Hstep|by eapply Hkeep]. }
  apply elem_of_cons in Hin as [->|Hin].
  - eapply Hstable; [by apply Hstep|by eapply Hq].
  - eapply IH; [done|by apply Hstep].
Qed.

(** A call that the pass for [x0] makes whenever [I] holds is made by the
    loop when [x0] is among the elements, if a pass either keeps [I] or makes
    such a call itself. *)
Lemma for_each_calls_reach {W A S} (body : A -> S -> M W S)
    (I : S -> Prop) (P : call -> Prop) (x0 : A) (xs : list A) :
  x0 ∈ xs ->
  (forall x s w, I s ->
     I (result (body x s w)) \/ Exists P (calls (body x s w))) ->
  (forall s w, I s -> Exists P (calls (body x0 s w))) ->
  forall s w, I s -> Exists P (calls (for_each body xs s w)).
Proof.
  intros Hin Hstep Hcall.
  induction xs as [|x xs IH]; intros s w HI; [by inversion Hin|].
  rewrite for_each_cons. cbn [calls]. apply Exists_app.
  apply elem_of_cons in Hin as [<-|Hin]; [left; by apply Hcall|].
  destruct (Hstep x s w HI) as [HI'|Hex]; [right|by left].
  by apply IH.
Qed.

(** ** Matching *)

Lemma find_item_Some (l : list item) (key : string) (it : item) :
  find_item l key = Some it <->
  exists pre post, l = pre ++ it :: post /\ matches key it = true
                   /\ Forall (fun c => matches key c = false) pre.
Proof.
  induction l as [|c l IH]; simpl.
  - split; [done|]. intros (pre & post & Heq & _). by destruct pre.
  - destruct (matches key c) eqn:Hc.
    + split.
      * intros [= <-]. by exists [], l.
      * intros (pre & post & Heq & Hm & Hpre).
        destruct pre as [|p pre]; simplify_eq/=; [done|].
        apply Forall_cons in Hpre as [Hp _]. congruence.
    + rewrite IH. split.
      * intros (pre & post & -> & Hm & Hpre).
        exists (c :: pre), post. split_and!; [done|done|by constructor].
      * intros (pre & post & Heq & Hm & Hpre).
        destruct pre as [|p pre]; simplify_eq/=; [congruence|].
        apply Forall_cons in Hpre as [_ Hpre]. by exists pre, post.
Qed.

Lemma find_item_None (l : list item) (key : string) :
  find_item l key = None <-> Forall (fun c => matches key c = false) l.
Proof.
  induction l as [|c l IH]; simpl; [by split|].
  destruct (matches key c) eqn:Hc.
  - split; [done|]. intros [Hc' _]%Forall_cons. congruence.
  - rewrite IH. split; [by constructor|]. by intros [_ ?]%Forall_cons.
Qed.

Lemma find_item_index_Some (l : list item) (key : string) (i j : nat)
    (it : item) :
  find_item_index l key i = Some (j, it) <->
  exists pre post, l = pre ++ it :: post /\ j = i + length pre
                   /\ matches key it = true
                   /\ Forall (fun c => matches key c = false) pre.
Proof.
  revert i. induction l as [|c l IH]; intros i; simpl.
  - split; [done|]. intros (pre & post & Heq & _). by destruct pre.
  - destruct (matches key c) eqn:Hc.
    + split.
      * intros [= <- <-]. exists [], l. split_and!; simpl; [done|lia|done|done].
      * intros (pre & post & Heq & -> & Hm & Hpre).
        destruct pre as [|p pre]; simplify_eq/=.
        -- by rewrite Nat.add_0_r.
        -- apply Forall_cons in Hpre as [Hp _]. congruence.
    + rewrite IH. split.
      * intros (pre & post & -> & -> & Hm & Hpre).
        exists (c :: pre), post.
        split_and!; simpl; [done|lia|done|by constructor].
      * intros (pre & post & Heq & -> & Hm & Hpre).
        destruct pre as [|p pre]; simplify_eq/=; [congruence|].
        apply Forall_cons in Hpre as [_ Hpre].
        exists pre, post. split_and!; [done|lia|done|done].
Qed.

Lemma find_item_index_None (l : list item) (key : string) (i : nat) :
  find_item_index l key i = None <-> find_item l key = None.
Proof.
  revert i. induction l as [|c l IH]; intros i; simpl; [done|].
  by destruct (matches key c).
Qed.

Lemma find_item_index_find_item (l : list item) (key : string) (i j : nat)
    (it : item) :
  find_item_index l key i = Some (j, it) -> find_item l key = Some it.
Proof.
  rewrite find_item_index_Some, find_item_Some.
  intros (pre & post & ? & ? & ? & ?). by exists pre, post.
Qed.

Lemma find_item_elem_of (l : list item) (key : string) (it : item) :
  find_item l key = Some it -> it ∈ l /\ matches key it = true.
Proof.
  intros (pre & post & -> & Hm & _)%find_item_Some. split; [|done].
  apply elem_of_app. right. by left.
Qed.

(** [remove] of an item just found drops that very occurrence. *)
Lemma list_remove_found (pre post : list item) (key : string) (it : item) :
  matches key it = true -> Forall (fun c => matches key c = false) pre ->
  list_remove it (pre ++ it :: post) = pre ++ post.
Proof.
  intros Hm. induction pre as [|p pre IH]; intros Hpre; simpl.
  - by rewrite decide_True.
  - apply Forall_cons in Hpre as [Hp Hpre].
    rewrite decide_False by congruence. by rewrite IH.
Qed.

Lemma list_remove_subseteq (x : item) (l : list item) : list_remove x l ⊆ l.
Proof.
  induction l as [|y l IH]; simpl; [done|].
  case_decide.
  - by apply list_subseteq_cons.
  - intros z [->|Hz]%elem_of_cons; [by left|]. right. by apply IH.
Qed.

(** Removing another item leaves the first match of [key] in place. *)
Lemma find_item_list_remove (l : list item) (key : string) (x it : item) :
  find_item l key = Some it -> x <> it ->
  find_item (list_remove x l) key = Some it.
Proof.
  intros Hfind Hne. induction l as [|c l IH]; simpl in *; [done|].
  destruct (matches key c) eqn:Hc.
  - simplify_eq. rewrite decide_False by done. simpl. by rewrite Hc.
  - case_decide; [done|]. simpl. rewrite Hc. by apply IH.
Qed.

(** ** Result buckets *)

Lemma bucket_append_same (k v : string) (r : buckets) :
  is_Some (r !! k) -> bucket k (bucket_append k v r) = bucket k r ++ [v].
Proof.
  intros [l Hl]. unfold bucket, bucket_append.
  by rewrite lookup_alter_eq, Hl.
Qed.

Lemma bucket_append_other (k k' v : string) (r : buckets) :
  k <> k' -> bucket k (bucket_append k' v r) = bucket k r.
Proof.
  intros Hne. unfold bucket, bucket_append.
  by rewrite lookup_alter_ne.
Qed.

Lemma dom_bucket_append (k v : string) (r : buckets) :
  dom (bucket_append k v r) = dom r.
Proof. unfold bucket_append. apply leibniz_equiv, dom_alter. Qed.

Lemma bucket_append_elem_of (k k' v x : string) (r : buckets) :
  x ∈ bucket k r -> x ∈ bucket k (bucket_append k' v r).
Proof.
  intros Hx. destruct (decide (k = k')) as [<-|Hne].
  - destruct (r !! k) as [l|] eqn:Hl.
    + rewrite bucket_append_same by eauto. apply elem_of_app. by left.
    + unfold bucket in Hx. rewrite Hl in Hx. by inversion Hx.
  - by rewrite bucket_append_other.
Qed.

Lemma bucket_append_elem_of_new (k v : string) (r : buckets) :
  k ∈ dom r -> v ∈ bucket k (bucket_append k v r).
Proof.
  intros Hk%elem_of_dom. rewrite bucket_append_same by done.
  apply elem_of_app. right. by left.
Qed.

Lemma bucket_append_elem_of_inv (k k' v x : string) (r : buckets) :
  x ∈ bucket k (bucket_append k' v r) -> x ∈ bucket k r \/ x = v.
Proof.
  destruct (decide (k = k')) as [<-|Hne].
  - destruct (r !! k) as [l|] eqn:Hl.
    + rewrite bucket_append_same by eauto.
      intros [?|Hx%list_elem_of_singleton]%elem_of_app; auto.
    + unfold bucket, bucket_append. rewrite lookup_alter_eq, Hl. simpl.
      by intros ?%elem_of_nil.
  - rewrite bucket_append_other by done. auto.
Qed.

(** Every bucket is empty when a batch starts. *)
Lemma add_results0_empty (k : string) : bucket k add_results0 = [].
Proof. unfold add_results0. empty_buckets. Qed.

Lemma delete_results0_empty (k : string) : bucket k delete_results0 = [].
Proof. unfold delete_results0. empty_buckets. Qed.

Lemma mark_complete_results0_empty (k : string) :
  bucket k mark_complete_results0 = [].
Proof. unfold mark_complete_results0. empty_buckets. Qed.

Lemma mark_incomplete_results0_empty (k : string) :
  bucket k mark_incomplete_results0 = [].
Proof. unfold mark_incomplete_results0. empty_buckets. Qed.

(** ** Matching (C7) *)

(** C7. For every candidate list and every name, the search used by
    [delete_item] and [mark_complete] ([find_item]) and the one used by
    [mark_incomplete] ([find_item_index], which also gives the position)
    select the first candidate, in the order of the list, whose stripped and
    lower-cased value equals the stripped and lower-cased name, and select
    none exactly when no candidate's normalized value equals it. *)
Theorem matching_selects_first_candidate (candidates : list item)
    (name : string) :
  let key := lower (strip name) in
  let norm := fun it => lower (strip (get_value it "")) in
  (forall it, find_item candidates key = Some it <->
     exists pre post, candidates = pre ++ it :: post /\ norm it = key
                      /\ Forall (fun c => norm c <> key) pre)
  /\ (find_item candidates key = None <->
      Forall (fun c => norm c <> key) candidates)
  /\ (forall i it, find_item_index candidates key 0 = Some (i, it) <->
        exists pre post, candidates = pre ++ it :: post /\ i = length pre
                         /\ norm it = key
                         /\ Forall (fun c => norm c <> key) pre)
  /\ (find_item_index candidates key 0 = None <->
      Forall (fun c => norm c <> key) candidates).
Proof.
  intros key norm.
  assert (forall l, Forall (fun c => matches key c = false) l <->
                    Forall (fun c => norm c <> key) l) as Hall.
  { intros l. apply Forall_proper; [|done]. intros c. unfold norm.
    rewrite <- matches_spec. by destruct (matches key c). }
  split_and!.
  - intros it. rewrite find_item_Some.
    by setoid_rewrite Hall; setoid_rewrite matches_spec.
  - by rewrite find_item_None, Hall.
  - intros i it. rewrite find_item_index_Some.
    by setoid_rewrite Hall; setoid_rewrite matches_spec.
  - by rewrite find_item_index_None, find_item_None, Hall.
Qed.

(** ** Batches with no valid name (C8, C9) *)

Section NoValidValues.
Context {W : Type} `{RemoteList W}.

Lemma add_body_skip (value : string) (results : buckets) (w : W) :
  strip value = "" -> add_body value results w = Run results w [].
Proof. intros Hs. unfold add_body. by rewrite Hs. Qed.

Lemma add_body_valid (value : string) (results : buckets) (w : W) :
  strip value <> "" ->
  exists ok w',
    add_shopping_list_item (strip value) w = (ok, w')
    /\ add_body value results w =
       Run (bucket_append (if ok then "added" else "failed") (strip value)
              results) w' [AddOne (strip value) ok].
Proof.
  intros Hs%truthy_true. unfold add_body, bind, add_one. rewrite Hs. simpl.
  destruct (add_shopping_list_item (strip value) w) as [ok w'] eqn:Hadd.
  exists ok, w'. split; [done|]. by destruct ok.
Qed.

(** C8. When every name of the batch given to [add_item] is empty after
    stripping (the empty batch included), [add_item] returns exactly
    "Error: No valid item values provided to add.", makes no call and leaves
    the remote list as it was; and in any batch a bucket of [add_item] only
    holds stripped input names that are not empty. *)
Theorem add_item_no_valid_values :
  (forall (a : item_values) (w : W),
     Forall (fun v => strip v = "") (values_to_process a) ->
     add_item a w = Run "Error: No valid item values provided to add." w [])
  /\ (forall (values : list string) (w : W) (k x : string),
        x ∈ bucket k (result (add_item_results values w)) ->
        x <> "" /\ exists v, v ∈ values /\ x = strip v).
Proof.
  split.
  - intros a w Hall. unfold add_item.
    by rewrite no_valid_values_all_empty.
  - intros values w k x.
    pose (I := fun (s : buckets) (_ : list call) =>
                 forall k x, x ∈ bucket k s ->
                   x <> "" /\ exists v, v ∈ values /\ x = strip v).
    assert (I (result (add_item_results values w))
              ([] ++ calls (add_item_results values w))) as Hfin; [|by apply Hfin].
    unfold add_item_results. apply for_each_inv.
    + intros v s w' cs Hv HI k' x'.
      destruct (decide (strip v = "")) as [He|Hne].
      * rewrite add_body_skip by done. apply (HI k' x').
      * destruct (add_body_valid v s w' Hne) as (ok & w'' & _ & ->). simpl.
        intros [Hold| ->]%bucket_append_elem_of_inv; [by apply (HI k' x')|].
        split; [done|]. by exists v.
    + intros k' x'. rewrite add_results0_empty. by intros ?%elem_of_nil.
Qed.

(** C9. When every name of the batch given to [delete_item], [mark_complete]
    or [mark_incomplete] is empty after stripping, the tool returns its own
    error string before the snapshot is fetched: it makes no call at all and
    leaves the remote list as it was. *)
Theorem no_valid_values_returns_before_fetch (a : item_values) (w : W) :
  Forall (fun v => strip v = "") (values_to_process a) ->
  delete_item a w =
    Run "Error: No valid item values provided for deletion." w []
  /\ mark_complete a w =
    Run "Error: No valid item values provided to mark complete." w []
  /\ mark_incomplete a w =
    Run "Error: No valid item values provided to mark incomplete." w [].
Proof.
  intros Hall%no_valid_values_all_empty.
  unfold delete_item, mark_complete, mark_incomplete. by rewrite Hall.
Qed.

End NoValidValues.

(** ** One pass of each batch loop *)

Section Passes.
Context {W : Type} `{RemoteList W}.

(** The five ways one pass of the loop of [delete_item] can go. *)
Lemma delete_body_cases (value : string) (pool : list item) (results : buckets)
    (w : W) :
  let key := lower (strip value) in
  let r := delete_body value (pool, results) w in
  (strip value = "" /\ r = Run (pool, results) w [])
  \/ (strip value <> "" /\ find_item pool key = None
      /\ r = Run (pool, bucket_append "not_found" (strip value) results) w [])
  \/ (exists it, strip value <> "" /\ find_item pool key = Some it
        /\ has_id it = false
        /\ r = Run (pool, bucket_append "missing_id" (strip value) results) w [])
  \/ (exists it w', strip value <> "" /\ find_item pool key = Some it
        /\ has_id it = true /\ delete_shopping_list_item it w = (true, w')
        /\ r = Run (list_remove it pool,
                    bucket_append "deleted" (strip value) results)
                 w' [DeleteOne it true])
  \/ (exists it w', strip value <> "" /\ find_item pool key = Some it
        /\ has_id it = true /\ delete_shopping_list_item it w = (false, w')
        /\ r = Run (pool, bucket_append "failed" (strip value) results)
                 w' [DeleteOne it false]).
Proof.
  intros key r. subst r. unfold delete_body.
  destruct (truthy (strip value)) eqn:Ht; simpl.
  2: { left. by apply truthy_false in Ht. }
  apply truthy_true in Ht. right. fold key.
  destruct (find_item pool key) as [it|] eqn:Hfind; [|by left].
  right. destruct (has_id it) eqn:Hid; simpl; [|left; by exists it].
  right. unfold bind, delete_one.
  destruct (delete_shopping_list_item it w) as [[] w'] eqn:Hdel; simpl.
  - left. by exists it, w'.
  - right. by exists it, w'.
Qed.

(** The five ways one pass of the loop of [mark_complete] can go. *)
Lemma mark_complete_body_cases (value : string) (pool : list item)
    (results : buckets) (w : W) :
  let key := lower (strip value) in
  let r := mark_complete_body value (pool, results) w in
  (strip value = "" /\ r = Run (pool, results) w [])
  \/ (strip value <> "" /\ find_item pool key = None
      /\ r = Run (pool, bucket_append "not_found" (strip value) results) w [])
  \/ (exists it, strip value <> "" /\ find_item pool key = Some it
        /\ get_completed it = true
        /\ r = Run (pool, bucket_append "already_complete" (strip value) results)
                 w [])
  \/ (exists it w', strip value <> "" /\ find_item pool key = Some it
        /\ get_completed it = false /\ mark_item_as_completed it w = (true, w')
        /\ r = Run (list_remove it pool,
                    bucket_append "marked" (strip value) results)
                 w' [MarkCompleted it true])
  \/ (exists it w', strip value <> "" /\ find_item pool key = Some it
        /\ get_completed it = false /\ mark_item_as_completed it w = (false, w')
        /\ r = Run (pool, bucket_append "failed" (strip value) results)
                 w' [MarkCompleted it false]).
Proof.
  intros key r. subst r. unfold mark_complete_body.
  destruct (truthy (strip value)) eqn:Ht; simpl.
  2: { left. by apply truthy_false in Ht. }
  apply truthy_true in Ht. right. fold key.
  destruct (find_item pool key) as [it|] eqn:Hfind; [|by left].
  right. destruct (get_completed it) eqn:Hc; simpl; [left; by exists it|].
  right. unfold bind, mark_one.
  destruct (mark_item_as_completed it w) as [[] w'] eqn:Hmark; simpl.
  - left. by exists it, w'.
  - right. by exists it, w'.
Qed.

(** The five ways one pass of the loop of [mark_incomplete] can go. *)
Lemma mark_incomplete_body_cases (value : string) (pool : list item)
    (results : buckets) (w : W) :
  let key := lower (strip value) in
  let r := mark_incomplete_body value (pool, results) w in
  (strip value = "" /\ r = Run (pool, results) w [])
  \/ (strip value <> "" /\ find_item_index pool key 0 = None
      /\ r = Run (pool, bucket_append "not_found" (strip value) results) w [])
  \/ (exists i it, strip value <> ""
        /\ find_item_index pool key 0 = Some (i, it)
        /\ get_completed it = false
        /\ r = Run (pool,
                    bucket_append "already_incomplete" (strip value) results)
                 w [])
  \/ (exists i it w', strip value <> ""
        /\ find_item_index pool key 0 = Some (i, it)
        /\ get_completed it = true
        /\ unmark_item_as_completed it w = (true, w')
        /\ r = Run (alter set_incomplete i pool,
                    bucket_append "unmarked" (strip value) results)
                 w' [UnmarkCompleted it true])
  \/ (exists i it w', strip value <> ""
        /\ find_item_index pool key 0 = Some (i, it)
        /\ get_completed it = true
        /\ unmark_item_as_completed it w = (false, w')
        /\ r = Run (pool, bucket_append "failed" (strip value) results)
                 w' [UnmarkCompleted it false]).
Proof.
  intros key r. subst r. unfold mark_incomplete_body.
  destruct (truthy (strip value)) eqn:Ht; simpl.
  2: { left. by apply truthy_false in Ht. }
  apply truthy_true in Ht. right. fold key.
  destruct (find_item_index pool key 0) as [[i it]|] eqn:Hfind; [|by left].
  right. destruct (get_completed it) eqn:Hc; simpl; [|left; by exists i, it].
  right. unfold bind, unmark_one.
  destruct (unmark_item_as_completed it w) as [[] w'] eqn:Hun; simpl.
  - left. by exists i, it, w'.
  - right. by exists i, it, w'.
Qed.

End Passes.

(** ** Buckets in encounter order (C6) *)

Lemma names_labelled_cons (k v l : string) (names labels : list string) :
  names_labelled k (v :: names) (l :: labels) =
  if decide (l = k) then v :: names_labelled k names labels
  else names_labelled k names labels.
Proof.
  unfold names_labelled. simpl.
  case_decide as Hl.
  - apply String.eqb_eq in Hl. by rewrite Hl.
  - apply String.eqb_neq in Hl. by rewrite Hl.
Qed.

Section EncounterOrder.
Context {W : Type} `{RemoteList W}.

(** A loop whose body puts each non-empty stripped name in one bucket of
    [keys], and leaves the buckets alone otherwise, fills every bucket with
    the names labelled by it, in the order of the batch. *)
Lemma for_each_classifies {S} (body : string -> S -> M W S)
    (res : S -> buckets) (keys : gset string) :
  (forall v s w,
     (strip v = "" /\ res (result (body v s w)) = res s)
     \/ (strip v <> "" /\ exists k, k ∈ keys
           /\ res (result (body v s w)) = bucket_append k (strip v) (res s))) ->
  forall values s w, keys ⊆ dom (res s) ->
    exists labels,
      length labels = length (stripped_names values)
      /\ Forall (fun l => l ∈ keys) labels
      /\ forall k, bucket k (res (result (for_each body values s w))) =
                   bucket k (res s)
                   ++ names_labelled k (stripped_names values) labels.
Proof.
  intros Hbody values.
  induction values as [|v values IH]; intros s w Hdom.
  - exists []. split_and!; [done|done|]. intros k. simpl.
    by rewrite app_nil_r.
  - simpl for_each. unfold bind. simpl result.
    rewrite stripped_names_cons.
    destruct (Hbody v s w) as [[He Hres]|(Hne & k0 & Hk0 & Hres)].
    + destruct (IH (result (body v s w)) (remote (body v s w)))
        as (labels & Hlen & Hkeys & Hb).
      { by rewrite Hres. }
      exists labels. rewrite He. simpl. split_and!; [done|done|].
      intros k. by rewrite Hb, Hres.
    + destruct (IH (result (body v s w)) (remote (body v s w)))
        as (labels & Hlen & Hkeys & Hb).
      { by rewrite Hres, dom_bucket_append. }
      exists (k0 :: labels).
      apply truthy_true in Hne. rewrite Hne.
      split_and!; [by simpl; f_equal|by constructor|].
      intros k. rewrite Hb, Hres, names_labelled_cons.
      case_decide as Hk.
      * subst k0. rewrite bucket_append_same; [by rewrite <- app_assoc|].
        apply elem_of_dom. by apply Hdom.
      * by rewrite bucket_append_other.
Qed.

Lemma add_body_classifies (v : string) (s : buckets) (w : W) :
  (strip v = "" /\ result (add_body v s w) = s)
  \/ (strip v <> "" /\ exists k, k ∈ ({["added"; "failed"]} : gset string)
        /\ result (add_body v s w) = bucket_append k (strip v) s).
Proof.
  destruct (decide (strip v = "")) as [He|Hne].
  - left. by rewrite add_body_skip.
  - right. split; [done|].
    destruct (add_body_valid v s w Hne) as (ok & w' & _ & ->).
    exists (if ok then "added" else "failed"). split; [|done].
    destruct ok; set_solver.
Qed.

Lemma delete_body_classifies (v : string) (s : list item * buckets) (w : W) :
  (strip v = "" /\ snd (result (delete_body v s w)) = snd s)
  \/ (strip v <> "" /\ exists k,
        k ∈ ({["deleted"; "not_found"; "missing_id"; "failed"]} : gset string)
        /\ snd (result (delete_body v s w)) = bucket_append k (strip v) (snd s)).
Proof.
  destruct s as [pool results].
  destruct (delete_body_cases v pool results w)
    as [(? & ->)|[(? & ? & ->)|[(? & ? & ? & ? & ->)|
        [(? & ? & ? & ? & ? & ? & ->)|(? & ? & ? & ? & ? & ? & ->)]]]];
    [by left|right; split; [done|]..]; eexists; (split; [|done]); set_solver.
Qed.

Lemma mark_complete_body_classifies (v : string) (s : list item * buckets)
    (w : W) :
  (strip v = "" /\ snd (result (mark_complete_body v s w)) = snd s)
  \/ (strip v <> "" /\ exists k,
        k ∈ ({["marked"; "not_found"; "already_complete"; "failed"]}
             : gset string)
        /\ snd (result (mark_complete_body v s w)) =
           bucket_append k (strip v) (snd s)).
Proof.
  destruct s as [pool results].
  destruct (mark_complete_body_cases v pool results w)
    as [(? & ->)|[(? & ? & ->)|[(? & ? & ? & ? & ->)|
        [(? & ? & ? & ? & ? & ? & ->)|(? & ? & ? & ? & ? & ? & ->)]]]];
    [by left|right; split; [done|]..]; eexists; (split; [|done]); set_solver.
Qed.

Lemma mark_incomplete_body_classifies (v : string) (s : list item * buckets)
    (w : W) :
  (strip v = "" /\ snd (result (mark_incomplete_body v s w)) = snd s)
  \/ (strip v <> "" /\ exists k,
        k ∈ ({["unmarked"; "not_found"; "already_incomplete"; "failed"]}
             : gset string)
        /\ snd (result (mark_incomplete_body v s w)) =
           bucket_append k (strip v) (snd s)).
Proof.
  destruct s as [pool results].
  destruct (mark_incomplete_body_cases v pool results w)
    as [(? & ->)|[(? & ? & ->)|[(? & ? & ? & ? & ? & ->)|
        [(? & ? & ? & ? & ? & ? & ? & ->)|(? & ? & ? & ? & ? & ? & ? & ->)]]]];
    [by left|right; split; [done|]..]; eexists; (split; [|done]); set_solver.
Qed.

End EncounterOrder.

(** C6, as the code has it.  For every batch given to [add_item],
    [delete_item], [mark_complete] or [mark_incomplete], each non-empty
    stripped input name goes to exactly one bucket of the tool, and every
    bucket of the result holds its names stripped but with their case kept,
    in the order of the batch.  (Lower-casing is only applied when a name is
    compared with the values of the items.) *)
Theorem buckets_hold_stripped_names_in_order {W : Type} `{RemoteList W}
    (values : list string) (w : W) :
  let names := stripped_names values in
  bucketed_in_order {["added"; "failed"]} names
    (result (add_item_results values w))
  /\ bucketed_in_order {["deleted"; "not_found"; "missing_id"; "failed"]} names
       (snd (result (delete_item_results values w)))
  /\ bucketed_in_order {["marked"; "not_found"; "already_complete"; "failed"]}
       names (snd (result (mark_complete_results values w)))
  /\ match result (mark_incomplete_results values w) with
     | Some st =>
         bucketed_in_order
           {["unmarked"; "not_found"; "already_incomplete"; "failed"]}
           names (snd st)
     | None => fst (get_shopping_list_items w) = None
     end.
Proof.
  intros names. unfold bucketed_in_order. split_and!.
  - destruct (for_each_classifies add_body (fun s => s) _ add_body_classifies
                values add_results0 w) as (labels & Hlen & Hkeys & Hb);
      [known_buckets|].
    exists labels. split_and!; [done|done|]. intros k.
    unfold add_item_results. by rewrite Hb, add_results0_empty.
  - unfold delete_item_results, bind, fetch_items.
    destruct (get_shopping_list_items w) as [all w1]. simpl.
    destruct (for_each_classifies delete_body snd _ delete_body_classifies
                values (incomplete_snapshot all, delete_results0) w1)
      as (labels & Hlen & Hkeys & Hb); [known_buckets|].
    exists labels. split_and!; [done|done|]. intros k.
    by rewrite Hb; simpl; rewrite delete_results0_empty.
  - unfold mark_complete_results, bind, fetch_items.
    destruct (get_shopping_list_items w) as [all w1]. simpl.
    destruct (for_each_classifies mark_complete_body snd _
                mark_complete_body_classifies
                values (incomplete_snapshot all, mark_complete_results0) w1)
      as (labels & Hlen & Hkeys & Hb); [known_buckets|].
    exists labels. split_and!; [done|done|]. intros k.
    by rewrite Hb; simpl; rewrite mark_complete_results0_empty.
  - unfold mark_incomplete_results, bind, fetch_items.
    destruct (get_shopping_list_items w) as [[all|] w1]; simpl; [|done].
    destruct (for_each_classifies mark_incomplete_body snd _
                mark_incomplete_body_classifies
                values (all, mark_incomplete_results0) w1)
      as (labels & Hlen & Hkeys & Hb); [known_buckets|].
    exists labels. split_and!; [done|done|]. intros k.
    by rewrite Hb; simpl; rewrite mark_incomplete_results0_empty.
Qed.

(** ** The snapshot searched by [delete_item] and [mark_complete] *)

Lemma incomplete_snapshot_elem_of (all : option (list item)) (it : item) :
  it ∈ incomplete_snapshot all <->
  exists l, all = Some l /\ it ∈ l /\ get_completed it = false.
Proof.
  unfold incomplete_snapshot, filter_incomplete_items.
  destruct all as [[|c l]|].
  - split; [by intros ?%elem_of_nil|]. intros (l & [= <-] & Hin & _).
    by apply elem_of_nil in Hin.
  - rewrite list_elem_of_In, filter_In, <- list_elem_of_In, negb_true_iff.
    split; [intros [? ?]; by eexists|]. by intros (l' & [= <-] & ? & ?).
  - split; [by intros ?%elem_of_nil|]. by intros (l & ? & _).
Qed.

Lemma no_mutation_for_snoc (key : string) (cs : list call) (c : call) :
  no_mutation_for key cs ->
  match mutated_item c with
  | Some it => matches key it = false
  | None => True
  end ->
  no_mutation_for key (cs ++ [c]).
Proof.
  intros Hcs Hc. apply Forall_app. split; [done|]. by constructor.
Qed.

(** ** [mark_complete] and items already completed (C2) *)

Section MarkComplete.
Context {W : Type} `{RemoteList W}.

Lemma mark_complete_body_inv (pool0 : list item) (value : string)
    (st : list item * buckets) (w : W) (cs : list call) :
  (forall it, it ∈ pool0 -> get_completed it = false) ->
  pool_inv pool0 mark_complete_results0 st cs
  /\ bucket "already_complete" (snd st) = [] ->
  pool_inv pool0 mark_complete_results0 (result (mark_complete_body value st w))
    (cs ++ calls (mark_complete_body value st w))
  /\ bucket "already_complete" (snd (result (mark_complete_body value st w)))
     = [].
Proof.
  intros Hinc [(Hsub & Hdom & Hcs) Hac]. destruct st as [pool results].
  simpl in Hsub, Hdom, Hac. unfold pool_inv.
  destruct (mark_complete_body_cases value pool results w)
    as [(? & ->)|[(? & ? & ->)|[(it & ? & Hf & Hc & ->)|
        [(it & w' & ? & Hf & ? & ? & ->)|(it & w' & ? & Hf & ? & ? & ->)]]]];
    simpl; rewrite ?app_nil_r.
  - done.
  - split_and!; [done|by rewrite dom_bucket_append|done|].
    by rewrite bucket_append_other.
  - apply find_item_elem_of in Hf as [Hin _].
    apply Hsub, Hinc in Hin. congruence.
  - apply find_item_elem_of in Hf as [Hin _].
    split_and!.
    + intros x Hx. by apply Hsub, (list_remove_subseteq it).
    + by rewrite dom_bucket_append.
    + apply Forall_app. split; [done|]. constructor; [|done]. by apply Hsub.
    + by rewrite bucket_append_other.
  - apply find_item_elem_of in Hf as [Hin _].
    split_and!; [done|by rewrite dom_bucket_append| |].
    + apply Forall_app. split; [done|]. constructor; [|done]. by apply Hsub.
    + by rewrite bucket_append_other.
Qed.

(** C2, as the code has it.  [mark_complete] searches the incomplete items
    only.  For every batch, an input name that is not empty after stripping
    and whose normalized value is matched by completed items only (no
    incomplete item of the snapshot matches it) is bucketed into [not_found];
    the [already_complete] bucket stays empty; and no set-completion call is
    made on an item matching that name. *)
Theorem mark_complete_completed_item_not_found (values : list string) (w : W)
    (name : string) :
  let r := mark_complete_results values w in
  let key := lower (strip name) in
  name ∈ values -> strip name <> "" ->
  (forall l it, fst (get_shopping_list_items w) = Some l -> it ∈ l ->
     matches key it = true -> get_completed it = true) ->
  strip name ∈ bucket "not_found" (snd (result r))
  /\ bucket "already_complete" (snd (result r)) = []
  /\ no_mutation_for key (calls r).
Proof.
  intros r key Hname Hne Hcompleted. subst r.
  unfold mark_complete_results, bind, fetch_items.
  destruct (get_shopping_list_items w) as [all w1]. simpl in *.
  set (pool0 := incomplete_snapshot all).
  assert (forall it, it ∈ pool0 -> get_completed it = false) as Hinc.
  { intros it (l & _ & _ & Hc)%incomplete_snapshot_elem_of. done. }
  assert (forall it, it ∈ pool0 -> matches key it = false) as Hno.
  { intros it (l & Hall & Hin & Hc)%incomplete_snapshot_elem_of.
    apply not_true_is_false. intros Hm.
    rewrite (Hcompleted l it Hall Hin Hm) in Hc. discriminate. }
  set (I := fun st cs =>
              pool_inv pool0 mark_complete_results0 st cs
              /\ bucket "already_complete" (snd st) = []).
  assert (I (pool0, mark_complete_results0) [Fetch all]) as HI0.
  { split; [|apply mark_complete_results0_empty].
    split_and!; [done|done|]. by repeat constructor. }
  assert (forall x s w' cs, I s cs ->
            I (result (mark_complete_body x s w'))
              (cs ++ calls (mark_complete_body x s w'))) as Hstep.
  { intros x s w' cs HI. by apply mark_complete_body_inv. }
  pose proof (for_each_inv mark_complete_body I values
                (fun x s w' cs _ => Hstep x s w' cs) _ w1 _ HI0)
    as [(_ & _ & Hcalls) Hac].
  split_and!; [|done|].
  - apply (for_each_reach mark_complete_body I
             (fun st => strip name ∈ bucket "not_found" (snd st))
             name values Hname Hstep) with (cs := [Fetch all]); [| |done].
    + intros [pool results] w' cs [(Hsub & Hdom & _) _]. simpl in Hsub, Hdom.
      destruct (mark_complete_body_cases name pool results w')
        as [(? & ->)|[(? & ? & ->)|[(it & ? & Hf & Hc & ->)|
            [(it & w'' & ? & Hf & ? & ? & ->)|(it & w'' & ? & Hf & ? & ? & ->)]]]];
        simpl; [done| |apply find_item_elem_of in Hf as [Hin Hm];
                       apply Hsub, Hno in Hin; fold key in Hm; congruence..].
      apply bucket_append_elem_of_new. rewrite Hdom.
      unfold mark_complete_results0. rewrite !dom_insert_L. set_solver.
    + intros x s w' cs _ HQ.
      destruct (mark_complete_body_classifies x s w')
        as [[_ ->]|(_ & k & _ & ->)]; [done|].
      by apply bucket_append_elem_of.
  - eapply Forall_impl; [exact Hcalls|]. intros c. simpl.
    destruct (mutated_item c); [apply Hno|done].
Qed.

End MarkComplete.

(** ** Matched items without an id (C5) *)

Section MissingId.
Context {W : Type} `{RemoteList W}.

Lemma mark_complete_results_dom (values : list string) (w : W) :
  dom (snd (result (mark_complete_results values w)))
  = dom mark_complete_results0.
Proof.
  unfold mark_complete_results, bind, fetch_items.
  destruct (get_shopping_list_items w) as [all w1]. simpl.
  pose proof (for_each_inv mark_complete_body
                (fun st _ => dom (snd st) = dom mark_complete_results0) values)
    as Hinv.
  apply Hinv with (cs := []); [|done].
  intros x s w' cs _ Hdom.
  destruct (mark_complete_body_classifies x s w')
    as [[_ ->]|(_ & k & _ & ->)]; [done|].
  by rewrite dom_bucket_append.
Qed.

(** C5, as the code has it.  Take a name, not empty after stripping, whose
    first match among the incomplete items of the snapshot lacks an id.
    In [delete_item] the name is bucketed into [missing_id] and no
    delete-one call is made on an item matching it.  [mark_complete] has no
    [missing_id] bucket and does not look at the id: the batch makes a
    set-completion call on that item, and the pass for a name whose first
    match it is buckets the name into [marked] or [failed] by the outcome of
    the call. *)
Theorem missing_id_bucket_only_in_delete_item (values : list string) (w : W)
    (name : string) (it : item) :
  let key := lower (strip name) in
  let pool0 := incomplete_snapshot (fst (get_shopping_list_items w)) in
  name ∈ values -> strip name <> "" ->
  find_item pool0 key = Some it -> has_id it = false ->
  (strip name ∈ bucket "missing_id" (snd (result (delete_item_results values w)))
   /\ no_mutation_for key (calls (delete_item_results values w)))
  /\ ("missing_id" ∉ dom (snd (result (mark_complete_results values w))))
  /\ Exists (fun c => exists ok, c = MarkCompleted it ok)
       (calls (mark_complete_results values w))
  /\ (forall (results : buckets) (w1 : W),
        exists ok w2,
          mark_item_as_completed it w1 = (ok, w2)
          /\ mark_complete_body name (pool0, results) w1 =
             Run (if ok then list_remove it pool0 else pool0,
                  bucket_append (if ok then "marked" else "failed")
                    (strip name) results)
               w2 [MarkCompleted it ok]).
Proof.
  intros key pool0 Hname Hne Hfind Hid. subst key.
  assert (get_completed it = false) as Hc.
  { pose proof (find_item_elem_of _ _ _ Hfind) as [Hin _].
    by apply incomplete_snapshot_elem_of in Hin as (? & _ & _ & ?). }
  split; [|split; [|split]].
  - unfold delete_item_results, bind, fetch_items. subst pool0.
    destruct (get_shopping_list_items w) as [all w1]. simpl in *.
    set (pool0 := incomplete_snapshot all) in *.
    set (I := fun (st : list item * buckets) cs =>
                find_item (fst st) (lower (strip name)) = Some it
                /\ dom (snd st) = dom delete_results0
                /\ no_mutation_for (lower (strip name)) cs).
    assert (I (pool0, delete_results0) [Fetch all]) as HI0.
    { split_and!; [done|done|]. by repeat constructor. }
    assert (forall x s w' cs, I s cs ->
              I (result (delete_body x s w'))
                (cs ++ calls (delete_body x s w'))) as Hstep.
    { intros x [pool results] w' cs (Hf & Hdom & Hcs). simpl in Hf, Hdom.
      unfold I.
      assert (forall it', find_item pool (lower (strip x)) = Some it' ->
                has_id it' = true ->
                it' <> it /\ matches (lower (strip name)) it' = false) as Hother.
      { intros it' Hf' Hid'. split; [congruence|].
        pose proof (find_item_elem_of _ _ _ Hf') as [_ Hm'].
        eapply matches_other_key; [done|]. intros Hk.
        rewrite <- Hk in Hf'. congruence. }
      destruct (delete_body_cases x pool results w')
        as [(? & ->)|[(? & ? & ->)|[(it' & ? & ? & ? & ->)|
            [(it' & w'' & ? & Hf' & Hid' & ? & ->)
            |(it' & w'' & ? & Hf' & Hid' & ? & ->)]]]];
        simpl; rewrite ?app_nil_r, ?dom_bucket_append; try done.
      - destruct (Hother it' Hf' Hid') as [Hne' Hm'].
        split_and!; [by apply find_item_list_remove|done|].
        by apply no_mutation_for_snoc.
      - destruct (Hother it' Hf' Hid') as [Hne' Hm'].
        split_and!; [done|done|]. by apply no_mutation_for_snoc. }
    split.
    + apply (for_each_reach delete_body I
               (fun st => strip name ∈ bucket "missing_id" (snd st))
               name values Hname Hstep) with (cs := [Fetch all]); [| |done].
      * intros [pool results] w' cs (Hf & Hdom & _). simpl in Hf, Hdom.
        destruct (delete_body_cases name pool results w')
          as [(? & ->)|[(? & ? & ->)|[(it' & ? & ? & ? & ->)|
              [(it' & w'' & ? & Hf' & Hid' & ? & ->)
              |(it' & w'' & ? & Hf' & Hid' & ? & ->)]]]];
          simpl; [done|congruence| |congruence..].
        apply bucket_append_elem_of_new. rewrite Hdom.
        unfold delete_results0. rewrite !dom_insert_L. set_solver.
      * intros x s w' cs _ HQ.
        destruct (delete_body_classifies x s w')
          as [[_ ->]|(_ & k & _ & ->)]; [done|].
        by apply bucket_append_elem_of.
    + by pose proof (for_each_inv delete_body I values
                       (fun x s w' cs _ => Hstep x s w' cs) _ w1 _ HI0)
        as (_ & _ & ?).
  - rewrite mark_complete_results_dom. apply not_elem_of_dom. reflexivity.
  - unfold mark_complete_results, bind, fetch_items. subst pool0.
    destruct (get_shopping_list_items w) as [all w1]. simpl in *.
    apply Exists_cons. right.
    apply (for_each_calls_reach mark_complete_body
             (fun st => find_item (fst st) (lower (strip name)) = Some it)
             (fun c => exists ok, c = MarkCompleted it ok) name values Hname);
      [| |done].
    + intros x [pool results] w' Hf. simpl in Hf.
      destruct (mark_complete_body_cases x pool results w')
        as [(? & ->)|[(? & ? & ->)|[(it' & ? & ? & ? & ->)|
            [(it' & w'' & ? & Hf' & ? & ? & ->)
            |(it' & w'' & ? & Hf' & ? & ? & ->)]]]];
        simpl; [by left..| |by left].
      destruct (decide (it' = it)) as [->|Hne'].
      * right. constructor. by exists true.
      * left. by apply find_item_list_remove.
    + intros [pool results] w' Hf. simpl in Hf.
      destruct (mark_complete_body_cases name pool results w')
        as [(? & ->)|[(? & ? & ->)|[(it' & ? & ? & ? & ->)|
            [(it' & w'' & ? & Hf' & ? & ? & ->)
            |(it' & w'' & ? & Hf' & ? & ? & ->)]]]];
        [done|congruence|congruence|..];
        (assert (it' = it) as -> by congruence); simpl; constructor;
        by eexists.
  - intros results w1.
    destruct (mark_complete_body_cases name pool0 results w1)
      as [(? & ->)|[(? & ? & ->)|[(it' & ? & ? & ? & ->)|
          [(it' & w2 & ? & Hf' & ? & ? & ->)
          |(it' & w2 & ? & Hf' & ? & ? & ->)]]]];
      [done|congruence|congruence|..];
      (assert (it' = it) as -> by congruence).
    + by exists true, w2.
    + by exists false, w2.
Qed.

End MissingId.

(** ** A name given twice in one batch (C3) *)

Section Twice.
Context {W : Type} `{RemoteList W}.

Lemma delete_body_searching :
  searching_pass (W := W) delete_body
    {["deleted"; "not_found"; "missing_id"; "failed"]}.
Proof.
  intros x [pool results] w r. subst r.
  split_and!; [| | |apply delete_body_classifies];
    destruct (delete_body_cases x pool results w)
      as [(? & ->)|[(? & ? & ->)|[(it & ? & Hf & ? & ->)|
          [(it & w' & ? & Hf & ? & ? & ->)|(it & w' & ? & Hf & ? & ? & ->)]]]];
    simpl; try done; try congruence.
  - apply list_remove_subseteq.
  - apply find_item_elem_of in Hf as [? ?]. repeat constructor. by exists it.
  - apply find_item_elem_of in Hf as [? ?]. repeat constructor. by exists it.
Qed.

Lemma mark_complete_body_searching :
  searching_pass (W := W) mark_complete_body
    {["marked"; "not_found"; "already_complete"; "failed"]}.
Proof.
  intros x [pool results] w r. subst r.
  split_and!; [| | |apply mark_complete_body_classifies];
    destruct (mark_complete_body_cases x pool results w)
      as [(? & ->)|[(? & ? & ->)|[(it & ? & Hf & ? & ->)|
          [(it & w' & ? & Hf & ? & ? & ->)|(it & w' & ? & Hf & ? & ? & ->)]]]];
    simpl; try done; try congruence.
  - apply list_remove_subseteq.
  - apply find_item_elem_of in Hf as [? ?]. repeat constructor. by exists it.
  - apply find_item_elem_of in Hf as [? ?]. repeat constructor. by exists it.
Qed.

(** Once no item of the pool matches [key], the rest of the batch makes no
    mutating call for [key] and sends every name with that key to
    [not_found]; what a bucket already holds stays in it. *)
Lemma not_found_once_removed
    (body : string -> list item * buckets -> M W (list item * buckets))
    (keys : gset string) (key : string) (rest : list string)
    (st : list item * buckets) (w : W) :
  searching_pass body keys -> "not_found" ∈ keys ->
  Forall (fun c => matches key c = false) (fst st) ->
  keys ⊆ dom (snd st) ->
  let r := for_each body rest st w in
  no_mutation_for key (calls r)
  /\ Forall (fun c => matches key c = false) (fst (result r))
  /\ (forall k x, x ∈ bucket k (snd st) -> x ∈ bucket k (snd (result r)))
  /\ (forall b, b ∈ rest -> lower (strip b) = key -> strip b <> "" ->
        strip b ∈ bucket "not_found" (snd (result r))).
Proof.
  intros Hpass Hnf Hpool Hdom r. subst r.
  set (I := fun (s : list item * buckets) (cs : list call) =>
              Forall (fun c => matches key c = false) (fst s)
              /\ keys ⊆ dom (snd s)
              /\ no_mutation_for key cs
              /\ forall k x, x ∈ bucket k (snd st) -> x ∈ bucket k (snd s)).
  assert (I st []) as HI0 by (split_and!; [done|done|constructor|done]).
  assert (forall x s w' cs, I s cs ->
            I (result (body x s w')) (cs ++ calls (body x s w'))) as Hstep.
  { intros x s w' cs (Hp & Hd & Hcs & Hold).
    destruct (Hpass x s w') as (Hsub & Hcalls & _ & Hcl).
    split_and!.
    - rewrite Forall_forall in Hp |- *. intros c Hc. by apply Hp, Hsub.
    - destruct Hcl as [[_ ->]|(_ & k & _ & ->)]; [done|].
      by rewrite dom_bucket_append.
    - apply Forall_app. split; [done|].
      eapply Forall_impl; [exact Hcalls|]. intros c (it & -> & Hin & _).
      rewrite Forall_forall in Hp. by apply Hp.
    - intros k0 x0 Hx. apply Hold in Hx.
      destruct Hcl as [[_ ->]|(_ & k' & _ & ->)]; [done|].
      by apply bucket_append_elem_of. }
  pose proof (for_each_inv body I rest
                (fun x s w' cs _ => Hstep x s w' cs) st w [] HI0)
    as (Hp & _ & Hcs & Hold).
  split_and!; [done|done|done|].
  intros b Hb Hkey Hne.
  apply (for_each_reach body I
           (fun s => strip b ∈ bucket "not_found" (snd s))
           b rest Hb Hstep) with (cs := []); [| |done].
  - intros s w' cs (Hp' & Hd & _ & _).
    destruct (Hpass b s w') as (_ & _ & Hnone & _).
    rewrite Hnone; [|done|rewrite Hkey; by apply find_item_None].
    apply bucket_append_elem_of_new. by apply Hd.
  - intros x s w' cs _ HQ.
    destruct (Hpass x s w') as (_ & _ & _ & [[_ ->]|(_ & k & _ & ->)]);
      [done|].
    by apply bucket_append_elem_of.
Qed.

(** A batch run in two parts: the second part goes on from the pool, the
    buckets and the remote list the first part leaves. *)
Lemma delete_item_results_app (xs ys : list string) (w : W) :
  let r1 := delete_item_results xs w in
  let r2 := for_each delete_body ys (result r1) (remote r1) in
  delete_item_results (xs ++ ys) w =
  Run (result r2) (remote r2) (calls r1 ++ calls r2).
Proof.
  unfold delete_item_results, bind, fetch_items.
  destruct (get_shopping_list_items w) as [all w1]. simpl.
  rewrite for_each_app. unfold bind. simpl. done.
Qed.

Lemma mark_complete_results_app (xs ys : list string) (w : W) :
  let r1 := mark_complete_results xs w in
  let r2 := for_each mark_complete_body ys (result r1) (remote r1) in
  mark_complete_results (xs ++ ys) w =
  Run (result r2) (remote r2) (calls r1 ++ calls r2).
Proof.
  unfold mark_complete_results, bind, fetch_items.
  destruct (get_shopping_list_items w) as [all w1]. simpl.
  rewrite for_each_app. unfold bind. simpl. done.
Qed.

Lemma mark_incomplete_results_app (xs ys : list string) (w : W)
    (s1 : list item * buckets) :
  let r1 := mark_incomplete_results xs w in
  let r2 := for_each mark_incomplete_body ys s1 (remote r1) in
  result r1 = Some s1 ->
  mark_incomplete_results (xs ++ ys) w =
  Run (Some (result r2)) (remote r2) (calls r1 ++ calls r2).
Proof.
  unfold mark_incomplete_results, bind, fetch_items.
  destruct (get_shopping_list_items w) as [[all|] w1]; simpl; [|done].
  intros [= <-]. rewrite for_each_app. unfold bind. simpl.
  by rewrite !app_nil_r.
Qed.

Lemma delete_item_results_dom (values : list string) (w : W) :
  dom (snd (result (delete_item_results values w))) = dom delete_results0.
Proof.
  unfold delete_item_results, bind, fetch_items.
  destruct (get_shopping_list_items w) as [all w1]. simpl.
  apply (for_each_inv delete_body
           (fun st _ => dom (snd st) = dom delete_results0) values)
    with (cs := []); [|done].
  intros x s w' cs _ Hdom.
  destruct (delete_body_classifies x s w')
    as [[_ ->]|(_ & k & _ & ->)]; [done|].
  by rewrite dom_bucket_append.
Qed.

Lemma mark_incomplete_results_dom (values : list string) (w : W)
    (st : list item * buckets) :
  result (mark_incomplete_results values w) = Some st ->
  dom (snd st) = dom mark_incomplete_results0.
Proof.
  unfold mark_incomplete_results, bind, fetch_items.
  destruct (get_shopping_list_items w) as [[all|] w1]; simpl; [|done].
  intros [= <-].
  apply (for_each_inv mark_incomplete_body
           (fun st _ => dom (snd st) = dom mark_incomplete_results0) values)
    with (cs := []); [|done].
  intros x s w' cs _ Hdom.
  destruct (mark_incomplete_body_classifies x s w')
    as [[_ ->]|(_ & k & _ & ->)]; [done|].
  by rewrite dom_bucket_append.
Qed.

(** [mark_complete] only ever searches incomplete items. *)
Lemma mark_complete_results_pool (values : list string) (w : W) (it : item) :
  it ∈ fst (result (mark_complete_results values w)) ->
  get_completed it = false.
Proof.
  unfold mark_complete_results, bind, fetch_items.
  destruct (get_shopping_list_items w) as [all w1]. simpl.
  set (pool0 := incomplete_snapshot all).
  assert (forall x, x ∈ pool0 -> get_completed x = false) as Hinc.
  { by intros x (l & _ & _ & Hc)%incomplete_snapshot_elem_of. }
  pose proof (for_each_inv mark_complete_body
                (fun st cs => pool_inv pool0 mark_complete_results0 st cs
                              /\ bucket "already_complete" (snd st) = [])
                values
                (fun x s w' cs _ => mark_complete_body_inv pool0 x s w' cs Hinc)
                (pool0, mark_complete_results0) w1 [])
    as [(Hsub & _) _].
  { split; [|apply mark_complete_results0_empty].
    split_and!; [done|done|constructor]. }
  intros Hin. by apply Hinc, Hsub.
Qed.

(** Clearing the local flag of an item does not change what it matches. *)
Lemma matches_set_incomplete (key : string) (it : item) :
  matches key (set_incomplete it) = matches key it.
Proof. reflexivity. Qed.

Lemma find_item_index_alter (l : list item) (key : string) (n j i : nat)
    (it : item) :
  find_item_index l key n = Some (i, it) ->
  find_item_index (alter set_incomplete j l) key n =
  Some (i, if decide (i = n + j) then set_incomplete it else it).
Proof.
  revert n j. induction l as [|c l IH]; intros n j Hfind; [done|].
  destruct j as [|j]; simpl in *.
  - rewrite matches_set_incomplete.
    destruct (matches key c) eqn:Hc.
    + simplify_eq. by rewrite decide_True by lia.
    + rewrite Hfind. f_equal. f_equal.
      apply find_item_index_Some in Hfind as (pre & post & _ & -> & _).
      by rewrite decide_False by lia.
  - destruct (matches key c) eqn:Hc.
    + simplify_eq. by rewrite decide_False by lia.
    + etrans; [exact (IH (S n) j Hfind)|]. f_equal. f_equal.
      destruct (decide (i = S n + j)), (decide (i = n + S j)); (done || lia).
Qed.

Lemma find_item_index_lookup (l : list item) (key : string) (i : nat)
    (it : item) :
  find_item_index l key 0 = Some (i, it) ->
  l !! i = Some it /\ matches key it = true.
Proof.
  intros (pre & post & -> & -> & Hm & _)%find_item_index_Some. split; [|done].
  by rewrite lookup_app_r, Nat.sub_diag by done.
Qed.

(** While the first match of [key] in the pool of [mark_incomplete] is an
    incomplete item, the rest of the batch makes no mutating call for [key],
    leaves that item where it is, and sends every name with that key to
    [already_incomplete]; what a bucket already holds stays in it. *)
Lemma already_incomplete_once_unmarked (key : string) (i : nat) (it0 : item)
    (rest : list string) (st : list item * buckets) (w : W) :
  find_item_index (fst st) key 0 = Some (i, it0) ->
  get_completed it0 = false ->
  dom (snd st) = dom mark_incomplete_results0 ->
  let r := for_each mark_incomplete_body rest st w in
  no_mutation_for key (calls r)
  /\ find_item_index (fst (result r)) key 0 = Some (i, it0)
  /\ (forall k x, x ∈ bucket k (snd st) -> x ∈ bucket k (snd (result r)))
  /\ (forall b, b ∈ rest -> lower (strip b) = key -> strip b <> "" ->
        strip b ∈ bucket "already_incomplete" (snd (result r))).
Proof.
  intros Hfind Hc Hdom r. subst r.
  set (I := fun (s : list item * buckets) (cs : list call) =>
              find_item_index (fst s) key 0 = Some (i, it0)
              /\ dom (snd s) = dom mark_incomplete_results0
              /\ no_mutation_for key cs
              /\ forall k x, x ∈ bucket k (snd st) -> x ∈ bucket k (snd s)).
  assert (I st []) as HI0 by (split_and!; [done|done|constructor|done]).
  assert (forall x s w' cs, I s cs ->
            I (result (mark_incomplete_body x s w'))
              (cs ++ calls (mark_incomplete_body x s w'))) as Hstep.
  { intros x [pool results] w' cs (Hf & Hd & Hcs & Hold).
    simpl in Hf, Hd, Hold. unfold I.
    assert (forall i' it', find_item_index pool (lower (strip x)) 0
                           = Some (i', it') ->
              get_completed it' = true ->
              i' <> i /\ matches key it' = false) as Hother.
    { intros i' it' Hf' Hc'.
      assert (lower (strip x) <> key) as Hk.
      { intros Hk. rewrite Hk in Hf'. congruence. }
      pose proof (find_item_index_lookup _ _ _ _ Hf') as [Hl' Hm'].
      pose proof (find_item_index_lookup _ _ _ _ Hf) as [Hl Hm].
      split; [|by eapply matches_other_key].
      intros ->. simplify_eq. apply matches_spec in Hm, Hm'. congruence. }
    destruct (mark_incomplete_body_cases x pool results w')
      as [(? & ->)|[(? & ? & ->)|[(i' & it' & ? & ? & ? & ->)|
          [(i' & it' & w'' & ? & Hf' & Hc' & ? & ->)
          |(i' & it' & w'' & ? & Hf' & Hc' & ? & ->)]]]];
      simpl; rewrite ?app_nil_r, ?dom_bucket_append;
      (split_and!; [..|intros k0 x0 Hx; apply Hold in Hx;
                       try apply bucket_append_elem_of]); try done.
    - destruct (Hother i' it' Hf' Hc') as [Hne' Hm'].
      rewrite (find_item_index_alter _ _ _ i' _ _ Hf).
      by rewrite decide_False by (simpl; congruence).
    - destruct (Hother i' it' Hf' Hc') as [Hne' Hm'].
      by apply no_mutation_for_snoc.
    - destruct (Hother i' it' Hf' Hc') as [Hne' Hm'].
      by apply no_mutation_for_snoc. }
  pose proof (for_each_inv mark_incomplete_body I rest
                (fun x s w' cs _ => Hstep x s w' cs) st w [] HI0)
    as (Hp & _ & Hcs & Hold).
  split_and!; [done|done|done|].
  intros b Hb Hkey Hne.
  apply (for_each_reach mark_incomplete_body I
           (fun s => strip b ∈ bucket "already_incomplete" (snd s))
           b rest Hb Hstep) with (cs := []); [| |done].
  - intros [pool results] w' cs (Hf & Hd & _ & _). simpl in Hf, Hd.
    destruct (mark_incomplete_body_cases b pool results w')
      as [(? & ->)|[(? & ? & ->)|[(i' & it' & ? & ? & ? & ->)|
          [(i' & it' & w'' & ? & Hf' & Hc' & ? & ->)
          |(i' & it' & w'' & ? & Hf' & Hc' & ? & ->)]]]];
      rewrite ?Hkey in *; simpl; [done|congruence| |congruence..].
    apply bucket_append_elem_of_new. rewrite Hd. known_buckets.
  - intros x s w' cs _ HQ.
    destruct (mark_incomplete_body_classifies x s w')
      as [[_ ->]|(_ & k & _ & ->)]; [done|].
    by apply bucket_append_elem_of.
Qed.

(** C3, as the code has it.  Take a batch in which the name [a], not empty
    after stripping, comes after [prefix] and before [rest].
    - [delete_item], [mark_complete]: if the pass for [a] finds an item that
      is the only one of the pool matching [a] and the mutation succeeds,
      the item is removed from the pool; the rest of the batch makes no
      mutating call on an item matching [a], and every later name with the
      same normalized value lands in [not_found].
    - [mark_incomplete]: if the pass for [a] finds a completed item and the
      call succeeds, the item stays in the pool, at its place, with its
      local flag cleared; the rest of the batch makes no mutating call on
      an item matching [a], and every later name with the same normalized
      value lands in [already_incomplete]. *)
Theorem same_name_twice_in_one_batch (prefix rest : list string) (a : string)
    (w : W) :
  let key := lower (strip a) in
  strip a <> "" ->
  (forall it w',
     let r1 := delete_item_results prefix w in
     let r := delete_item_results (prefix ++ a :: rest) w in
     find_item (fst (result r1)) key = Some it -> has_id it = true ->
     find_item (list_remove it (fst (result r1))) key = None ->
     delete_shopping_list_item it (remote r1) = (true, w') ->
     exists cs,
       calls r = calls r1 ++ DeleteOne it true :: cs
       /\ no_mutation_for key cs
       /\ Forall (fun c => matches key c = false) (fst (result r))
       /\ strip a ∈ bucket "deleted" (snd (result r))
       /\ forall b, b ∈ rest -> lower (strip b) = key -> strip b <> "" ->
            strip b ∈ bucket "not_found" (snd (result r)))
  /\ (forall it w',
        let r1 := mark_complete_results prefix w in
        let r := mark_complete_results (prefix ++ a :: rest) w in
        find_item (fst (result r1)) key = Some it ->
        find_item (list_remove it (fst (result r1))) key = None ->
        mark_item_as_completed it (remote r1) = (true, w') ->
        exists cs,
          calls r = calls r1 ++ MarkCompleted it true :: cs
          /\ no_mutation_for key cs
          /\ Forall (fun c => matches key c = false) (fst (result r))
          /\ strip a ∈ bucket "marked" (snd (result r))
          /\ forall b, b ∈ rest -> lower (strip b) = key -> strip b <> "" ->
               strip b ∈ bucket "not_found" (snd (result r)))
  /\ (forall i it w' s1,
        let r1 := mark_incomplete_results prefix w in
        let r := mark_incomplete_results (prefix ++ a :: rest) w in
        result r1 = Some s1 ->
        find_item_index (fst s1) key 0 = Some (i, it) ->
        get_completed it = true ->
        unmark_item_as_completed it (remote r1) = (true, w') ->
        exists cs sf,
          calls r = calls r1 ++ UnmarkCompleted it true :: cs
          /\ result r = Some sf
          /\ no_mutation_for key cs
          /\ find_item_index (fst sf) key 0 = Some (i, set_incomplete it)
          /\ strip a ∈ bucket "unmarked" (snd sf)
          /\ forall b, b ∈ rest -> lower (strip b) = key -> strip b <> "" ->
               strip b ∈ bucket "already_incomplete" (snd sf)).
Proof.
  intros key Ha. subst key. split; [|split].
  - intros it w' r1 r Hfind Hid Honly Hdel. subst r.
    pose proof (delete_item_results_app prefix (a :: rest) w) as Happ.
    cbv zeta in Happ. rewrite Happ. clear Happ. fold r1.
    pose proof (delete_item_results_dom prefix w) as Hdom. fold r1 in Hdom.
    destruct (result r1) as [pool1 results1] eqn:Hr1. simpl in Hfind, Honly, Hdom.
    rewrite for_each_cons.
    destruct (delete_body_cases a pool1 results1 (remote r1))
      as [(? & _)|[(_ & ? & _)|[(it' & _ & ? & ? & _)|
          [(it' & w'' & _ & Hf' & _ & Hd' & Hrun)
          |(it' & w'' & _ & Hf' & _ & Hd' & _)]]]];
      [done|congruence|congruence| |congruence].
    assert (it' = it) as -> by congruence.
    assert (w'' = w') as -> by congruence.
    rewrite Hrun. simpl.
    edestruct (not_found_once_removed delete_body _ (lower (strip a)) rest
                 (list_remove it pool1,
                  bucket_append "deleted" (strip a) results1) w'
                 delete_body_searching) as (Hcs & Hpool & Hold & Hnf).
    { set_solver. }
    { by apply find_item_None. }
    { simpl. rewrite dom_bucket_append, Hdom. known_buckets. }
    eexists. split_and!; [done|exact Hcs|exact Hpool| |exact Hnf].
    apply Hold. simpl. apply bucket_append_elem_of_new. rewrite Hdom.
    known_buckets.
  - intros it w' r1 r Hfind Honly Hmark. subst r.
    pose proof (mark_complete_results_app prefix (a :: rest) w) as Happ.
    cbv zeta in Happ. rewrite Happ. clear Happ. fold r1.
    pose proof (mark_complete_results_dom prefix w) as Hdom. fold r1 in Hdom.
    pose proof (mark_complete_results_pool prefix w it) as Hinc.
    fold r1 in Hinc.
    destruct (result r1) as [pool1 results1] eqn:Hr1.
    simpl in Hfind, Honly, Hdom, Hinc.
    specialize (Hinc (proj1 (find_item_elem_of _ _ _ Hfind))).
    rewrite for_each_cons.
    destruct (mark_complete_body_cases a pool1 results1 (remote r1))
      as [(? & _)|[(_ & ? & _)|[(it' & _ & ? & ? & _)|
          [(it' & w'' & _ & Hf' & _ & Hd' & Hrun)
          |(it' & w'' & _ & Hf' & _ & Hd' & _)]]]];
      [done|congruence|congruence| |congruence].
    assert (it' = it) as -> by congruence.
    assert (w'' = w') as -> by congruence.
    rewrite Hrun. simpl.
    edestruct (not_found_once_removed mark_complete_body _ (lower (strip a))
                 rest
                 (list_remove it pool1,
                  bucket_append "marked" (strip a) results1) w'
                 mark_complete_body_searching) as (Hcs & Hpool & Hold & Hnf).
    { set_solver. }
    { by apply find_item_None. }
    { simpl. rewrite dom_bucket_append, Hdom. known_buckets. }
    eexists. split_and!; [done|exact Hcs|exact Hpool| |exact Hnf].
    apply Hold. simpl. apply bucket_append_elem_of_new. rewrite Hdom.
    known_buckets.
  - intros i it w' [pool1 results1] r1 r Hres Hfind Hc Hun. subst r.
    pose proof (mark_incomplete_results_app prefix (a :: rest) w _ Hres)
      as Happ.
    rewrite Happ. clear Happ. fold r1.
    pose proof (mark_incomplete_results_dom prefix w _ Hres) as Hdom.
    simpl in Hfind, Hdom.
    rewrite for_each_cons.
    destruct (mark_incomplete_body_cases a pool1 results1 (remote r1))
      as [(? & _)|[(_ & ? & _)|[(i' & it' & _ & ? & ? & _)|
          [(i' & it' & w'' & _ & Hf' & _ & Hd' & Hrun)
          |(i' & it' & w'' & _ & Hf' & _ & Hd' & _)]]]];
      [done|congruence|congruence| |congruence].
    assert (i' = i) as -> by congruence.
    assert (it' = it) as -> by congruence.
    assert (w'' = w') as -> by congruence.
    rewrite Hrun. simpl.
    edestruct (already_incomplete_once_unmarked (lower (strip a)) i
                 (set_incomplete it) rest
                 (alter set_incomplete i pool1,
                  bucket_append "unmarked" (strip a) results1) w')
      as (Hcs & Hpool & Hold & Hai).
    { simpl. rewrite (find_item_index_alter _ _ _ i _ _ Hfind).
      by rewrite decide_True. }
    { done. }
    { simpl. by rewrite dom_bucket_append. }
    eexists _, _. split_and!; [done|done|exact Hcs|exact Hpool| |exact Hai].
    apply Hold. simpl. apply bucket_append_elem_of_new. rewrite Hdom.
    known_buckets.
Qed.

End Twice.

(** ** [clear_completed_items]: the loop (C4, C10) *)

Lemma fetch_count_app (cs cs' : list call) :
  fetch_count (cs ++ cs') = fetch_count cs + fetch_count cs'.
Proof. unfold fetch_count. by rewrite List.filter_app, length_app. Qed.

Lemma delete_count_app (cs cs' : list call) :
  delete_count (cs ++ cs') = delete_count cs + delete_count cs'.
Proof. unfold delete_count. by rewrite List.filter_app, length_app. Qed.

Lemma deleted_count_app (cs cs' : list call) :
  deleted_count (cs ++ cs') = deleted_count cs + deleted_count cs'.
Proof. unfold deleted_count. by rewrite List.filter_app, length_app. Qed.

Lemma completed_observed_app (cs cs' : list call) :
  completed_observed (cs ++ cs') =
  completed_observed cs + completed_observed cs'.
Proof.
  induction cs as [|c cs IH]; [done|].
  destruct c as [[l|]| | | |]; simpl; rewrite IH; lia.
Qed.

Lemma deleted_count_le_delete_count (cs : list call) :
  deleted_count cs <= delete_count cs.
Proof.
  induction cs as [|c cs IH]; [done|].
  unfold deleted_count, delete_count in *.
  destruct c as [| |it [] | |]; simpl; lia.
Qed.

Section Clearing.
Context {W : Type} `{RemoteList W}.

(** The ways one pass of the inner loop of [clear_completed_items] can go. *)
Lemma clear_body_cases (it : item) (st : clearing) (w : W) :
  let item_value := get_value it "<Unknown Item>" in
  let entry := item_value +:+ " (Missing ID)" in
  let r := clear_body it st w in
  (has_id it = false
   /\ r = Run (Clearing (total_deleted_count st)
                 (if contains entry (total_failed_items st)
                  then total_failed_items st
                  else total_failed_items st ++ [entry])
                 (batch_failed st)) w [])
  \/ (exists w', has_id it = true
        /\ delete_shopping_list_item it w = (true, w')
        /\ r = Run (Clearing (S (total_deleted_count st))
                      (total_failed_items st) (batch_failed st))
                 w' [DeleteOne it true])
  \/ (exists w', has_id it = true
        /\ delete_shopping_list_item it w = (false, w')
        /\ r = Run (Clearing (total_deleted_count st) (total_failed_items st)
                      (if contains item_value (batch_failed st)
                          || contains item_value (total_failed_items st)
                       then batch_failed st
                       else batch_failed st ++ [item_value]))
                 w' [DeleteOne it false]).
Proof.
  intros item_value entry r. subst r. unfold clear_body.
  fold item_value. fold entry.
  destruct (has_id it) eqn:Hid; simpl.
  - right. unfold bind, delete_one.
    destruct (delete_shopping_list_item it w) as [[] w'] eqn:Hdel; simpl.
    + left. by exists w'.
    + right. exists w'. split_and!; [done|done|].
      destruct (contains item_value (batch_failed st)),
        (contains item_value (total_failed_items st)); simpl; try done;
        by destruct st.
  - left. split; [done|].
    by destruct (contains entry (total_failed_items st)).
Qed.

(** The inner loop makes at most one delete-one call per item of the batch
    and nothing else, and counts the calls that succeeded. *)
Lemma clear_batch_counts (batch : list item) (st : clearing) (w : W) :
  let r := for_each clear_body batch st w in
  total_deleted_count (result r)
  = total_deleted_count st + deleted_count (calls r)
  /\ delete_count (calls r) <= length batch
  /\ fetch_count (calls r) = 0
  /\ completed_observed (calls r) = 0
  /\ Fetch None ∉ calls r.
Proof.
  revert st w. induction batch as [|it batch IH]; intros st w.
  - simpl. unfold deleted_count. simpl.
    split_and!; [lia|done|done|done|by intros ?%elem_of_nil].
  - rewrite for_each_cons.
    destruct (clear_body_cases it st w)
      as [(_ & ->)|[(w' & _ & _ & ->)|(w' & _ & _ & ->)]]; simpl;
      match goal with
      | |- context [for_each clear_body batch ?s ?w0] =>
          destruct (IH s w0) as (Hd & Hn & Hf & Ho & Hnone);
          set (cs := calls (for_each clear_body batch s w0)) in *
      end;
      rewrite Hd; simpl;
      (split_and!;
       [unfold deleted_count in *; simpl; lia
       |unfold delete_count in *; simpl; lia
       |done|done|]).
    + done.
    + by intros [?|?]%elem_of_cons.
    + by intros [?|?]%elem_of_cons.
Qed.

(** One turn of the [while] loop, by what the fetch returns. *)
Lemma clear_loop_step (remaining iteration deleted : nat)
    (failures : list string) (w : W) :
  clear_loop (S remaining) iteration deleted failures w =
  match get_shopping_list_items w with
  | (None, w1) => Run (FetchFailed deleted failures) w1 [Fetch None]
  | (Some all_items, w1) =>
      match List.filter get_completed all_items with
      | [] =>
          Run (Finished (S iteration) deleted failures) w1
            [Fetch (Some all_items)]
      | batch =>
          let rb := for_each clear_body batch (Clearing deleted failures []) w1 in
          let rl := clear_loop remaining (S iteration)
                      (total_deleted_count (result rb))
                      (total_failed_items (result rb)
                       ++ batch_failed (result rb))
                      (remote rb) in
          Run (result rl) (remote rl)
            (Fetch (Some all_items) :: calls rb ++ calls rl)
      end
  end.
Proof.
  simpl. unfold bind, fetch_items.
  destruct (get_shopping_list_items w) as [[all|] w1]; simpl; [|done].
  by destruct (List.filter get_completed all).
Qed.

(** What the loop reports against the calls it made. *)
Lemma clear_loop_spec (remaining iteration deleted : nat)
    (failures : list string) (w : W) :
  let r := clear_loop remaining iteration deleted failures w in
  fetch_count (calls r) <= remaining
  /\ delete_count (calls r) <= completed_observed (calls r)
  /\ match result r with
     | FetchFailed d _ =>
         d = deleted + deleted_count (calls r)
         /\ exists pre, calls r = pre ++ [Fetch None] /\ Fetch None ∉ pre
     | Finished it d _ =>
         d = deleted + deleted_count (calls r)
         /\ it = iteration + fetch_count (calls r)
         /\ Fetch None ∉ calls r
     end.
Proof.
  revert iteration deleted failures w.
  induction remaining as [|remaining IH]; intros iteration deleted failures w.
  - simpl. unfold deleted_count, fetch_count. simpl.
    split_and!; [done|done|lia|lia|by intros ?%elem_of_nil].
  - intros r. subst r. rewrite clear_loop_step.
    destruct (get_shopping_list_items w) as [[all|] w1].
    2: { simpl. unfold deleted_count, fetch_count, delete_count. simpl.
         split_and!; [lia|lia|lia|]. exists []. split; [done|].
         by intros ?%elem_of_nil. }
    destruct (List.filter get_completed all) as [|c batch] eqn:Hbatch.
    { simpl. unfold deleted_count, fetch_count, delete_count. simpl.
      split_and!; [lia|lia|lia|lia|]. by intros [?|?%elem_of_nil]%elem_of_cons. }
    cbv zeta.
    set (rb := for_each clear_body (c :: batch) (Clearing deleted failures [])
                 w1).
    destruct (clear_batch_counts (c :: batch) (Clearing deleted failures [])
                w1) as (Hd & Hn & Hf & Ho & Hnone).
    fold rb in Hd, Hn, Hf, Ho, Hnone. cbn [total_deleted_count] in Hd.
    set (rl := clear_loop remaining (S iteration)
                 (total_deleted_count (result rb))
                 (total_failed_items (result rb) ++ batch_failed (result rb))
                 (remote rb)).
    destruct (IH (S iteration) (total_deleted_count (result rb))
                (total_failed_items (result rb) ++ batch_failed (result rb))
                (remote rb)) as (Hfl & Hdl & Hres).
    fold rl in Hfl, Hdl, Hres.
    cbn [result calls].
    change (Fetch (Some all) :: calls rb ++ calls rl)
      with ([Fetch (Some all)] ++ calls rb ++ calls rl).
    rewrite !fetch_count_app, !delete_count_app, !completed_observed_app,
      !deleted_count_app, Hf, Ho.
    change (fetch_count [Fetch (Some all)]) with 1.
    change (delete_count [Fetch (Some all)]) with 0.
    change (deleted_count [Fetch (Some all)]) with 0.
    change (completed_observed [Fetch (Some all)])
      with (length (List.filter get_completed all) + 0).
    rewrite Hbatch.
    split_and!; [lia|lia|].
    destruct (result rl) as [d f|it d f].
    + destruct Hres as (-> & pre & Hpre & Hnpre). split; [lia|].
      exists ([Fetch (Some all)] ++ calls rb ++ pre).
      split; [by rewrite Hpre, <- !app_assoc|].
      rewrite !elem_of_app, list_elem_of_singleton. intros [?|[?|?]]; done.
    + destruct Hres as (-> & -> & Hnl). split_and!; [lia|lia|].
      rewrite !elem_of_app, list_elem_of_singleton. intros [?|[?|?]]; done.
Qed.

(** C4. Whatever the fetches and the deletes return, [clear_completed_items]
    ends after at most [max_iterations] = 10 turns of its loop, each turn
    fetching one snapshot: the iteration count it reports is the number of
    fetches made and is at most 10.  The deleted count it reports is the
    number of delete-one calls that succeeded, and it never exceeds the
    number of completed items seen over all the snapshots fetched. *)
Theorem clear_completed_items_bounded (w : W) :
  let r := clear_completed_outcome w in
  clear_completed_items w = Run (clear_summary (result r)) (remote r) (calls r)
  /\ max_iterations = 10
  /\ fetch_count (calls r) <= max_iterations
  /\ delete_count (calls r) <= completed_observed (calls r)
  /\ match result r with
     | FetchFailed d _ =>
         d = deleted_count (calls r) /\ d <= completed_observed (calls r)
     | Finished it d _ =>
         it = fetch_count (calls r) /\ it <= max_iterations
         /\ d = deleted_count (calls r) /\ d <= completed_observed (calls r)
     end.
Proof.
  intros r.
  destruct (clear_loop_spec max_iterations 0 0 [] w) as (Hf & Hd & Hres).
  fold clear_completed_outcome in Hf, Hd, Hres. fold r in Hf, Hd, Hres.
  pose proof (deleted_count_le_delete_count (calls r)) as Hle.
  split.
  { unfold clear_completed_items, bind, ret. cbn [result remote calls].
    fold r. by rewrite app_nil_r. }
  clearbody r. split_and!; [done|done|done|].
  destruct (result r) as [d f|it d f].
  - destruct Hres as (-> & _). lia.
  - destruct Hres as (-> & -> & _). lia.
Qed.

Lemma contains_elem_of (x : string) (l : list string) :
  contains x l = true <-> x ∈ l.
Proof.
  unfold contains. rewrite existsb_exists. split.
  - intros (y & Hy & ->%String.eqb_eq). by apply list_elem_of_In.
  - intros Hx. exists x. split; [by apply list_elem_of_In|].
    apply String.eqb_refl.
Qed.

End Clearing.

(** ** A failed fetch (C1) *)

Lemma bucket_foldl_not_found (names : list string) (r : buckets) (k : string) :
  "not_found" ∈ dom r ->
  bucket k (foldl (fun r n => bucket_append "not_found" n r) r names) =
  bucket k r ++ (if decide (k = "not_found") then names else []).
Proof.
  revert r. induction names as [|n names IH]; intros r Hdom; simpl.
  - case_decide; by rewrite app_nil_r.
  - rewrite IH by (by rewrite dom_bucket_append).
    case_decide as Hk.
    + subst k. rewrite bucket_append_same by (by apply elem_of_dom).
      by rewrite <- app_assoc.
    + by rewrite bucket_append_other, app_nil_r.
Qed.

Section FetchFailure.
Context {W : Type} `{RemoteList W}.

(** With nothing to search, the loops of [delete_item] and [mark_complete]
    make no call and send every processed name to [not_found]. *)
Lemma delete_loop_empty_pool (values : list string) (results : buckets)
    (w : W) :
  for_each delete_body values ([], results) w =
  Run ([], foldl (fun r n => bucket_append "not_found" n r) results
             (stripped_names values)) w [].
Proof.
  revert results. induction values as [|v values IH]; intros results; [done|].
  rewrite for_each_cons, stripped_names_cons.
  assert (delete_body v ([], results) w =
          Run ([], if truthy (strip v)
                   then bucket_append "not_found" (strip v) results
                   else results) w []) as ->.
  { unfold delete_body. by destruct (truthy (strip v)). }
  simpl. rewrite IH. by destruct (truthy (strip v)).
Qed.

Lemma mark_complete_loop_empty_pool (values : list string) (results : buckets)
    (w : W) :
  for_each mark_complete_body values ([], results) w =
  Run ([], foldl (fun r n => bucket_append "not_found" n r) results
             (stripped_names values)) w [].
Proof.
  revert results. induction values as [|v values IH]; intros results; [done|].
  rewrite for_each_cons, stripped_names_cons.
  assert (mark_complete_body v ([], results) w =
          Run ([], if truthy (strip v)
                   then bucket_append "not_found" (strip v) results
                   else results) w []) as ->.
  { unfold mark_complete_body. by destruct (truthy (strip v)). }
  simpl. rewrite IH. by destruct (truthy (strip v)).
Qed.

Lemma delete_summary_not_found (names : list string) :
  names <> [] ->
  delete_summary
    (foldl (fun r n => bucket_append "not_found" n r) delete_results0 names)
  = "Not found (incomplete): " +:+ join ", " names +:+ ".".
Proof.
  intros Hne. unfold delete_summary, summary_line.
  rewrite !bucket_foldl_not_found, !delete_results0_empty by known_buckets.
  repeat (case_decide; [try done|try done]). simpl.
  by destruct names.
Qed.

Lemma mark_complete_summary_not_found (names : list string) :
  names <> [] ->
  mark_complete_summary
    (foldl (fun r n => bucket_append "not_found" n r) mark_complete_results0
       names)
  = "Not found (incomplete): " +:+ join ", " names +:+ ".".
Proof.
  intros Hne. unfold mark_complete_summary, summary_line.
  rewrite !bucket_foldl_not_found, !mark_complete_results0_empty
    by known_buckets.
  repeat (case_decide; [try done|try done]). simpl.
  by destruct names.
Qed.

(** C1, as the code has it.  Suppose the batch has a valid name and the
    fetch returns null.
    - [mark_incomplete] returns its error string and stops: the fetch is its
      only call and nothing is bucketed.
    - [clear_completed_items] stops at the failed fetch in whatever turn of
      its loop it happens, with the deleted count and the failures gathered
      so far; when the first fetch fails it returns the bare error string.
      In any run, a failed fetch is the last call, and the count reported is
      the number of deletes that had succeeded before it; the error string
      carries the progress when there is any.
    - [delete_item] and [mark_complete] treat the failed fetch as an empty
      snapshot: the fetch is their only call, no mutation is made, and every
      non-empty stripped name is bucketed into [not_found] and reported as
      "Not found (incomplete): ...". *)
Theorem fetch_failure_handling (a : item_values) (w w' : W) :
  no_valid_values (values_to_process a) = false ->
  get_shopping_list_items w = (None, w') ->
  mark_incomplete_results (values_to_process a) w = Run None w' [Fetch None]
  /\ mark_incomplete a w =
     Run "Error: Could not retrieve shopping list items to process request."
       w' [Fetch None]
  /\ (forall remaining iteration deleted failures,
        clear_loop (S remaining) iteration deleted failures w =
        Run (FetchFailed deleted failures) w' [Fetch None])
  /\ clear_completed_items w =
     Run "Error: Could not retrieve shopping list items during clearing process."
       w' [Fetch None]
  /\ (forall w0 : W,
        let r := clear_completed_outcome w0 in
        Fetch None ∈ calls r ->
        exists pre failures,
          calls r = pre ++ [Fetch None] /\ (Fetch None ∉ pre)
          /\ result r = FetchFailed (deleted_count pre) failures
          /\ result (clear_completed_items w0) =
             "Error: Could not retrieve shopping list items during clearing process."
             +:+ (if (0 <? deleted_count pre)%nat
                     || match failures with [] => false | _ => true end
                  then " So far: Deleted " +:+ pretty (deleted_count pre)
                       +:+ ", Failures: " +:+ pretty (length failures) +:+ "."
                  else ""))
  /\ delete_item_results (values_to_process a) w =
     Run ([], foldl (fun r n => bucket_append "not_found" n r) delete_results0
                (stripped_names (values_to_process a))) w' [Fetch None]
  /\ delete_item a w =
     Run ("Not found (incomplete): "
          +:+ join ", " (stripped_names (values_to_process a)) +:+ ".")
       w' [Fetch None]
  /\ mark_complete_results (values_to_process a) w =
     Run ([], foldl (fun r n => bucket_append "not_found" n r)
                mark_complete_results0
                (stripped_names (values_to_process a))) w' [Fetch None]
  /\ mark_complete a w =
     Run ("Not found (incomplete): "
          +:+ join ", " (stripped_names (values_to_process a)) +:+ ".")
       w' [Fetch None].
Proof.
  intros Hvalid Hfetch.
  pose proof (no_valid_values_some _ Hvalid) as Hnames.
  assert (mark_incomplete_results (values_to_process a) w
          = Run None w' [Fetch None]) as Hmi.
  { unfold mark_incomplete_results, bind, fetch_items. by rewrite Hfetch. }
  assert (delete_item_results (values_to_process a) w =
          Run ([], foldl (fun r n => bucket_append "not_found" n r)
                     delete_results0 (stripped_names (values_to_process a)))
            w' [Fetch None]) as Hdel.
  { unfold delete_item_results, bind, fetch_items. rewrite Hfetch. simpl.
    by rewrite delete_loop_empty_pool. }
  assert (mark_complete_results (values_to_process a) w =
          Run ([], foldl (fun r n => bucket_append "not_found" n r)
                     mark_complete_results0
                     (stripped_names (values_to_process a)))
            w' [Fetch None]) as Hmc.
  { unfold mark_complete_results, bind, fetch_items. rewrite Hfetch. simpl.
    by rewrite mark_complete_loop_empty_pool. }
  split_and!; try done.
  - unfold mark_incomplete. rewrite Hvalid. unfold bind. by rewrite Hmi.
  - intros remaining iteration deleted failures.
    by rewrite clear_loop_step, Hfetch.
  - unfold clear_completed_items, clear_completed_outcome, bind.
    unfold max_iterations. by rewrite clear_loop_step, Hfetch.
  - intros w0 r Hin.
    destruct (clear_loop_spec max_iterations 0 0 [] w0) as (_ & _ & Hres).
    fold clear_completed_outcome in Hres. fold r in Hres.
    assert (result (clear_completed_items w0) = clear_summary (result r))
      as Hsum by done.
    clearbody r.
    destruct (result r) as [d f|it d f];
      [|by destruct Hres as (_ & _ & ?)].
    destruct Hres as (-> & pre & Hpre & Hnpre).
    exists pre, f. rewrite Hpre, deleted_count_app in *.
    change (deleted_count [Fetch None]) with 0 in *.
    rewrite Nat.add_0_r in *. by rewrite Hsum.
  - unfold delete_item. rewrite Hvalid. unfold bind. rewrite Hdel. simpl.
    by rewrite delete_summary_not_found.
  - unfold mark_complete. rewrite Hvalid. unfold bind. rewrite Hmc. simpl.
    by rewrite mark_complete_summary_not_found.
Qed.

End FetchFailure.

(** ** The properties on the sample lists *)

(** C1 fails as stated: with the service unreachable, [delete_item] and
    [mark_complete] surface no error string and bucket the name. *)
Lemma fetch_failure_delete_item_buckets_name :
  get_shopping_list_items pantry_offline = (None, pantry_offline)
  /\ delete_item (OneValue "milk") pantry_offline =
     Run "Not found (incomplete): milk." pantry_offline [Fetch None]
  /\ mark_complete (OneValue "milk") pantry_offline =
     Run "Not found (incomplete): milk." pantry_offline [Fetch None]
  /\ ~ (forall k, bucket k (snd (result (delete_item_results ["milk"]
                                           pantry_offline))) = []).
Proof.
  split_and!; [reflexivity..|].
  intros Hall. specialize (Hall "not_found"). vm_compute in Hall.
  discriminate.
Qed.

Lemma fetch_failure_handling_witness :
  no_valid_values (values_to_process (ManyValues ["milk"; " Eggs "])) = false
  /\ get_shopping_list_items pantry_offline = (None, pantry_offline)
  /\ mark_incomplete (ManyValues ["milk"; " Eggs "]) pantry_offline =
     Run "Error: Could not retrieve shopping list items to process request."
       pantry_offline [Fetch None]
  /\ clear_completed_items pantry_offline =
     Run "Error: Could not retrieve shopping list items during clearing process."
       pantry_offline [Fetch None]
  /\ delete_item (ManyValues ["milk"; " Eggs "]) pantry_offline =
     Run "Not found (incomplete): milk, Eggs." pantry_offline [Fetch None].
Proof.
  assert (no_valid_values (values_to_process (ManyValues ["milk"; " Eggs "]))
          = false) as Hvalid by reflexivity.
  assert (get_shopping_list_items pantry_offline = (None, pantry_offline))
    as Hfetch by reflexivity.
  destruct (fetch_failure_handling (ManyValues ["milk"; " Eggs "])
              pantry_offline pantry_offline Hvalid Hfetch)
    as (_ & Hmi & _ & Hclear & _ & _ & Hdel & _).
  split_and!; [exact Hvalid|exact Hfetch|exact Hmi|exact Hclear|exact Hdel].
Defined.

(** C2 fails as stated: "Eggs" is already completed, and [mark_complete]
    reports it as not found; [already_complete] stays empty. *)
Lemma mark_complete_completed_item_lands_in_not_found :
  get_completed eggs_done = true
  /\ matches (lower (strip "Eggs")) eggs_done = true
  /\ mark_complete (OneValue "Eggs") pantry =
     Run "Not found (incomplete): Eggs." pantry [Fetch (Some [milk; eggs_done])]
  /\ ~ ("Eggs" ∈ bucket "already_complete"
                   (snd (result (mark_complete_results ["Eggs"] pantry)))).
Proof.
  split_and!; [reflexivity..|].
  vm_compute. by intros ?%elem_of_nil.
Qed.

Lemma mark_complete_completed_item_not_found_witness :
  "Eggs" ∈ ["Eggs"] /\ strip "Eggs" <> ""
  /\ strip "Eggs" ∈ bucket "not_found"
                      (snd (result (mark_complete_results ["Eggs"] eggs_only)))
  /\ no_mutation_for (lower (strip "Eggs"))
       (calls (mark_complete_results ["Eggs"] eggs_only)).
Proof.
  assert ("Eggs" ∈ ["Eggs"]) as Hin by (by left).
  assert (strip "Eggs" <> "") as Hne by (vm_compute; discriminate).
  destruct (mark_complete_completed_item_not_found ["Eggs"] eggs_only "Eggs"
              Hin Hne) as (Hnf & _ & Hcalls).
  { intros l it Hl Hit _. vm_compute in Hl. injection Hl as <-.
    apply list_elem_of_singleton in Hit as ->. reflexivity. }
  split_and!; [exact Hin|exact Hne|exact Hnf|exact Hcalls].
Defined.

(** C3 fails as stated for [mark_incomplete]: after "Eggs" is unmarked the
    item is still in the pool, and the second occurrence lands in
    [already_incomplete], not in [not_found]. *)
Lemma mark_incomplete_second_occurrence_already_incomplete :
  lower (strip "Eggs") = lower (strip "eggs ")
  /\ mark_incomplete (ManyValues ["Eggs"; "eggs "]) pantry =
     Run "Marked incomplete: Eggs. Already incomplete: eggs."
       (Scripted [milk; set_incomplete eggs_done] true true)
       [Fetch (Some [milk; eggs_done]); UnmarkCompleted eggs_done true]
  /\ (exists st,
        result (mark_incomplete_results ["Eggs"; "eggs "] pantry) = Some st
        /\ fst st = [milk; set_incomplete eggs_done]
        /\ ~ ("eggs" ∈ bucket "not_found" (snd st))
        /\ bucket "already_incomplete" (snd st) = ["eggs"]).
Proof.
  split_and!; [reflexivity..|].
  eexists. split; [reflexivity|]. split_and!; [reflexivity| |reflexivity].
  vm_compute. by intros ?%elem_of_nil.
Qed.

Lemma same_name_twice_in_one_batch_witness :
  strip "milk" <> ""
  /\ (exists cs,
        calls (delete_item_results ([] ++ "milk" :: [" Milk "]) pantry) =
        calls (delete_item_results [] pantry) ++ DeleteOne milk true :: cs
        /\ no_mutation_for (lower (strip "milk")) cs
        /\ strip " Milk " ∈
           bucket "not_found"
             (snd (result (delete_item_results ([] ++ "milk" :: [" Milk "])
                             pantry))))
  /\ (exists cs,
        calls (mark_complete_results ([] ++ "milk" :: [" Milk "]) pantry) =
        calls (mark_complete_results [] pantry) ++ MarkCompleted milk true :: cs
        /\ no_mutation_for (lower (strip "milk")) cs
        /\ strip " Milk " ∈
           bucket "not_found"
             (snd (result (mark_complete_results ([] ++ "milk" :: [" Milk "])
                             pantry))))
  /\ (exists cs sf,
        calls (mark_incomplete_results ([] ++ "Eggs" :: ["eggs "]) pantry) =
        calls (mark_incomplete_results [] pantry)
        ++ UnmarkCompleted eggs_done true :: cs
        /\ result (mark_incomplete_results ([] ++ "Eggs" :: ["eggs "]) pantry)
           = Some sf
        /\ no_mutation_for (lower (strip "Eggs")) cs
        /\ strip "eggs " ∈ bucket "already_incomplete" (snd sf)).
Proof.
  assert (strip "milk" <> "") as Hmilk by (vm_compute; discriminate).
  assert (strip "Eggs" <> "") as Heggs by (vm_compute; discriminate).
  destruct (same_name_twice_in_one_batch [] [" Milk "] "milk" pantry Hmilk)
    as (Hdel & Hmark & _).
  destruct (same_name_twice_in_one_batch [] ["eggs "] "Eggs" pantry Heggs)
    as (_ & _ & Hunmark).
  split_and!; [exact Hmilk| | |].
  - destruct (Hdel milk (Scripted [eggs_done] true true))
      as (cs & Hcalls & Hcs & _ & _ & Hnf);
      [reflexivity|reflexivity|reflexivity|reflexivity|].
    exists cs. split_and!; [exact Hcalls|exact Hcs|].
    apply Hnf; [by left|reflexivity|vm_compute; discriminate].
  - destruct (Hmark milk
                (Scripted [Item (Some "id-1") (Some "Milk") (Some true);
                           eggs_done] true true))
      as (cs & Hcalls & Hcs & _ & _ & Hnf);
      [reflexivity|reflexivity|reflexivity|].
    exists cs. split_and!; [exact Hcalls|exact Hcs|].
    apply Hnf; [by left|reflexivity|vm_compute; discriminate].
  - destruct (Hunmark 1 eggs_done
                (Scripted [milk; set_incomplete eggs_done] true true)
                ([milk; eggs_done], mark_incomplete_results0))
      as (cs & sf & Hcalls & Hres & Hcs & _ & _ & Hai);
      [reflexivity|reflexivity|reflexivity|reflexivity|].
    exists cs, sf. split_and!; [exact Hcalls|exact Hres|exact Hcs|].
    apply Hai; [by left|reflexivity|vm_compute; discriminate].
Defined.

(** C5 fails as stated for [mark_complete]: the matched item has no id, and
    the set-completion call is made all the same; there is no [missing_id]
    bucket to put the name in. *)
Lemma mark_complete_calls_remote_without_id :
  has_id milk_no_id = false
  /\ mark_complete (OneValue "milk") no_id_list =
     Run "Marked complete: milk."
       (Scripted [Item None (Some "Milk") (Some true)] true true)
       [Fetch (Some [milk_no_id]); MarkCompleted milk_no_id true]
  /\ ~ ("milk" ∈ bucket "missing_id"
                   (snd (result (mark_complete_results ["milk"] no_id_list)))).
Proof.
  split_and!; [reflexivity..|].
  vm_compute. by intros ?%elem_of_nil.
Qed.

Lemma missing_id_bucket_only_in_delete_item_witness :
  "milk" ∈ ["milk"] /\ strip "milk" <> ""
  /\ has_id milk_no_id = false
  /\ strip "milk" ∈
     bucket "missing_id" (snd (result (delete_item_results ["milk"] no_id_list)))
  /\ no_mutation_for (lower (strip "milk"))
       (calls (delete_item_results ["milk"] no_id_list)).
Proof.
  assert ("milk" ∈ ["milk"]) as Hin by (by left).
  assert (strip "milk" <> "") as Hne by (vm_compute; discriminate).
  assert (has_id milk_no_id = false) as Hid by reflexivity.
  destruct (missing_id_bucket_only_in_delete_item ["milk"] no_id_list "milk"
              milk_no_id Hin Hne) as ((Hmissing & Hcalls) & _);
    [reflexivity|exact Hid|].
  split_and!; [exact Hin|exact Hne|exact Hid|exact Hmissing|exact Hcalls].
Defined.

(** C6 fails as stated: the bucket holds the stripped name with its case,
    "Milk", not its lower-cased form "milk". *)
Lemma bucket_keeps_case_of_name :
  lower (strip " Milk ") = "milk"
  /\ bucket "deleted" (snd (result (delete_item_results [" Milk "] pantry)))
     = ["Milk"]
  /\ ~ (lower (strip " Milk ") ∈
        bucket "deleted" (snd (result (delete_item_results [" Milk "] pantry))))
  /\ delete_item (OneValue " Milk ") pantry =
     Run "Deleted: Milk." (Scripted [eggs_done] true true)
       [Fetch (Some [milk; eggs_done]); DeleteOne milk true].
Proof.
  split_and!; [reflexivity|reflexivity| |reflexivity].
  vm_compute. intros Hin. apply list_elem_of_singleton in Hin. discriminate.
Qed.

(** The example of the specification: ["milk"; " Milk "] against one item
    named "Milk". *)
Example delete_item_milk_twice :
  delete_item (ManyValues ["milk"; " Milk "]) pantry =
  Run "Deleted: milk. Not found (incomplete): Milk."
    (Scripted [eggs_done] true true)
    [Fetch (Some [milk; eggs_done]); DeleteOne milk true].
Proof. reflexivity. Qed.

Lemma add_item_no_valid_values_witness :
  Forall (fun v => strip v = "") (values_to_process (ManyValues [""; "  "]))
  /\ add_item (ManyValues [""; "  "]) pantry =
     Run "Error: No valid item values provided to add." pantry []
  /\ "Bread" ∈ bucket "added" (result (add_item_results [""; " Bread "] pantry))
  /\ "Bread" <> "".
Proof.
  assert (Forall (fun v => strip v = "")
            (values_to_process (ManyValues [""; "  "]))) as Hall.
  { repeat constructor. }
  assert ("Bread" ∈ bucket "added"
                      (result (add_item_results [""; " Bread "] pantry)))
    as Hin.
  { vm_compute. by left. }
  destruct (@add_item_no_valid_values scripted _) as [Herr Hbuckets].
  split_and!; [exact Hall|exact (Herr _ pantry Hall)|exact Hin|].
  exact (proj1 (Hbuckets _ _ _ _ Hin)).
Defined.

Lemma no_valid_values_returns_before_fetch_witness :
  Forall (fun v => strip v = "") (values_to_process (ManyValues [""; "  "]))
  /\ delete_item (ManyValues [""; "  "]) pantry =
     Run "Error: No valid item values provided for deletion." pantry []
  /\ mark_complete (ManyValues [""; "  "]) pantry =
     Run "Error: No valid item values provided to mark complete." pantry []
  /\ mark_incomplete (ManyValues [""; "  "]) pantry =
     Run "Error: No valid item values provided to mark incomplete." pantry [].
Proof.
  assert (Forall (fun v => strip v = "")
            (values_to_process (ManyValues [""; "  "]))) as Hall.
  { repeat constructor. }
  split; [exact Hall|].
  exact (no_valid_values_returns_before_fetch (ManyValues [""; "  "]) pantry
           Hall).
Defined.


(** * Further properties of the tools *)

(** ** The listing tools and the lookup helper *)

Lemma filter_partition_Permutation {A} (f : A -> bool) (l : list A) :
  List.filter (fun x => negb (f x)) l ++ List.filter f l ≡ₚ l.
Proof.
  induction l as [|x l IH]; [done|]. simpl.
  destruct (f x); simpl.
  - rewrite <- Permutation_middle. by constructor.
  - by constructor.
Qed.

(** The first match among the items that pass a filter, read on the whole
    list. *)
Lemma find_item_filter_Some (f : item -> bool) (l : list item) (key : string)
    (it : item) :
  find_item (List.filter f l) key = Some it <->
  exists pre post, l = pre ++ it :: post /\ f it = true
                   /\ matches key it = true
                   /\ Forall (fun c => f c = false \/ matches key c = false) pre.
Proof.
  induction l as [|c l IH]; simpl.
  - split; [done|]. intros (pre & post & Heq & _). by destruct pre.
  - destruct (f c) eqn:Hf; simpl; [destruct (matches key c) eqn:Hm|].
    + split.
      * intros [= <-]. exists [], l. by split_and!.
      * intros (pre & post & Heq & Hfi & Hmi & Hpre).
        destruct pre as [|p pre]; simplify_eq/=; [done|].
        apply Forall_cons in Hpre as [[?|?] _]; congruence.
    + rewrite IH. split.
      * intros (pre & post & -> & ? & ? & Hpre).
        exists (c :: pre), post. split_and!; [done..|]. constructor; auto.
      * intros (pre & post & Heq & Hfi & Hmi & Hpre).
        destruct pre as [|p pre]; simplify_eq/=; [congruence|].
        apply Forall_cons in Hpre as [_ Hpre]. by exists pre, post.
    + rewrite IH. split.
      * intros (pre & post & -> & ? & ? & Hpre).
        exists (c :: pre), post. split_and!; [done..|]. constructor; auto.
      * intros (pre & post & Heq & Hfi & Hmi & Hpre).
        destruct pre as [|p pre]; simplify_eq/=; [congruence|].
        apply Forall_cons in Hpre as [_ Hpre]. by exists pre, post.
Qed.

(** The first incomplete match, read on the whole fetched list. *)
Lemma first_incomplete_match (all : list item) (key : string) (it : item) :
  find_item (filter_incomplete_items all) key = Some it <->
  exists pre post,
    all = pre ++ it :: post
    /\ get_completed it = false
    /\ lower (strip (get_value it "")) = key
    /\ Forall (fun c => get_completed c = true
                        \/ lower (strip (get_value c "")) <> key) pre.
Proof.
  unfold filter_incomplete_items. rewrite find_item_filter_Some. split.
  - intros (pre & post & -> & Hc%negb_true_iff & Hm%matches_spec & Hpre).
    exists pre, post. split_and!; [done..|].
    eapply Forall_impl; [exact Hpre|]. intros c [Hc'%negb_false_iff|Hm'].
    + by left.
    + right. intros Hk%matches_spec. congruence.
  - intros (pre & post & -> & Hc & Hm%matches_spec & Hpre).
    exists pre, post. split_and!; [done|by apply negb_true_iff|done|].
    eapply Forall_impl; [exact Hpre|]. intros c [Hc'|Hm'].
    + left. by apply negb_false_iff.
    + right. apply not_true_is_false. by intros ?%matches_spec.
Qed.

Section ListingFacts.
Context {W : Type} `{RemoteList W}.

(** X1. When the fetch succeeds and the list holds both incomplete and
    completed items, [get_list] and [get_completed_list] together report
    every fetched item exactly once: their results, put together, are the
    values of the fetched items up to order ("<Unknown Item>" standing for a
    missing value), each tool keeping the order of the list. *)
Theorem listing_tools_cover_every_item (w w' : W) (all : list item) :
  get_shopping_list_items w = (Some all, w') ->
  filter_incomplete_items all <> [] ->
  List.filter get_completed all <> [] ->
  result (get_list w) = item_values_of (filter_incomplete_items all)
  /\ result (get_completed_list w)
     = item_values_of (List.filter get_completed all)
  /\ result (get_list w) ++ result (get_completed_list w)
     ≡ₚ item_values_of all
  /\ length (result (get_list w)) + length (result (get_completed_list w))
     = length all.
Proof.
  intros Hfetch Hinc Hcomp.
  assert (result (get_list w) = item_values_of (filter_incomplete_items all))
    as Hl.
  { unfold get_list, bind, fetch_items. rewrite Hfetch. simpl.
    by destruct (filter_incomplete_items all). }
  assert (result (get_completed_list w)
          = item_values_of (List.filter get_completed all)) as Hc.
  { unfold get_completed_list, bind, fetch_items. rewrite Hfetch. simpl.
    by destruct (List.filter get_completed all). }
  assert (result (get_list w) ++ result (get_completed_list w)
          ≡ₚ item_values_of all) as Hperm.
  { rewrite Hl, Hc. unfold item_values_of, filter_incomplete_items.
    rewrite <- map_app. apply Permutation_map, filter_partition_Permutation. }
  split_and!; [done..|].
  rewrite <- length_app, Hperm. unfold item_values_of. by rewrite length_map.
Qed.

(** X2. [get_list] and [get_completed_list] make one call, the fetch, and
    never return an empty list: a failed fetch gives the one-line error, and
    a list with no item of the wanted kind gives the one-line notice of the
    tool (so also an empty list does). *)
Theorem listing_tools_never_return_empty (w : W) :
  let fetched := fst (get_shopping_list_items w) in
  calls (get_list w) = [Fetch fetched]
  /\ calls (get_completed_list w) = [Fetch fetched]
  /\ result (get_list w) <> [] /\ result (get_completed_list w) <> []
  /\ (fetched = None ->
      result (get_list w) = ["Error: Could not retrieve shopping list items."]
      /\ result (get_completed_list w)
         = ["Error: Could not retrieve shopping list items."])
  /\ (forall all, fetched = Some all ->
        Forall (fun it => get_completed it = true) all ->
        result (get_list w)
        = ["Shopping list is empty or has no incomplete items."])
  /\ (forall all, fetched = Some all ->
        Forall (fun it => get_completed it = false) all ->
        result (get_completed_list w)
        = ["No completed items found on the list."]).
Proof.
  intros fetched. subst fetched.
  unfold get_list, get_completed_list, bind, fetch_items.
  destruct (get_shopping_list_items w) as [[all|] w1]; simpl.
  - split_and!.
    + by destruct (filter_incomplete_items all).
    + by destruct (List.filter get_completed all).
    + by destruct (filter_incomplete_items all).
    + by destruct (List.filter get_completed all).
    + done.
    + intros ? [= <-] Hall.
      assert (filter_incomplete_items all = []) as ->; [|done].
      unfold filter_incomplete_items.
      induction Hall as [|x l Hx _ IH]; simpl; [done|]. by rewrite Hx.
    + intros ? [= <-] Hall.
      assert (List.filter get_completed all = []) as ->; [|done].
      induction Hall as [|x l Hx _ IH]; simpl; [done|]. by rewrite Hx.
  - by split_and!.
Qed.

(** X3. [_find_item_by_value] makes one call, the fetch, and returns the
    first item of the fetched list that is incomplete and whose stripped,
    lower-cased value equals the stripped, lower-cased argument (completed
    items before it are passed over), and none when there is no such item or
    the fetch fails.  It is the item the loops of [delete_item] and
    [mark_complete] find first for that name. *)
Theorem find_item_by_value_first_incomplete_match (value_to_find : string)
    (w : W) :
  let r := _find_item_by_value value_to_find w in
  let fetched := fst (get_shopping_list_items w) in
  let key := lower (strip value_to_find) in
  calls r = [Fetch fetched]
  /\ result r = find_item (incomplete_snapshot fetched) key
  /\ (forall it, result r = Some it <->
        exists pre post,
          fetched = Some (pre ++ it :: post)
          /\ get_completed it = false
          /\ lower (strip (get_value it "")) = key
          /\ Forall (fun c => get_completed c = true
                              \/ lower (strip (get_value c "")) <> key) pre).
Proof.
  intros r fetched key. subst r fetched.
  unfold _find_item_by_value, bind, fetch_items.
  destruct (get_shopping_list_items w) as [[[|c l]|] w1].
  - split_and!; [done..|]. intros it. split; [done|].
    intros (pre & ? & ? & _). by destruct pre.
  - split_and!; [done..|]. intros it.
    etrans; [apply (first_incomplete_match (c :: l) key it)|].
    split; intros (pre & post & Heq & ?); exists pre, post;
      (split; [|done]); cbn [fst] in *; congruence.
  - split_and!; [done..|]. intros it. split; [done|].
    by intros (? & ? & ? & _).
Qed.

End ListingFacts.

(** ** The calls of [add_item] *)

Section AddCalls.
Context {W : Type} `{RemoteList W}.

Lemma add_loop_calls (values : list string) (results : buckets) (w : W) :
  "added" ∈ dom results -> "failed" ∈ dom results ->
  let r := for_each add_body values results w in
  exists oks,
    length oks = length (stripped_names values)
    /\ calls r = zip_with AddOne (stripped_names values) oks
    /\ bucket "added" (result r)
       = bucket "added" results ++ added_values true (calls r)
    /\ bucket "failed" (result r)
       = bucket "failed" results ++ added_values false (calls r).
Proof.
  revert results w. induction values as [|v values IH]; intros results w Ha Hf.
  - exists []. simpl. by rewrite !app_nil_r.
  - intros r. subst r. rewrite for_each_cons, stripped_names_cons.
    destruct (decide (strip v = "")) as [He|Hne].
    + rewrite add_body_skip by done. cbn [result remote calls app].
      destruct (IH results w Ha Hf) as (oks & Hlen & Hcalls & Hadd & Hfail).
      exists oks. by rewrite He.
    + destruct (add_body_valid v results w Hne) as (ok & w' & _ & ->).
      cbn [result remote calls].
      destruct (IH (bucket_append (if ok then "added" else "failed")
                      (strip v) results) w')
        as (oks & Hlen & Hcalls & Hadd & Hfail);
        [by rewrite dom_bucket_append..|].
      exists (ok :: oks). apply truthy_true in Hne. rewrite Hne.
      split_and!; [by simpl; f_equal|by simpl; f_equal| |].
      * rewrite Hadd. unfold added_values. cbn [app omap]. fold (added_values true).
        destruct ok; simpl.
        -- rewrite bucket_append_same by (by apply elem_of_dom).
           by rewrite <- app_assoc.
        -- by rewrite bucket_append_other.
      * rewrite Hfail. unfold added_values. cbn [app omap].
        destruct ok; simpl.
        -- by rewrite bucket_append_other.
        -- rewrite bucket_append_same by (by apply elem_of_dom).
           by rewrite <- app_assoc.
Qed.

(** X4. [add_item] makes exactly one add-one call per input name that is not
    empty after stripping, in the order of the batch, with the stripped name
    (its case kept), and no other call: it never fetches the list, so a name
    already on the list is added again.  The [added] bucket holds the names
    of the calls that succeeded and [failed] those of the calls that failed,
    in call order. *)
Theorem add_item_one_call_per_name (values : list string) (w : W) :
  let r := add_item_results values w in
  exists oks,
    length oks = length (stripped_names values)
    /\ calls r = zip_with AddOne (stripped_names values) oks
    /\ bucket "added" (result r) = added_values true (calls r)
    /\ bucket "failed" (result r) = added_values false (calls r).
Proof.
  intros r. subst r. unfold add_item_results.
  destruct (add_loop_calls values add_results0 w)
    as (oks & Hlen & Hcalls & Hadd & Hfail); [known_buckets..|].
  exists oks. by rewrite Hadd, Hfail, !add_results0_empty.
Qed.

End AddCalls.

(** ** The calls of [delete_item] and [mark_complete] against the snapshot *)

Lemma list_remove_Permutation (x : item) (l : list item) :
  x ∈ l -> x :: list_remove x l ≡ₚ l.
Proof.
  induction l as [|y l IH]; [by intros ?%elem_of_nil|].
  intros Hx. simpl. case_decide as Hxy; [by subst|].
  apply elem_of_cons in Hx as [?|Hx]; [done|].
  rewrite Permutation_swap. by rewrite IH.
Qed.

Lemma succeeded_on_snoc (cs : list call) (c : call) :
  succeeded_on (cs ++ [c]) =
  succeeded_on cs ++ match c with
                     | DeleteOne it true | MarkCompleted it true
                     | UnmarkCompleted it true => [it]
                     | _ => []
                     end.
Proof.
  unfold succeeded_on. rewrite omap_app. f_equal.
  by destruct c as [| |? []|? []|? []].
Qed.

Lemma failed_count_snoc (cs : list call) (c : call) :
  failed_count (cs ++ [c]) =
  failed_count cs + match c with
                    | DeleteOne _ false | MarkCompleted _ false
                    | UnmarkCompleted _ false => 1
                    | _ => 0
                    end.
Proof.
  unfold failed_count. rewrite List.filter_app, length_app. f_equal.
  by destruct c as [| |? []|? []|? []].
Qed.

Section SnapshotAccounting.
Context {W : Type} `{RemoteList W}.

(** What the loop of [delete_item] keeps, from the pool [pool0] it starts
    with. *)
Lemma delete_loop_accounting (values : list string) (pool0 : list item)
    (w : W) :
  let r := for_each delete_body values (pool0, delete_results0) w in
  succeeded_on (calls r) ++ fst (result r) ≡ₚ pool0
  /\ Forall (fun c => exists it ok, c = DeleteOne it ok /\ it ∈ pool0
                                    /\ has_id it = true) (calls r)
  /\ length (bucket "deleted" (snd (result r))) = length (succeeded_on (calls r))
  /\ length (bucket "failed" (snd (result r))) = failed_count (calls r).
Proof.
  intros r. subst r.
  set (I := fun (st : list item * buckets) (cs : list call) =>
              succeeded_on cs ++ fst st ≡ₚ pool0
              /\ Forall (fun c => exists it ok, c = DeleteOne it ok
                                   /\ it ∈ pool0 /\ has_id it = true) cs
              /\ dom (snd st) = dom delete_results0
              /\ length (bucket "deleted" (snd st)) = length (succeeded_on cs)
              /\ length (bucket "failed" (snd st)) = failed_count cs).
  assert (I (pool0, delete_results0) []) as HI0.
  { split_and!; [done|constructor|done|..];
      by rewrite delete_results0_empty. }
  pose proof (for_each_inv delete_body I values) as Hinv.
  destruct (Hinv) with (s := (pool0, delete_results0)) (w := w) (cs := @nil call)
    as (Hperm & Hcalls & _ & Hdel & Hfail); [|done|done].
  clear Hinv HI0. intros x [pool results] w' cs _ (Hperm & Hcalls & Hdom & Hd & Hf).
  simpl in Hperm, Hdom, Hd, Hf. unfold I.
  assert (forall it, it ∈ pool -> it ∈ pool0) as Hsub.
  { intros it Hit. rewrite <- Hperm. apply elem_of_app. by right. }
  assert (forall k, k ∈ dom delete_results0 -> is_Some (results !! k)) as Hkey.
  { intros k Hk. apply elem_of_dom. by rewrite Hdom. }
  destruct (delete_body_cases x pool results w')
    as [(? & ->)|[(? & ? & ->)|[(it & ? & ? & ? & ->)|
        [(it & w'' & ? & Hfi & Hid & ? & ->)
        |(it & w'' & ? & Hfi & Hid & ? & ->)]]]];
    cbn [result calls fst snd]; rewrite ?app_nil_r, ?dom_bucket_append.
  - done.
  - rewrite !bucket_append_other by discriminate. by split_and!.
  - rewrite !bucket_append_other by discriminate. by split_and!.
  - apply find_item_elem_of in Hfi as [Hin _].
    rewrite succeeded_on_snoc, failed_count_snoc, Nat.add_0_r.
    rewrite (bucket_append_other "failed") by discriminate.
    rewrite bucket_append_same by (apply Hkey; known_buckets).
    split_and!; [| |done| |done].
    + rewrite <- app_assoc. simpl. rewrite <- Permutation_middle.
      rewrite Permutation_middle. by rewrite list_remove_Permutation.
    + apply Forall_app. split; [done|]. repeat constructor.
      exists it, true. auto.
    + rewrite !length_app. simpl. lia.
  - apply find_item_elem_of in Hfi as [Hin _].
    rewrite succeeded_on_snoc, failed_count_snoc, app_nil_r.
    rewrite (bucket_append_other "deleted") by discriminate.
    rewrite bucket_append_same by (apply Hkey; known_buckets).
    split_and!; [done| |done|done|].
    + apply Forall_app. split; [done|]. repeat constructor.
      exists it, false. auto.
    + rewrite length_app. simpl. lia.
Qed.

(** What the loop of [mark_complete] keeps, from the pool [pool0] it starts
    with. *)
Lemma mark_complete_loop_accounting (values : list string) (pool0 : list item)
    (w : W) :
  let r := for_each mark_complete_body values (pool0, mark_complete_results0) w in
  succeeded_on (calls r) ++ fst (result r) ≡ₚ pool0
  /\ Forall (fun c => exists it ok, c = MarkCompleted it ok /\ it ∈ pool0)
       (calls r)
  /\ length (bucket "marked" (snd (result r))) = length (succeeded_on (calls r))
  /\ length (bucket "failed" (snd (result r))) = failed_count (calls r).
Proof.
  intros r. subst r.
  set (I := fun (st : list item * buckets) (cs : list call) =>
              succeeded_on cs ++ fst st ≡ₚ pool0
              /\ Forall (fun c => exists it ok, c = MarkCompleted it ok
                                   /\ it ∈ pool0) cs
              /\ dom (snd st) = dom mark_complete_results0
              /\ length (bucket "marked" (snd st)) = length (succeeded_on cs)
              /\ length (bucket "failed" (snd st)) = failed_count cs).
  assert (I (pool0, mark_complete_results0) []) as HI0.
  { split_and!; [done|constructor|done|..];
      by rewrite mark_complete_results0_empty. }
  pose proof (for_each_inv mark_complete_body I values) as Hinv.
  destruct (Hinv) with (s := (pool0, mark_complete_results0)) (w := w)
                       (cs := @nil call)
    as (Hperm & Hcalls & _ & Hdel & Hfail); [|done|done].
  clear Hinv HI0.
  intros x [pool results] w' cs _ (Hperm & Hcalls & Hdom & Hd & Hf).
  simpl in Hperm, Hdom, Hd, Hf. unfold I.
  assert (forall it, it ∈ pool -> it ∈ pool0) as Hsub.
  { intros it Hit. rewrite <- Hperm. apply elem_of_app. by right. }
  assert (forall k, k ∈ dom mark_complete_results0 -> is_Some (results !! k))
    as Hkey.
  { intros k Hk. apply elem_of_dom. by rewrite Hdom. }
  destruct (mark_complete_body_cases x pool results w')
    as [(? & ->)|[(? & ? & ->)|[(it & ? & ? & ? & ->)|
        [(it & w'' & ? & Hfi & Hid & ? & ->)
        |(it & w'' & ? & Hfi & Hid & ? & ->)]]]];
    cbn [result calls fst snd]; rewrite ?app_nil_r, ?dom_bucket_append.
  - done.
  - rewrite !bucket_append_other by discriminate. by split_and!.
  - rewrite !bucket_append_other by discriminate. by split_and!.
  - apply find_item_elem_of in Hfi as [Hin _].
    rewrite succeeded_on_snoc, failed_count_snoc, Nat.add_0_r.
    rewrite (bucket_append_other "failed") by discriminate.
    rewrite bucket_append_same by (apply Hkey; known_buckets).
    split_and!; [| |done| |done].
    + rewrite <- app_assoc. simpl. rewrite <- Permutation_middle.
      rewrite Permutation_middle. by rewrite list_remove_Permutation.
    + apply Forall_app. split; [done|]. repeat constructor.
      exists it, true. auto.
    + rewrite !length_app. simpl. lia.
  - apply find_item_elem_of in Hfi as [Hin _].
    rewrite succeeded_on_snoc, failed_count_snoc, app_nil_r.
    rewrite (bucket_append_other "marked") by discriminate.
    rewrite bucket_append_same by (apply Hkey; known_buckets).
    split_and!; [done| |done|done|].
    + apply Forall_app. split; [done|]. repeat constructor.
      exists it, false. auto.
    + rewrite length_app. simpl. lia.
Qed.

(** A pass of either loop makes at most one call, and none for a name that
    is empty after stripping. *)
Lemma delete_loop_calls_le (values : list string) (st : list item * buckets)
    (w : W) :
  length (calls (for_each delete_body values st w))
  <= length (stripped_names values).
Proof.
  revert st w. induction values as [|v values IH]; intros [pool results] w;
    [done|].
  rewrite for_each_cons, stripped_names_cons. cbn [calls].
  rewrite length_app.
  destruct (delete_body_cases v pool results w)
    as [(He & ->)|[(Hne & ? & ->)|[(it & Hne & ? & ? & ->)|
        [(it & w'' & Hne & ? & ? & ? & ->)|(it & w'' & Hne & ? & ? & ? & ->)]]]];
    cbn [result remote calls];
    match goal with
    | |- context [for_each delete_body values ?s ?w0] =>
        specialize (IH s w0)
    end;
    [rewrite He|apply truthy_true in Hne; rewrite Hne..]; simpl; lia.
Qed.

Lemma mark_complete_loop_calls_le (values : list string)
    (st : list item * buckets) (w : W) :
  length (calls (for_each mark_complete_body values st w))
  <= length (stripped_names values).
Proof.
  revert st w. induction values as [|v values IH]; intros [pool results] w;
    [done|].
  rewrite for_each_cons, stripped_names_cons. cbn [calls].
  rewrite length_app.
  destruct (mark_complete_body_cases v pool results w)
    as [(He & ->)|[(Hne & ? & ->)|[(it & Hne & ? & ? & ->)|
        [(it & w'' & Hne & ? & ? & ? & ->)|(it & w'' & Hne & ? & ? & ? & ->)]]]];
    cbn [result remote calls];
    match goal with
    | |- context [for_each mark_complete_body values ?s ?w0] =>
        specialize (IH s w0)
    end;
    [rewrite He|apply truthy_true in Hne; rewrite Hne..]; simpl; lia.
Qed.

(** X5. [delete_item] makes no call at all when no name of the batch is
    left after stripping.  Otherwise it fetches the list once, first, and
    after that only makes delete-one calls, at most one per input name that
    is not empty after stripping; every such call is on an item of the
    fetched list that is incomplete and has an id.  It never adds an item or
    changes a completion state, and never deletes a completed item. *)
Theorem delete_item_only_deletes_incomplete_items_with_id
    (a : item_values) (w : W) :
  let r := delete_item a w in
  let fetched := fst (get_shopping_list_items w) in
  if no_valid_values (values_to_process a)
  then calls r = [] /\ remote r = w
  else
    exists cs,
      calls r = Fetch fetched :: cs
      /\ length cs <= length (stripped_names (values_to_process a))
      /\ Forall (fun c => exists it ok all,
                    c = DeleteOne it ok /\ fetched = Some all /\ it ∈ all
                    /\ get_completed it = false /\ has_id it = true) cs.
Proof.
  intros r fetched. subst r fetched. unfold delete_item.
  destruct (no_valid_values (values_to_process a)); [done|].
  unfold delete_item_results. unfold bind, fetch_items, ret.
  destruct (get_shopping_list_items w) as [all w1]. cbn [result remote calls fst].
  eexists. split; [by rewrite app_nil_r|].
  split; [apply delete_loop_calls_le|].
  destruct (delete_loop_accounting (values_to_process a)
              (incomplete_snapshot all) w1) as (_ & Hcalls & _).
  eapply Forall_impl; [exact Hcalls|].
  intros c (it & ok & -> & Hin & Hid).
  apply incomplete_snapshot_elem_of in Hin as (l & -> & Hin & Hc).
  by exists it, ok, l.
Qed.

(** X6. In [delete_item], the items whose delete succeeded, together with
    the pool left at the end of the batch, are exactly the incomplete items
    of the snapshot, each as many times as the snapshot holds it: no item is
    deleted more often than it is listed.  The [deleted] bucket has one name
    per delete-one call that succeeded and the [failed] bucket one name per
    call that failed. *)
Theorem delete_item_pool_accounting (values : list string) (w : W) :
  let r := delete_item_results values w in
  let fetched := fst (get_shopping_list_items w) in
  succeeded_on (calls r) ++ fst (result r) ≡ₚ incomplete_snapshot fetched
  /\ length (bucket "deleted" (snd (result r)))
     = length (succeeded_on (calls r))
  /\ length (bucket "failed" (snd (result r))) = failed_count (calls r).
Proof.
  intros r fetched. subst r fetched.
  unfold delete_item_results, bind, fetch_items.
  destruct (get_shopping_list_items w) as [all w1]. cbn [result remote calls fst].
  destruct (delete_loop_accounting values (incomplete_snapshot all) w1)
    as (Hperm & _ & Hd & Hf).
  by split_and!.
Qed.

(** X7. [mark_complete] makes no call at all when no name of the batch is
    left after stripping.  Otherwise it fetches the list once, first, and
    after that only makes set-completion calls, at most one per input name
    that is not empty after stripping, each on an incomplete item of the
    fetched list.  The items marked with success, together with the pool
    left at the end, are exactly the incomplete items of the snapshot, so no
    item is marked more often than it is listed; [marked] has one name per
    call that succeeded and [failed] one per call that failed. *)
Theorem mark_complete_snapshot_accounting (a : item_values) (w : W) :
  let r := mark_complete a w in
  let st := mark_complete_results (values_to_process a) w in
  let fetched := fst (get_shopping_list_items w) in
  if no_valid_values (values_to_process a)
  then calls r = [] /\ remote r = w
  else
    r = Run (mark_complete_summary (snd (result st))) (remote st) (calls st)
    /\ (exists cs,
          calls r = Fetch fetched :: cs
          /\ length cs <= length (stripped_names (values_to_process a))
          /\ Forall (fun c => exists it ok all,
                        c = MarkCompleted it ok /\ fetched = Some all
                        /\ it ∈ all /\ get_completed it = false) cs)
    /\ succeeded_on (calls r) ++ fst (result st) ≡ₚ incomplete_snapshot fetched
    /\ length (bucket "marked" (snd (result st)))
       = length (succeeded_on (calls r))
    /\ length (bucket "failed" (snd (result st))) = failed_count (calls r).
Proof.
  intros r st fetched. subst r st fetched. unfold mark_complete.
  destruct (no_valid_values (values_to_process a)); [done|].
  assert (forall st : run W (list item * buckets),
            bind (fun _ => st)
              (fun st' => ret (mark_complete_summary (snd st'))) w
            = Run (mark_complete_summary (snd (result st))) (remote st)
                (calls st)) as Htool.
  { intros st. unfold bind, ret. cbn [result remote calls].
    by rewrite app_nil_r. }
  change ((st <- mark_complete_results (values_to_process a);;
           ret (mark_complete_summary (snd st))) w)
    with (bind (fun _ => mark_complete_results (values_to_process a) w)
            (fun st' => ret (mark_complete_summary (snd st'))) w).
  rewrite Htool. split; [done|]. cbn [calls].
  unfold mark_complete_results, bind, fetch_items.
  destruct (get_shopping_list_items w) as [all w1]. cbn [result remote calls fst].
  destruct (mark_complete_loop_accounting (values_to_process a)
              (incomplete_snapshot all) w1) as (Hperm & Hcalls & Hd & Hf).
  split_and!; [|done..].
  eexists. split; [reflexivity|]. split; [apply mark_complete_loop_calls_le|].
  eapply Forall_impl; [exact Hcalls|].
  intros c (it & ok & -> & Hin).
  apply incomplete_snapshot_elem_of in Hin as (l & -> & Hin & Hc).
  by exists it, ok, l.
Qed.

End SnapshotAccounting.

(** ** The calls of [mark_incomplete] against the snapshot *)

Lemma completed_count_alter (l : list item) (i : nat) (it : item) :
  l !! i = Some it -> get_completed it = true ->
  S (length (List.filter get_completed (alter set_incomplete i l)))
  = length (List.filter get_completed l).
Proof.
  revert i. induction l as [|c l IH]; intros i Hi Hc; [done|].
  destruct i as [|i]; simpl in Hi.
  - simplify_eq. simpl. by rewrite Hc.
  - change (alter set_incomplete (S i) (c :: l))
      with (c :: alter set_incomplete i l).
    simpl. destruct (get_completed c); simpl; by rewrite (IH i Hi Hc).
Qed.

Section UnmarkAccounting.
Context {W : Type} `{RemoteList W}.

Lemma mark_incomplete_loop_calls_le (values : list string)
    (st : list item * buckets) (w : W) :
  length (calls (for_each mark_incomplete_body values st w))
  <= length (stripped_names values).
Proof.
  revert st w. induction values as [|v values IH]; intros [pool results] w;
    [done|].
  rewrite for_each_cons, stripped_names_cons. cbn [calls].
  rewrite length_app.
  destruct (mark_incomplete_body_cases v pool results w)
    as [(He & ->)|[(Hne & ? & ->)|[(i & it & Hne & ? & ? & ->)|
        [(i & it & w'' & Hne & ? & ? & ? & ->)
        |(i & it & w'' & Hne & ? & ? & ? & ->)]]]];
    cbn [result remote calls];
    match goal with
    | |- context [for_each mark_incomplete_body values ?s ?w0] =>
        specialize (IH s w0)
    end;
    [rewrite He|apply truthy_true in Hne; rewrite Hne..]; simpl; lia.
Qed.

(** What the loop of [mark_incomplete] keeps, from the fetched list [all]. *)
Lemma mark_incomplete_loop_accounting (values : list string) (all : list item)
    (w : W) :
  let r := for_each mark_incomplete_body values (all, mark_incomplete_results0)
             w in
  Forall (fun c => exists it ok, c = UnmarkCompleted it ok /\ it ∈ all
                                 /\ get_completed it = true) (calls r)
  /\ length (fst (result r)) = length all
  /\ (forall i it, all !! i = Some it ->
        fst (result r) !! i = Some it
        \/ (get_completed it = true
            /\ fst (result r) !! i = Some (set_incomplete it)))
  /\ length (succeeded_on (calls r))
     + length (List.filter get_completed (fst (result r)))
     = length (List.filter get_completed all)
  /\ length (bucket "unmarked" (snd (result r)))
     = length (succeeded_on (calls r))
  /\ length (bucket "failed" (snd (result r))) = failed_count (calls r).
Proof.
  intros r. subst r.
  set (I := fun (st : list item * buckets) (cs : list call) =>
              Forall (fun c => exists it ok, c = UnmarkCompleted it ok
                                 /\ it ∈ all /\ get_completed it = true) cs
              /\ length (fst st) = length all
              /\ (forall i it, all !! i = Some it ->
                    fst st !! i = Some it
                    \/ (get_completed it = true
                        /\ fst st !! i = Some (set_incomplete it)))
              /\ length (succeeded_on cs)
                 + length (List.filter get_completed (fst st))
                 = length (List.filter get_completed all)
              /\ dom (snd st) = dom mark_incomplete_results0
              /\ length (bucket "unmarked" (snd st)) = length (succeeded_on cs)
              /\ length (bucket "failed" (snd st)) = failed_count cs).
  assert (I (all, mark_incomplete_results0) []) as HI0.
  { split_and!; [constructor|done|by left|done|done|..];
      by rewrite mark_incomplete_results0_empty. }
  pose proof (for_each_inv mark_incomplete_body I values) as Hinv.
  destruct (Hinv) with (s := (all, mark_incomplete_results0)) (w := w)
                       (cs := @nil call)
    as (Hcalls & Hlen & Hpos & Hcount & _ & Hu & Hf); [|done|done].
  clear Hinv HI0.
  intros x [pool results] w' cs _ (Hcalls & Hlen & Hpos & Hcount & Hdom & Hu & Hf).
  simpl in Hlen, Hpos, Hcount, Hdom, Hu, Hf. unfold I.
  assert (forall k, k ∈ dom mark_incomplete_results0 -> is_Some (results !! k))
    as Hkey.
  { intros k Hk. apply elem_of_dom. by rewrite Hdom. }
  assert (forall i it, pool !! i = Some it -> get_completed it = true ->
            all !! i = Some it) as Horig.
  { intros i it Hi Hc.
    destruct (all !! i) as [it0|] eqn:Hall.
    - destruct (Hpos i it0 Hall) as [Hsame|[_ Hset]]; [congruence|].
      rewrite Hset in Hi. injection Hi as <-. done.
    - apply lookup_ge_None in Hall. apply lookup_lt_Some in Hi. lia. }
  destruct (mark_incomplete_body_cases x pool results w')
    as [(? & ->)|[(? & ? & ->)|[(i & it & ? & ? & ? & ->)|
        [(i & it & w'' & ? & Hfi & Hc & ? & ->)
        |(i & it & w'' & ? & Hfi & Hc & ? & ->)]]]];
    cbn [result calls fst snd]; rewrite ?app_nil_r, ?dom_bucket_append.
  - done.
  - rewrite !bucket_append_other by discriminate. by split_and!.
  - rewrite !bucket_append_other by discriminate. by split_and!.
  - apply find_item_index_lookup in Hfi as [Hi _].
    pose proof (Horig i it Hi Hc) as Hall.
    rewrite succeeded_on_snoc, failed_count_snoc, Nat.add_0_r.
    rewrite (bucket_append_other "failed") by discriminate.
    rewrite bucket_append_same by (apply Hkey; known_buckets).
    split_and!; [| | | |done| |done].
    + apply Forall_app. split; [done|]. repeat constructor.
      exists it, true. split_and!; [done| |done].
      by eapply list_elem_of_lookup_2.
    + by rewrite length_alter.
    + intros j it' Hj. destruct (decide (j = i)) as [->|Hne].
      * right. assert (it' = it) as -> by congruence. split; [done|].
        rewrite list_lookup_alter_eq, Hi. done.
      * rewrite list_lookup_alter_ne by done. by apply Hpos.
    + rewrite length_app. simpl.
      pose proof (completed_count_alter pool i it Hi Hc). lia.
    + rewrite !length_app. simpl. lia.
  - apply find_item_index_lookup in Hfi as [Hi _].
    pose proof (Horig i it Hi Hc) as Hall.
    rewrite succeeded_on_snoc, failed_count_snoc, app_nil_r.
    rewrite (bucket_append_other "unmarked") by discriminate.
    rewrite bucket_append_same by (apply Hkey; known_buckets).
    split_and!; [|done..|].
    + apply Forall_app. split; [done|]. repeat constructor.
      exists it, false. split_and!; [done| |done].
      by eapply list_elem_of_lookup_2.
    + rewrite length_app. simpl. lia.
Qed.

(** X8. When the fetch succeeds, [mark_incomplete] fetches once, first, and
    after that only makes unset-completion calls, at most one per input name
    that is not empty after stripping, each on an item of the fetched list
    that is completed.  Its working copy of the list never loses or moves an
    item: at the end every position holds the fetched item, or that item
    with its flag cleared when it was completed.  Each call that succeeds
    lowers the number of completed items of the copy by one, so no more
    items are unmarked than the list has completed; [unmarked] has one name
    per call that succeeded and [failed] one per call that failed. *)
Theorem mark_incomplete_snapshot_accounting (values : list string) (w w' : W)
    (all : list item) :
  get_shopping_list_items w = (Some all, w') ->
  let r := mark_incomplete_results values w in
  exists pool results cs,
    result r = Some (pool, results)
    /\ calls r = Fetch (Some all) :: cs
    /\ length cs <= length (stripped_names values)
    /\ Forall (fun c => exists it ok, c = UnmarkCompleted it ok /\ it ∈ all
                                      /\ get_completed it = true) cs
    /\ length pool = length all
    /\ (forall i it, all !! i = Some it ->
          pool !! i = Some it
          \/ (get_completed it = true /\ pool !! i = Some (set_incomplete it)))
    /\ length (succeeded_on cs) + length (List.filter get_completed pool)
       = length (List.filter get_completed all)
    /\ length (bucket "unmarked" results) = length (succeeded_on cs)
    /\ length (bucket "failed" results) = failed_count cs.
Proof.
  intros Hfetch r. subst r.
  unfold mark_incomplete_results, bind, fetch_items. rewrite Hfetch.
  cbn [result remote calls].
  destruct (mark_incomplete_loop_accounting values all w')
    as (Hcalls & Hlen & Hpos & Hcount & Hu & Hf).
  destruct (result (for_each mark_incomplete_body values
                      (all, mark_incomplete_results0) w'))
    as [pool results] eqn:Hres.
  exists pool, results. eexists. split; [reflexivity|].
  split; [by rewrite app_nil_r|].
  split; [apply mark_incomplete_loop_calls_le|]. by split_and!.
Qed.

End UnmarkAccounting.

(** ** The summaries *)

Section Summaries.
Context {W : Type} `{RemoteList W}.

(** A batch with a valid name leaves at least one bucket filled. *)
Lemma for_each_fills_a_bucket {S} (body : string -> S -> M W S)
    (res : S -> buckets) (keys : gset string) (values : list string) (s : S)
    (w : W) :
  (forall v s w,
     (strip v = "" /\ res (result (body v s w)) = res s)
     \/ (strip v <> "" /\ exists k, k ∈ keys
           /\ res (result (body v s w)) = bucket_append k (strip v) (res s))) ->
  keys ⊆ dom (res s) ->
  stripped_names values <> [] ->
  exists k, k ∈ keys /\ bucket k (res (result (for_each body values s w))) <> [].
Proof.
  intros Hbody Hdom Hnames.
  destruct (for_each_classifies body res keys Hbody values s w Hdom)
    as (labels & Hlen & Hkeys & Hb).
  destruct (stripped_names values) as [|n names]; [done|].
  destruct labels as [|l labels]; [done|].
  apply Forall_cons in Hkeys as [Hl _].
  exists l. split; [done|]. rewrite Hb, names_labelled_cons, decide_True by done.
  by destruct (bucket l (res s)).
Qed.

Lemma add_summary_not_sentinel (results : buckets) (k : string) :
  k ∈ ({["added"; "failed"]} : gset string) -> bucket k results <> [] ->
  add_summary results <> "No actions performed or items provided.".
Proof.
  intros Hk Hb. unfold add_summary, summary_line.
  key_cases Hk;
    destruct (bucket "added" results), (bucket "failed" results);
    try done; simpl; discriminate.
Qed.

Lemma delete_summary_not_sentinel (results : buckets) (k : string) :
  k ∈ ({["deleted"; "not_found"; "missing_id"; "failed"]} : gset string) ->
  bucket k results <> [] ->
  delete_summary results <> "No actions performed or items provided.".
Proof.
  intros Hk Hb. unfold delete_summary, summary_line.
  key_cases Hk;
    destruct (bucket "deleted" results), (bucket "not_found" results),
      (bucket "missing_id" results), (bucket "failed" results);
    try done; simpl; discriminate.
Qed.

Lemma mark_complete_summary_not_sentinel (results : buckets) (k : string) :
  k ∈ ({["marked"; "not_found"; "already_complete"; "failed"]} : gset string) ->
  bucket k results <> [] ->
  mark_complete_summary results <> "No actions performed or items provided.".
Proof.
  intros Hk Hb. unfold mark_complete_summary, summary_line.
  key_cases Hk;
    destruct (bucket "marked" results), (bucket "not_found" results),
      (bucket "already_complete" results), (bucket "failed" results);
    try done; simpl; discriminate.
Qed.

Lemma mark_incomplete_summary_not_sentinel (results : buckets) (k : string) :
  k ∈ ({["unmarked"; "not_found"; "already_incomplete"; "failed"]}
       : gset string) ->
  bucket k results <> [] ->
  mark_incomplete_summary results <> "No actions performed or items provided.".
Proof.
  intros Hk Hb. unfold mark_incomplete_summary, summary_line.
  key_cases Hk;
    destruct (bucket "unmarked" results), (bucket "not_found" results),
      (bucket "already_incomplete" results), (bucket "failed" results);
    try done; simpl; discriminate.
Qed.

(** X9. The fallback "No actions performed or items provided." of [add_item],
    [delete_item], [mark_complete] and [mark_incomplete] is never returned:
    a batch without a valid name gets the error string of the tool, and a
    batch with one always fills a bucket, so the summary has a line. *)
Theorem no_action_sentinel_is_never_returned (a : item_values) (w : W) :
  result (add_item a w) <> "No actions performed or items provided."
  /\ result (delete_item a w) <> "No actions performed or items provided."
  /\ result (mark_complete a w) <> "No actions performed or items provided."
  /\ result (mark_incomplete a w) <> "No actions performed or items provided.".
Proof.
  unfold add_item, delete_item, mark_complete, mark_incomplete.
  destruct (no_valid_values (values_to_process a)) eqn:Hvalid;
    [by split_and!|].
  apply no_valid_values_some in Hvalid.
  unfold bind. cbn [result remote calls]. split_and!.
  - unfold add_item_results.
    destruct (for_each_fills_a_bucket add_body (fun s => s) _
                (values_to_process a) add_results0 w add_body_classifies)
      as (k & Hk & Hb); [known_buckets|done|].
    by eapply add_summary_not_sentinel.
  - unfold delete_item_results, bind, fetch_items.
    destruct (get_shopping_list_items w) as [all w1]. cbn [result remote].
    destruct (for_each_fills_a_bucket delete_body snd _
                (values_to_process a)
                (incomplete_snapshot all, delete_results0) w1
                delete_body_classifies)
      as (k & Hk & Hb); [known_buckets|done|].
    by eapply delete_summary_not_sentinel.
  - unfold mark_complete_results, bind, fetch_items.
    destruct (get_shopping_list_items w) as [all w1]. cbn [result remote].
    destruct (for_each_fills_a_bucket mark_complete_body snd _
                (values_to_process a)
                (incomplete_snapshot all, mark_complete_results0) w1
                mark_complete_body_classifies)
      as (k & Hk & Hb); [known_buckets|done|].
    by eapply mark_complete_summary_not_sentinel.
  - unfold mark_incomplete_results, bind, fetch_items.
    destruct (get_shopping_list_items w) as [[all|] w1]; cbn [result remote];
      [|done].
    destruct (for_each_fills_a_bucket mark_incomplete_body snd _
                (values_to_process a) (all, mark_incomplete_results0) w1
                mark_incomplete_body_classifies)
      as (k & Hk & Hb); [known_buckets|done|].
    by eapply mark_incomplete_summary_not_sentinel.
Qed.

End Summaries.

(** ** A call with one name *)

Section OneName.
Context {W : Type} `{RemoteList W}.

Lemma one_valid_value (v : string) :
  strip v <> "" -> no_valid_values [v] = false.
Proof.
  intros Hv%truthy_true. unfold no_valid_values. simpl. by rewrite Hv.
Qed.

(** X10. [add_item] with one name that is not empty after stripping makes
    one add-one call with the stripped name and returns "Added: <name>."
    when the call succeeds and "Failed to add: <name>." when it fails, the
    name stripped with its case kept. *)
Theorem add_item_single_name (v : string) (w w' : W) (ok : bool) :
  strip v <> "" ->
  add_shopping_list_item (strip v) w = (ok, w') ->
  add_item (OneValue v) w =
  Run ((if ok then "Added: " else "Failed to add: ") +:+ strip v +:+ ".")
    w' [AddOne (strip v) ok].
Proof.
  intros Hv Hadd. unfold add_item. cbn [values_to_process].
  rewrite (one_valid_value v Hv). unfold bind, add_item_results.
  rewrite for_each_cons.
  destruct (add_body_valid v add_results0 w Hv) as (ok' & w'' & Hadd' & ->).
  assert (ok' = ok) as -> by congruence.
  assert (w'' = w') as -> by congruence.
  by destruct ok.
Qed.

(** X11. [delete_item] with one name that is not empty after stripping
    fetches the list and then: returns "Not found (incomplete): <name>."
    without a further call when no incomplete item matches; returns "Found
    but missing ID: <name>." without a further call when the first match has
    no id; and otherwise makes one delete-one call on the first match and
    returns "Deleted: <name>." or "Failed to delete: <name>." by its
    outcome. *)
Theorem delete_item_single_name (v : string) (w w1 : W)
    (fetched : option (list item)) :
  strip v <> "" ->
  get_shopping_list_items w = (fetched, w1) ->
  match find_item (incomplete_snapshot fetched) (lower (strip v)) with
  | None =>
      delete_item (OneValue v) w =
      Run ("Not found (incomplete): " +:+ strip v +:+ ".") w1 [Fetch fetched]
  | Some it =>
      if has_id it then
        forall ok w2, delete_shopping_list_item it w1 = (ok, w2) ->
          delete_item (OneValue v) w =
          Run ((if ok then "Deleted: " else "Failed to delete: ")
               +:+ strip v +:+ ".")
            w2 [Fetch fetched; DeleteOne it ok]
      else
        delete_item (OneValue v) w =
        Run ("Found but missing ID: " +:+ strip v +:+ ".") w1 [Fetch fetched]
  end.
Proof.
  intros Hv Hfetch. unfold delete_item. cbn [values_to_process].
  rewrite (one_valid_value v Hv). unfold delete_item_results.
  unfold bind, fetch_items.
  rewrite Hfetch. cbn [result remote calls]. rewrite for_each_cons.
  destruct (delete_body_cases v (incomplete_snapshot fetched) delete_results0 w1)
    as [(? & _)|[(_ & Hf & ->)|[(it & _ & Hf & Hid & ->)|
        [(it & w2 & _ & Hf & Hid & Hdel & ->)
        |(it & w2 & _ & Hf & Hid & Hdel & ->)]]]];
    [done|rewrite Hf..]; rewrite ?Hid; try reflexivity;
    intros ok w2' Hdel'; rewrite Hdel in Hdel'; by injection Hdel' as <- <-.
Qed.

(** X12. [mark_complete] with one name that is not empty after stripping
    fetches the list and then: returns "Not found (incomplete): <name>."
    without a further call when no incomplete item matches (so also when
    the only match is completed); and otherwise makes one set-completion
    call on the first incomplete match and returns "Marked complete:
    <name>." or "Failed to mark complete: <name>." by its outcome. *)
Theorem mark_complete_single_name (v : string) (w w1 : W)
    (fetched : option (list item)) :
  strip v <> "" ->
  get_shopping_list_items w = (fetched, w1) ->
  match find_item (incomplete_snapshot fetched) (lower (strip v)) with
  | None =>
      mark_complete (OneValue v) w =
      Run ("Not found (incomplete): " +:+ strip v +:+ ".") w1 [Fetch fetched]
  | Some it =>
      forall ok w2, mark_item_as_completed it w1 = (ok, w2) ->
        mark_complete (OneValue v) w =
        Run ((if ok then "Marked complete: " else "Failed to mark complete: ")
             +:+ strip v +:+ ".")
          w2 [Fetch fetched; MarkCompleted it ok]
  end.
Proof.
  intros Hv Hfetch. unfold mark_complete. cbn [values_to_process].
  rewrite (one_valid_value v Hv). unfold mark_complete_results.
  unfold bind, fetch_items.
  rewrite Hfetch. cbn [result remote calls]. rewrite for_each_cons.
  destruct (mark_complete_body_cases v (incomplete_snapshot fetched)
              mark_complete_results0 w1)
    as [(? & _)|[(_ & Hf & ->)|[(it & _ & Hf & Hc & _)|
        [(it & w2 & _ & Hf & Hc & Hmark & ->)
        |(it & w2 & _ & Hf & Hc & Hmark & ->)]]]];
    [done|rewrite Hf; reflexivity| |rewrite Hf..].
  - apply find_item_elem_of in Hf as [Hin _].
    apply incomplete_snapshot_elem_of in Hin as (? & _ & _ & ?). congruence.
  - intros ok w2' Hmark'. rewrite Hmark in Hmark'. by injection Hmark' as <- <-.
  - intros ok w2' Hmark'. rewrite Hmark in Hmark'. by injection Hmark' as <- <-.
Qed.

(** X13. [mark_incomplete] with one name that is not empty after stripping
    fetches the list and then: returns its error string when the fetch
    failed; "Not found: <name>." when no item, completed or not, matches;
    "Already incomplete: <name>." when the first match is incomplete, even
    if a completed item with the same name comes later; and otherwise makes
    one unset-completion call on the first match and returns "Marked
    incomplete: <name>." or "Failed to mark incomplete: <name>." by its
    outcome. *)
Theorem mark_incomplete_single_name (v : string) (w w1 : W)
    (fetched : option (list item)) :
  strip v <> "" ->
  get_shopping_list_items w = (fetched, w1) ->
  match fetched with
  | None =>
      mark_incomplete (OneValue v) w =
      Run "Error: Could not retrieve shopping list items to process request."
        w1 [Fetch None]
  | Some all =>
      match find_item all (lower (strip v)) with
      | None =>
          mark_incomplete (OneValue v) w =
          Run ("Not found: " +:+ strip v +:+ ".") w1 [Fetch fetched]
      | Some it =>
          if get_completed it then
            forall ok w2, unmark_item_as_completed it w1 = (ok, w2) ->
              mark_incomplete (OneValue v) w =
              Run ((if ok then "Marked incomplete: "
                    else "Failed to mark incomplete: ") +:+ strip v +:+ ".")
                w2 [Fetch fetched; UnmarkCompleted it ok]
          else
            mark_incomplete (OneValue v) w =
            Run ("Already incomplete: " +:+ strip v +:+ ".") w1 [Fetch fetched]
      end
  end.
Proof.
  intros Hv Hfetch. unfold mark_incomplete. cbn [values_to_process].
  rewrite (one_valid_value v Hv). unfold mark_incomplete_results.
  unfold bind, fetch_items.
  rewrite Hfetch. destruct fetched as [all|]; [|reflexivity].
  cbn [result remote calls]. unfold bind. rewrite for_each_cons.
  destruct (mark_incomplete_body_cases v all mark_incomplete_results0 w1)
    as [(? & _)|[(_ & Hf & ->)|[(i & it & _ & Hf & Hc & ->)|
        [(i & it & w2 & _ & Hf & Hc & Hun & ->)
        |(i & it & w2 & _ & Hf & Hc & Hun & ->)]]]]; [done|..].
  - apply find_item_index_None in Hf. rewrite Hf. reflexivity.
  - apply find_item_index_find_item in Hf. rewrite Hf, Hc. reflexivity.
  - apply find_item_index_find_item in Hf. rewrite Hf, Hc.
    intros ok w2' Hun'. rewrite Hun in Hun'. by injection Hun' as <- <-.
  - apply find_item_index_find_item in Hf. rewrite Hf, Hc.
    intros ok w2' Hun'. rewrite Hun in Hun'. by injection Hun' as <- <-.
Qed.

End OneName.

(** ** The runs of [clear_completed_items] *)

Lemma missing_id_observed_app (cs cs' : list call) :
  missing_id_observed (cs ++ cs') =
  missing_id_observed cs + missing_id_observed cs'.
Proof.
  induction cs as [|c cs IH]; [done|].
  destruct c as [[l|]| | | |]; simpl; rewrite IH; lia.
Qed.

Lemma completed_split_by_id (l : list item) :
  length (List.filter get_completed l) =
  length (List.filter has_id (List.filter get_completed l))
  + length (List.filter (fun it => get_completed it && negb (has_id it)) l).
Proof.
  induction l as [|it l IH]; [done|]. simpl.
  destruct (get_completed it); simpl; [|done].
  destruct (has_id it); simpl; lia.
Qed.

Lemma deletes_follow_snapshot_batch (current : list item) (items : list item)
    (oks : list bool) (rest : list call) :
  Forall (fun it => it ∈ current /\ get_completed it = true
                    /\ has_id it = true) items ->
  deletes_follow_snapshot current rest ->
  deletes_follow_snapshot current (zip_with DeleteOne items oks ++ rest).
Proof.
  intros Hitems Hrest. revert oks.
  induction Hitems as [|it items (Hin & Hc & Hid) _ IH]; intros oks; [done|].
  destruct oks as [|ok oks]; [done|]. simpl. by split_and!.
Qed.

Section ClearRuns.
Context {W : Type} `{RemoteList W}.

(** The inner loop makes one delete-one call per item of the batch that has
    an id, in the order of the batch, and no other call. *)
Lemma clear_batch_calls (batch : list item) (st : clearing) (w : W) :
  exists oks,
    length oks = length (List.filter has_id batch)
    /\ calls (for_each clear_body batch st w)
       = zip_with DeleteOne (List.filter has_id batch) oks.
Proof.
  revert st w. induction batch as [|it batch IH]; intros st w.
  - by exists [].
  - rewrite for_each_cons. cbn [calls]. simpl List.filter.
    destruct (clear_body_cases it st w)
      as [(Hid & ->)|[(w' & Hid & _ & ->)|(w' & Hid & _ & ->)]];
      rewrite Hid; cbn [result remote calls];
      match goal with
      | |- context [for_each clear_body batch ?s ?w0] =>
          destruct (IH s w0) as (oks & Hlen & ->)
      end.
    + by exists oks.
    + exists (true :: oks). simpl. by rewrite Hlen.
    + exists (false :: oks). simpl. by rewrite Hlen.
Qed.

Lemma delete_count_zip_with (items : list item) (oks : list bool) :
  length oks = length items ->
  delete_count (zip_with DeleteOne items oks) = length items.
Proof.
  revert oks. induction items as [|it items IH]; intros [|ok oks] Hlen;
    try done.
  unfold delete_count in *. simpl. f_equal. apply IH. by injection Hlen.
Qed.

Lemma observed_zip_with (items : list item) (oks : list bool) :
  fetch_count (zip_with DeleteOne items oks) = 0
  /\ missing_id_observed (zip_with DeleteOne items oks) = 0
  /\ completed_observed (zip_with DeleteOne items oks) = 0.
Proof.
  revert oks. induction items as [|it items IH]; intros [|ok oks]; try done.
  apply IH.
Qed.

Lemma fetches_found_completed_zip_with (items : list item) (oks : list bool) :
  fetches_found_completed (zip_with DeleteOne items oks).
Proof.
  revert oks. induction items as [|it items IH]; intros [|ok oks];
    try by constructor.
  simpl. constructor; [done|apply IH].
Qed.

(** How a run of the loop ends and what it did on the way. *)
Lemma clear_loop_shape (remaining iteration deleted : nat)
    (failures : list string) (w : W) (current : list item) :
  let r := clear_loop remaining iteration deleted failures w in
  deletes_follow_snapshot current (calls r)
  /\ delete_count (calls r) + missing_id_observed (calls r)
     = completed_observed (calls r)
  /\ match result r with
     | FetchFailed _ _ =>
         exists pre, calls r = pre ++ [Fetch None]
                     /\ fetches_found_completed pre
     | Finished it _ _ =>
         (exists pre l, calls r = pre ++ [Fetch (Some l)]
                        /\ List.filter get_completed l = []
                        /\ fetches_found_completed pre)
         \/ (it = iteration + remaining /\ fetch_count (calls r) = remaining
             /\ fetches_found_completed (calls r))
     end.
Proof.
  revert iteration deleted failures w current.
  induction remaining as [|remaining IH];
    intros iteration deleted failures w current r; subst r.
  - simpl. split_and!; [done|done|]. right. split_and!; [lia|done|constructor].
  - rewrite clear_loop_step.
    destruct (get_shopping_list_items w) as [[all|] w1].
    2: { cbn [result calls]. split_and!; [done|done|].
         exists []. split; [done|constructor]. }
    destruct (List.filter get_completed all) as [|c batch] eqn:Hbatch.
    { cbn [result calls]. split_and!; [done| |].
      - unfold delete_count. simpl. rewrite Hbatch.
        assert (List.filter (fun it => get_completed it && negb (has_id it)) all
                = []) as ->; [|done].
        pose proof (completed_split_by_id all) as Hsplit.
        rewrite Hbatch in Hsplit. simpl in Hsplit.
        symmetry in Hsplit. by apply nil_length_inv in Hsplit.
      - left. exists [], all. split_and!; [done|done|constructor]. }
    cbv zeta. rewrite <- Hbatch.
    set (rb := for_each clear_body (List.filter get_completed all)
                 (Clearing deleted failures []) w1).
    destruct (clear_batch_calls (List.filter get_completed all)
                (Clearing deleted failures []) w1) as (oks & Hoks & Hcb).
    fold rb in Hcb.
    set (rl := clear_loop remaining (S iteration)
                 (total_deleted_count (result rb))
                 (total_failed_items (result rb) ++ batch_failed (result rb))
                 (remote rb)).
    destruct (IH (S iteration) (total_deleted_count (result rb))
                (total_failed_items (result rb) ++ batch_failed (result rb))
                (remote rb) all) as (Hdfs & Hcount & Hres).
    fold rl in Hdfs, Hcount, Hres. cbn [result calls]. rewrite Hcb.
    split_and!.
    + simpl. apply deletes_follow_snapshot_batch; [|done].
      apply Forall_forall. intros it Hit.
      apply list_elem_of_In, filter_In in Hit as [Hit Hid].
      apply filter_In in Hit as [Hit Hc]. by apply list_elem_of_In in Hit.
    + change (Fetch (Some all) :: ?l) with ([Fetch (Some all)] ++ l).
      rewrite !delete_count_app, !missing_id_observed_app,
        !completed_observed_app.
      rewrite delete_count_zip_with by done.
      change (delete_count [Fetch (Some all)]) with 0.
      change (missing_id_observed [Fetch (Some all)])
        with (length (List.filter
                        (fun it => get_completed it && negb (has_id it)) all)
              + 0).
      change (completed_observed [Fetch (Some all)])
        with (length (List.filter get_completed all) + 0).
      destruct (observed_zip_with
                  (List.filter has_id (List.filter get_completed all)) oks)
        as (_ & -> & ->).
      pose proof (completed_split_by_id all).
      lia.
    + assert (fetches_found_completed
                (Fetch (Some all)
                 :: zip_with DeleteOne
                      (List.filter has_id (List.filter get_completed all)) oks))
        as Hhead.
      { constructor; [|apply fetches_found_completed_zip_with].
        exists all. split; [done|]. by rewrite Hbatch. }
      destruct (result rl) as [d f|it d f].
      * destruct Hres as (pre & -> & Hpre).
        exists (Fetch (Some all)
                :: zip_with DeleteOne
                     (List.filter has_id (List.filter get_completed all)) oks
                ++ pre).
        split; [simpl; by rewrite <- app_assoc|].
        apply (Forall_app _ (_ :: _) pre). by split.
      * destruct Hres as [(pre & l & -> & Hl & Hpre)|(-> & Hfc & Hall)].
        -- left.
           exists (Fetch (Some all)
                   :: zip_with DeleteOne
                        (List.filter has_id (List.filter get_completed all))
                        oks ++ pre), l.
           split_and!; [simpl; by rewrite <- app_assoc|done|].
           apply (Forall_app _ (_ :: _) pre). by split.
        -- right. split_and!; [lia| |].
           ++ change (Fetch (Some all) :: ?l) with ([Fetch (Some all)] ++ l).
              rewrite !fetch_count_app, Hfc.
              change (fetch_count [Fetch (Some all)]) with 1.
              destruct (observed_zip_with
                          (List.filter has_id (List.filter get_completed all))
                          oks) as (-> & _).
              lia.
           ++ apply (Forall_app _ (_ :: _) (calls rl)). by split.
Qed.

(** X14. [clear_completed_items] stops in one of three ways only: at a fetch
    that fails; at a fetch whose list has no completed item; or after
    [max_iterations] turns, each of which fetched a list that still had a
    completed item.  Before the last fetch, every fetch had returned a list
    with a completed item.  In particular a list without completed items
    gives "Clear completed process finished after 1 iteration(s). Total
    Deleted: 0." after the one fetch. *)
Theorem clear_completed_items_stops_only_when_done (w : W) :
  let r := clear_completed_outcome w in
  match result r with
  | FetchFailed _ _ =>
      exists pre, calls r = pre ++ [Fetch None] /\ fetches_found_completed pre
  | Finished it _ _ =>
      (exists pre l, calls r = pre ++ [Fetch (Some l)]
                     /\ List.filter get_completed l = []
                     /\ fetches_found_completed pre)
      \/ (it = max_iterations /\ fetch_count (calls r) = max_iterations
          /\ fetches_found_completed (calls r))
  end
  /\ (forall l w1,
        get_shopping_list_items w = (Some l, w1) ->
        List.filter get_completed l = [] ->
        clear_completed_items w =
        Run "Clear completed process finished after 1 iteration(s). Total Deleted: 0."
          w1 [Fetch (Some l)]).
Proof.
  intros r. split.
  - destruct (clear_loop_shape max_iterations 0 0 [] w []) as (_ & _ & Hres).
    fold clear_completed_outcome in Hres. fold r in Hres. clearbody r.
    by destruct (result r).
  - intros l w1 Hfetch Hnone.
    unfold clear_completed_items, clear_completed_outcome, bind, max_iterations.
    by rewrite clear_loop_step, Hfetch, Hnone.
Qed.

(** X15. The calls of [clear_completed_items] are fetches and delete-one
    calls only, and every delete-one call is made on an item of the list
    returned by the latest fetch that is completed and has an id: the tool
    never deletes an incomplete item, never acts on a stale snapshot, and
    never adds an item or changes a completion state. *)
Theorem clear_completed_items_deletes_follow_snapshot (w : W) :
  deletes_follow_snapshot [] (calls (clear_completed_outcome w))
  /\ calls (clear_completed_items w) = calls (clear_completed_outcome w).
Proof.
  split.
  - by destruct (clear_loop_shape max_iterations 0 0 [] w []) as (? & _).
  - unfold clear_completed_items, bind, ret. cbn [calls]. by rewrite app_nil_r.
Qed.

(** X16. [clear_completed_items] attends to every completed item of every
    list it fetches: the number of delete-one calls it makes plus the number
    of completed items without an id it saw equals the number of completed
    items it saw, over all the snapshots of the run. *)
Theorem clear_completed_items_attends_every_completed_item (w : W) :
  let r := clear_completed_outcome w in
  delete_count (calls r) + missing_id_observed (calls r)
  = completed_observed (calls r).
Proof.
  intros r. by destruct (clear_loop_shape max_iterations 0 0 [] w []) as (_ & ? & _).
Qed.

End ClearRuns.

(** ** The failure list of [clear_completed_items] *)

Lemma failure_source_app (cs cs' : list call) (x : string) :
  failure_source (cs ++ cs') x <-> failure_source cs x \/ failure_source cs' x.
Proof.
  unfold failure_source. split.
  - intros [(it & Hin & Hx)|(l & it & Hin & Hrest)];
      apply elem_of_app in Hin as [Hin|Hin]; eauto 10.
  - intros [[(it & Hin & Hx)|(l & it & Hin & Hrest)]
           |[(it & Hin & Hx)|(l & it & Hin & Hrest)]].
    + left. exists it. split; [|done]. apply elem_of_app. by left.
    + right. exists l, it. split; [|done]. apply elem_of_app. by left.
    + left. exists it. split; [|done]. apply elem_of_app. by right.
    + right. exists l, it. split; [|done]. apply elem_of_app. by right.
Qed.

Section ClearFailures.
Context {W : Type} `{RemoteList W}.

(** After the inner loop the two failure lists hold what they held before,
    the values of the items whose delete-one call failed, and an entry for
    each item of the batch without an id. *)
Lemma clear_batch_failures (batch : list item) (st : clearing) (w : W)
    (x : string) :
  let r := for_each clear_body batch st w in
  x ∈ total_failed_items (result r) ++ batch_failed (result r) <->
  x ∈ total_failed_items st ++ batch_failed st
  \/ (exists it, DeleteOne it false ∈ calls r
                 /\ x = get_value it "<Unknown Item>")
  \/ (exists it, it ∈ batch /\ has_id it = false
                 /\ x = get_value it "<Unknown Item>" +:+ " (Missing ID)").
Proof.
  revert st w. induction batch as [|it batch IH]; intros st w r; subst r.
  - simpl. split; [by left|].
    intros [?|[(it & Hin & _)|(it & Hin & _)]]; [done| |];
      by apply elem_of_nil in Hin.
  - rewrite for_each_cons. cbn [result calls]. rewrite IH. clear IH.
    destruct (clear_body_cases it st w)
      as [(Hid & ->)|[(w' & Hid & _ & ->)|(w' & Hid & _ & ->)]];
      cbn [result remote calls total_failed_items batch_failed].
    + destruct (contains _ (total_failed_items st)) eqn:Hc.
      * apply contains_elem_of in Hc. split.
        -- intros [?|[?|(it' & Hin & Hid' & Hx)]]; [by left|by right; left|].
           right. right. exists it'. split; [by right|done].
        -- intros [?|[?|(it' & Hin & Hid' & Hx)]]; [by left|by right; left|].
           apply elem_of_cons in Hin as [->|Hin].
           ++ left. subst x. apply elem_of_app. by left.
           ++ right. right. by exists it'.
      * split.
        -- intros [Hin|[?|(it' & Hin & Hid' & Hx)]]; [|by right; left|].
           ++ rewrite !elem_of_app in Hin.
              destruct Hin as [[Hin|Hin]|Hin].
              ** left. apply elem_of_app. by left.
              ** apply list_elem_of_singleton in Hin. right. right.
                 exists it. split; [by left|done].
              ** left. apply elem_of_app. by right.
           ++ right. right. exists it'. split; [by right|done].
        -- intros [Hin|[?|(it' & Hin & Hid' & Hx)]]; [|by right; left|].
           ++ left. rewrite !elem_of_app in *. tauto.
           ++ apply elem_of_cons in Hin as [->|Hin].
              ** left. subst x. rewrite !elem_of_app. left. right.
                 by apply list_elem_of_singleton.
              ** right. right. by exists it'.
    + split.
      * intros [?|[(it' & Hin & Hx)|(it' & Hin & Hid' & Hx)]]; [by left| |].
        -- right. left. exists it'. split; [by right|done].
        -- right. right. exists it'. split; [by right|done].
      * intros [?|[(it' & Hin & Hx)|(it' & Hin & Hid' & Hx)]]; [by left| |].
        -- apply elem_of_cons in Hin as [?|Hin]; [done|].
           right. left. by exists it'.
        -- apply elem_of_cons in Hin as [->|Hin]; [congruence|].
           right. right. by exists it'.
    + assert (x ∈ total_failed_items st
                  ++ (if contains (get_value it "<Unknown Item>")
                           (batch_failed st)
                         || contains (get_value it "<Unknown Item>")
                              (total_failed_items st)
                      then batch_failed st
                      else batch_failed st ++ [get_value it "<Unknown Item>"])
              <-> x ∈ total_failed_items st ++ batch_failed st
                  \/ x = get_value it "<Unknown Item>") as ->.
      { destruct (contains _ (batch_failed st)) eqn:Hb; simpl.
        - apply contains_elem_of in Hb. split; [by left|].
          intros [?| ->]; [done|]. apply elem_of_app. by right.
        - destruct (contains _ (total_failed_items st)) eqn:Ht.
          + apply contains_elem_of in Ht. split; [by left|].
            intros [?| ->]; [done|]. apply elem_of_app. by left.
          + rewrite !elem_of_app, list_elem_of_singleton. tauto. }
      split.
      * intros [[?|Hx]|[(it' & Hin & Hx)|(it' & Hin & Hid' & Hx)]].
        -- by left.
        -- right. left. exists it. split; [by left|done].
        -- right. left. exists it'. split; [by right|done].
        -- right. right. exists it'. split; [by right|done].
      * intros [?|[(it' & Hin & Hx)|(it' & Hin & Hid' & Hx)]].
        -- left. by left.
        -- apply elem_of_cons in Hin as [Heq|Hin].
           ++ left. right. congruence.
           ++ right. left. by exists it'.
        -- apply elem_of_cons in Hin as [->|Hin]; [congruence|].
           right. right. by exists it'.
Qed.

(** What one turn of the outer loop contributes to the sources of failure
    entries. *)
Lemma failure_source_turn (all : list item) (oks : list bool) (x : string) :
  failure_source
    (Fetch (Some all)
     :: zip_with DeleteOne (List.filter has_id (List.filter get_completed all))
          oks) x
  <-> (exists it,
         DeleteOne it false
           ∈ zip_with DeleteOne
               (List.filter has_id (List.filter get_completed all)) oks
         /\ x = get_value it "<Unknown Item>")
      \/ (exists it, it ∈ List.filter get_completed all /\ has_id it = false
            /\ x = get_value it "<Unknown Item>" +:+ " (Missing ID)").
Proof.
  unfold failure_source. split.
  - intros [(it & Hin & Hx)|(l & it & Hin & Hit & Hc & Hid & Hx)].
    + apply elem_of_cons in Hin as [?|Hin]; [done|]. left. by exists it.
    + apply elem_of_cons in Hin as [Heq|Hin].
      * injection Heq as ->. right. exists it. split; [|done].
        apply list_elem_of_In, filter_In. split; [|done].
        by apply list_elem_of_In.
      * apply elem_of_zip_with in Hin as (? & ? & ? & _). done.
  - intros [(it & Hin & Hx)|(it & Hin & Hid & Hx)].
    + left. exists it. split; [by right|done].
    + right. exists all, it.
      apply list_elem_of_In, filter_In in Hin as [Hin Hc].
      split_and!; [by left|by apply list_elem_of_In|done|done|done].
Qed.

Lemma clear_loop_failures (remaining iteration deleted : nat)
    (failures : list string) (w : W) (x : string) :
  let r := clear_loop remaining iteration deleted failures w in
  x ∈ outcome_failures (result r) <->
  x ∈ failures \/ failure_source (calls r) x.
Proof.
  revert iteration deleted failures w.
  induction remaining as [|remaining IH];
    intros iteration deleted failures w r; subst r.
  - simpl. split; [by left|]. intros [?|[(it & Hin & _)|(l & it & Hin & _)]];
      [done| |]; by apply elem_of_nil in Hin.
  - rewrite clear_loop_step.
    destruct (get_shopping_list_items w) as [[all|] w1].
    2: { cbn [result calls outcome_failures]. split; [by left|].
         intros [?|[(it & Hin & _)|(l & it & Hin & _)]]; [done| |];
           by apply list_elem_of_singleton in Hin. }
    destruct (List.filter get_completed all) as [|c batch] eqn:Hbatch.
    { cbn [result calls outcome_failures]. split; [by left|].
      intros [?|[(it & Hin & _)|(l & it & Hin & Hit & Hc & _)]]; [done| |].
      - by apply list_elem_of_singleton in Hin.
      - apply list_elem_of_singleton in Hin. injection Hin as ->.
        assert (it ∈ List.filter get_completed all) as Hbad.
        { apply list_elem_of_In, filter_In. split; [|done].
          by apply list_elem_of_In. }
        rewrite Hbatch in Hbad. by apply elem_of_nil in Hbad. }
    cbv zeta. rewrite <- Hbatch.
    set (rb := for_each clear_body (List.filter get_completed all)
                 (Clearing deleted failures []) w1).
    destruct (clear_batch_calls (List.filter get_completed all)
                (Clearing deleted failures []) w1) as (oks & Hoks & Hcb).
    pose proof (clear_batch_failures (List.filter get_completed all)
                  (Clearing deleted failures []) w1 x) as Hbf.
    cbv zeta in Hbf. fold rb in Hcb, Hbf.
    cbn [total_failed_items batch_failed] in Hbf. rewrite app_nil_r in Hbf.
    cbn [result calls]. rewrite IH, Hbf.
    change (Fetch (Some all) :: calls rb ++ ?l)
      with ((Fetch (Some all) :: calls rb) ++ l).
    rewrite failure_source_app, Hcb, failure_source_turn. tauto.
Qed.

(** X17. The failure list that [clear_completed_items] reports holds exactly:
    the value of every item whose delete-one call failed, and, for every
    completed item without an id of a fetched list, its value followed by
    " (Missing ID)".  Nothing else enters the list and none of these is
    left out. *)
Theorem clear_completed_items_failure_list (w : W) (x : string) :
  x ∈ outcome_failures (result (clear_completed_outcome w)) <->
  failure_source (calls (clear_completed_outcome w)) x.
Proof.
  unfold clear_completed_outcome.
  pose proof (clear_loop_failures max_iterations 0 0 [] w x) as Hl.
  cbv zeta in Hl. rewrite Hl. split; [|by right].
  intros [Hin|?]; [|done]. by apply elem_of_nil in Hin.
Qed.

End ClearFailures.

(** ** The added properties on the sample lists *)

Lemma listing_tools_cover_every_item_witness :
  get_shopping_list_items pantry = (Some [milk; eggs_done], pantry)
  /\ filter_incomplete_items [milk; eggs_done] <> []
  /\ List.filter get_completed [milk; eggs_done] <> []
  /\ result (get_list pantry) = ["Milk"]
  /\ result (get_completed_list pantry) = ["Eggs"]
  /\ result (get_list pantry) ++ result (get_completed_list pantry)
     ≡ₚ item_values_of [milk; eggs_done].
Proof.
  assert (get_shopping_list_items pantry = (Some [milk; eggs_done], pantry))
    as Hfetch by reflexivity.
  assert (filter_incomplete_items [milk; eggs_done] <> []) as Hinc
    by (vm_compute; discriminate).
  assert (List.filter get_completed [milk; eggs_done] <> []) as Hcomp
    by (vm_compute; discriminate).
  destruct (listing_tools_cover_every_item pantry pantry [milk; eggs_done]
              Hfetch Hinc Hcomp) as (Hl & Hc & Hperm & _).
  split_and!; [exact Hfetch|exact Hinc|exact Hcomp|exact Hl|exact Hc
              |exact Hperm].
Defined.

Lemma listing_tools_never_return_empty_witness :
  fst (get_shopping_list_items pantry_offline) = None
  /\ result (get_list pantry_offline)
     = ["Error: Could not retrieve shopping list items."]
  /\ result (get_completed_list pantry_offline)
     = ["Error: Could not retrieve shopping list items."].
Proof.
  assert (fst (get_shopping_list_items pantry_offline) = None) as Hnone
    by reflexivity.
  destruct (listing_tools_never_return_empty pantry_offline)
    as (_ & _ & _ & _ & Herr & _).
  destruct (Herr Hnone) as [Hl Hc].
  split_and!; [exact Hnone|exact Hl|exact Hc].
Defined.

Lemma add_item_single_name_witness :
  strip " Bread " <> ""
  /\ add_shopping_list_item (strip " Bread ") pantry_offline
     = (true, Scripted [milk; eggs_done; Item None (Some "Bread") (Some false)]
                false true)
  /\ add_item (OneValue " Bread ") pantry_offline =
     Run "Added: Bread."
       (Scripted [milk; eggs_done; Item None (Some "Bread") (Some false)]
          false true)
       [AddOne "Bread" true].
Proof.
  assert (strip " Bread " <> "") as Hv by (vm_compute; discriminate).
  assert (add_shopping_list_item (strip " Bread ") pantry_offline
          = (true,
             Scripted [milk; eggs_done; Item None (Some "Bread") (Some false)]
               false true)) as Hadd by reflexivity.
  split_and!; [exact Hv|exact Hadd|].
  exact (add_item_single_name " Bread " pantry_offline _ true Hv Hadd).
Defined.

Lemma delete_item_single_name_witness :
  strip " MILK " <> ""
  /\ get_shopping_list_items pantry = (Some [milk; eggs_done], pantry)
  /\ delete_item (OneValue " MILK ") pantry =
     Run "Deleted: MILK." (Scripted [eggs_done] true true)
       [Fetch (Some [milk; eggs_done]); DeleteOne milk true].
Proof.
  assert (strip " MILK " <> "") as Hv by (vm_compute; discriminate).
  assert (get_shopping_list_items pantry = (Some [milk; eggs_done], pantry))
    as Hfetch by reflexivity.
  split_and!; [exact Hv|exact Hfetch|].
  exact (delete_item_single_name " MILK " pantry pantry
           (Some [milk; eggs_done]) Hv Hfetch true
           (Scripted [eggs_done] true true) eq_refl).
Defined.

Lemma mark_complete_single_name_witness :
  strip "Eggs" <> ""
  /\ get_shopping_list_items pantry = (Some [milk; eggs_done], pantry)
  /\ mark_complete (OneValue "Eggs") pantry =
     Run "Not found (incomplete): Eggs." pantry
       [Fetch (Some [milk; eggs_done])].
Proof.
  assert (strip "Eggs" <> "") as Hv by (vm_compute; discriminate).
  assert (get_shopping_list_items pantry = (Some [milk; eggs_done], pantry))
    as Hfetch by reflexivity.
  split_and!; [exact Hv|exact Hfetch|].
  exact (mark_complete_single_name "Eggs" pantry pantry
           (Some [milk; eggs_done]) Hv Hfetch).
Defined.

Lemma mark_incomplete_single_name_witness :
  strip "eggs" <> ""
  /\ get_shopping_list_items pantry = (Some [milk; eggs_done], pantry)
  /\ mark_incomplete (OneValue "eggs") pantry =
     Run "Marked incomplete: eggs."
       (Scripted [milk; set_incomplete eggs_done] true true)
       [Fetch (Some [milk; eggs_done]); UnmarkCompleted eggs_done true].
Proof.
  assert (strip "eggs" <> "") as Hv by (vm_compute; discriminate).
  assert (get_shopping_list_items pantry = (Some [milk; eggs_done], pantry))
    as Hfetch by reflexivity.
  split_and!; [exact Hv|exact Hfetch|].
  exact (mark_incomplete_single_name "eggs" pantry pantry
           (Some [milk; eggs_done]) Hv Hfetch true
           (Scripted [milk; set_incomplete eggs_done] true true) eq_refl).
Defined.

Lemma mark_incomplete_snapshot_accounting_witness :
  get_shopping_list_items pantry = (Some [milk; eggs_done], pantry)
  /\ exists pool results cs,
       result (mark_incomplete_results ["eggs"; "Eggs"] pantry)
       = Some (pool, results)
       /\ calls (mark_incomplete_results ["eggs"; "Eggs"] pantry)
          = Fetch (Some [milk; eggs_done]) :: cs
       /\ length pool = 2
       /\ length (succeeded_on cs) + length (List.filter get_completed pool)
          = 1.
Proof.
  assert (get_shopping_list_items pantry = (Some [milk; eggs_done], pantry))
    as Hfetch by reflexivity.
  split; [exact Hfetch|].
  destruct (mark_incomplete_snapshot_accounting ["eggs"; "Eggs"] pantry pantry
              [milk; eggs_done] Hfetch)
    as (pool & results & cs & Hres & Hcalls & _ & _ & Hlen & _ & Hcount & _).
  exists pool, results, cs.
  split_and!; [exact Hres|exact Hcalls|exact Hlen|exact Hcount].
Defined.

Lemma clear_completed_items_stops_only_when_done_witness :
  get_shopping_list_items no_id_list = (Some [milk_no_id], no_id_list)
  /\ List.filter get_completed [milk_no_id] = []
  /\ clear_completed_items no_id_list =
     Run "Clear completed process finished after 1 iteration(s). Total Deleted: 0."
       no_id_list [Fetch (Some [milk_no_id])].
Proof.
  assert (get_shopping_list_items no_id_list = (Some [milk_no_id], no_id_list))
    as Hfetch by reflexivity.
  assert (List.filter get_completed [milk_no_id] = []) as Hnone by reflexivity.
  split_and!; [exact Hfetch|exact Hnone|].
  exact (proj2 (clear_completed_items_stops_only_when_done no_id_list)
           [milk_no_id] no_id_list Hfetch Hnone).
Defined.

(** ** The API layer *)

Section ApiFacts.
Context {T : Type} `{AlexaApi.Transport T}.

(** What [make_authenticated_request] does: nothing without a session or
    with a method it does not know; otherwise one request, whose answer it
    returns unless the call raised or the status is 4xx or 5xx. *)
Lemma make_authenticated_request_cases (url method : string)
    (payload : option AlexaApi.payload) (t : T) :
  let o := AlexaApi.make_authenticated_request url method payload t in
  match AlexaApi.session_jar t, AlexaApi.method_of method with
  | Some jar, Some m =>
      let req :=
        AlexaApi.Request m url
          (match m with AlexaApi.GET => None | _ => payload end)
          AlexaApi.DEFAULT_HEADERS jar in
      AlexaApi.sent o = [req]
      /\ AlexaApi.after o = snd (AlexaApi.send req t)
      /\ AlexaApi.returned o =
         match fst (AlexaApi.send req t) with
         | Some r =>
             if AlexaApi.raises_for_status (AlexaApi.status_code r)
             then None else Some r
         | None => None
         end
  | _, _ => o = AlexaApi.Outcome None t []
  end.
Proof.
  intros o. subst o.
  unfold AlexaApi.make_authenticated_request, AlexaApi.session_jar.
  destruct (AlexaApi.load_cookies_from_json_file _ t) as [[|c l]|]; [done| |done].
  destruct (AlexaApi.set_cookies (c :: l) []) as [jar|]; [|done].
  destruct (AlexaApi.method_of method) as [m|]; [|done].
  cbv zeta.
  destruct (AlexaApi.send _ t) as [[r|] t']; [|done]. cbn [fst snd].
  by destruct (AlexaApi.raises_for_status _).
Qed.

(** The outcome of a function that sends [req] and reports success when the
    status of the answer passes [accepted]. *)
Lemma write_outcome (url method : string) (p : AlexaApi.payload)
    (accepted : nat -> bool) (t : T) (m : AlexaApi.http_method) :
  AlexaApi.method_of method = Some m -> m <> AlexaApi.GET ->
  (forall n, accepted n = true -> AlexaApi.raises_for_status n = false) ->
  let o := AlexaApi.make_authenticated_request url method (Some p) t in
  let o' :=
    match AlexaApi.returned o with
    | Some response =>
        AlexaApi.Outcome
          (AlexaApi.response_truthy response
           && accepted (AlexaApi.status_code response))
          (AlexaApi.after o) (AlexaApi.sent o)
    | None => AlexaApi.Outcome false (AlexaApi.after o) (AlexaApi.sent o)
    end in
  match AlexaApi.session_jar t with
  | None => o' = AlexaApi.Outcome false t []
  | Some jar =>
      let req := AlexaApi.Request m url (Some p) AlexaApi.DEFAULT_HEADERS jar in
      AlexaApi.sent o' = [req]
      /\ AlexaApi.after o' = snd (AlexaApi.send req t)
      /\ (AlexaApi.returned o' = true <->
          exists r, fst (AlexaApi.send req t) = Some r
                    /\ accepted (AlexaApi.status_code r) = true)
  end.
Proof.
  intros Hm Hget Hacc o o'. subst o'.
  pose proof (make_authenticated_request_cases url method (Some p) t) as Hc.
  cbv zeta in Hc. fold o in Hc. rewrite Hm in Hc. clearbody o.
  destruct (AlexaApi.session_jar t) as [jar|]; [|by rewrite Hc].
  assert (match m with AlexaApi.GET => None | _ => Some p end = Some p) as Hp
    by (by destruct m).
  rewrite Hp in Hc. destruct Hc as (Hsent & Hafter & Hret).
  cbv zeta. rewrite Hret.
  destruct (fst (AlexaApi.send _ t)) as [r|] eqn:Hsend.
  - destruct (AlexaApi.raises_for_status (AlexaApi.status_code r)) eqn:Hr.
    + split_and!; [done..|]. split; [done|].
      intros (r' & [= <-] & Hok). apply Hacc in Hok. congruence.
    + cbn [AlexaApi.sent AlexaApi.after AlexaApi.returned].
      unfold AlexaApi.response_truthy. rewrite Hr. cbn [negb andb].
      split_and!; [done..|]. split; [by exists r|].
      by intros (r' & [= <-] & Hok).
  - split_and!; [done..|]. split; [done|]. by intros (? & ? & _).
Qed.

Lemma eqb_200_passes (n : nat) :
  (n =? 200)%nat = true -> AlexaApi.raises_for_status n = false.
Proof. by intros ->%Nat.eqb_eq. Qed.

Lemma eqb_200_204_passes (n : nat) :
  (n =? 200)%nat || (n =? 204)%nat = true ->
  AlexaApi.raises_for_status n = false.
Proof. by intros [->%Nat.eqb_eq| ->%Nat.eqb_eq]%orb_prop. Qed.

(** X18. [add_shopping_list_item] sends nothing and returns [False] when
    the cookie file gives no session.  Otherwise it sends exactly one
    request, a POST of the value with type "TASK" to the add-item address,
    and it returns [True] exactly when that request is answered with status
    200: an answer 201 or 204, a status 4xx or 5xx and a request that raises
    all give [False] although the request was sent. *)
Theorem add_shopping_list_item_succeeds_on_200 (item_value : string) (t : T) :
  let o := AlexaApi.add_shopping_list_item item_value t in
  match AlexaApi.session_jar t with
  | None => o = AlexaApi.Outcome false t []
  | Some jar =>
      let req :=
        AlexaApi.Request AlexaApi.POST
          (AlexaApi.AMAZON_URL +:+ AlexaApi.add_item_path)
          (Some (AlexaApi.NewItem item_value "TASK"))
          AlexaApi.DEFAULT_HEADERS jar in
      AlexaApi.sent o = [req]
      /\ AlexaApi.after o = snd (AlexaApi.send req t)
      /\ (AlexaApi.returned o = true <->
          exists r, fst (AlexaApi.send req t) = Some r
                    /\ AlexaApi.status_code r = 200)
  end.
Proof.
  intros o. subst o. unfold AlexaApi.add_shopping_list_item. cbv zeta.
  pose proof (write_outcome (AlexaApi.AMAZON_URL +:+ AlexaApi.add_item_path)
                "POST" (AlexaApi.NewItem item_value "TASK")
                (fun n => (n =? 200)%nat) t AlexaApi.POST
                eq_refl ltac:(discriminate) eqb_200_passes) as Hw.
  cbv zeta beta in Hw.
  destruct (AlexaApi.session_jar t) as [jar|]; [|exact Hw].
  destruct Hw as (Hsent & Hafter & Hret). split_and!; [done..|].
  rewrite Hret. split; intros (r & Hr & Hs); exists r; (split; [done|]).
  - by apply Nat.eqb_eq.
  - by apply Nat.eqb_eq.
Qed.

(** X19. [delete_shopping_list_item] returns [False] without reading the
    cookie file or sending anything when the item has no id (absent, null or
    empty), and also sends nothing when the cookie file gives no session.
    Otherwise it sends exactly one request, a DELETE with the whole item as
    body, and returns [True] exactly when the answer has status 200 or
    204. *)
Theorem delete_shopping_list_item_succeeds_on_200_or_204 (list_item : item)
    (t : T) :
  let o := AlexaApi.delete_shopping_list_item list_item t in
  match has_id list_item, AlexaApi.session_jar t with
  | true, Some jar =>
      let req :=
        AlexaApi.Request AlexaApi.DELETE
          (AlexaApi.AMAZON_URL +:+ AlexaApi.delete_item_path)
          (Some (AlexaApi.ItemDict list_item))
          AlexaApi.DEFAULT_HEADERS jar in
      AlexaApi.sent o = [req]
      /\ AlexaApi.after o = snd (AlexaApi.send req t)
      /\ (AlexaApi.returned o = true <->
          exists r, fst (AlexaApi.send req t) = Some r
                    /\ (AlexaApi.status_code r = 200
                        \/ AlexaApi.status_code r = 204))
  | _, _ => o = AlexaApi.Outcome false t []
  end.
Proof.
  intros o. subst o. unfold AlexaApi.delete_shopping_list_item.
  destruct (has_id list_item); [|done]. cbv zeta. cbn [negb].
  pose proof (write_outcome (AlexaApi.AMAZON_URL +:+ AlexaApi.delete_item_path)
                "DELETE" (AlexaApi.ItemDict list_item)
                (fun n => (n =? 200)%nat || (n =? 204)%nat) t AlexaApi.DELETE
                eq_refl ltac:(discriminate) eqb_200_204_passes) as Hw.
  cbv zeta beta in Hw.
  destruct (AlexaApi.session_jar t) as [jar|]; [|exact Hw].
  destruct Hw as (Hsent & Hafter & Hret). split_and!; [done..|].
  rewrite Hret. split; intros (r & Hr & Hs); exists r; (split; [done|]).
  - apply orb_prop in Hs as [?%Nat.eqb_eq|?%Nat.eqb_eq]; [by left|by right].
  - destruct Hs as [-> | ->]; reflexivity.
Qed.

(** X20. [mark_item_as_completed] and [unmark_item_as_completed] send
    nothing when the cookie file gives no session.  Otherwise each sends
    exactly one request, a PUT to the update address whose body is the item
    with its id and value as they are and [completed] set to true,
    respectively false, whatever the flag was before; and each returns
    [True] exactly when the answer has status 200. *)
Theorem update_item_completion_status_succeeds_on_200 (list_item : item)
    (completed_status : bool) (t : T) :
  let o := AlexaApi._update_item_completion_status list_item completed_status t in
  AlexaApi.mark_item_as_completed list_item t
  = AlexaApi._update_item_completion_status list_item true t
  /\ AlexaApi.unmark_item_as_completed list_item t
     = AlexaApi._update_item_completion_status list_item false t
  /\ match AlexaApi.session_jar t with
     | None => o = AlexaApi.Outcome false t []
     | Some jar =>
         let req :=
           AlexaApi.Request AlexaApi.PUT
             (AlexaApi.AMAZON_URL +:+ "/alexashoppinglists/api/updatelistitem")
             (Some (AlexaApi.ItemDict
                      (Item (item_id list_item) (item_value list_item)
                         (Some completed_status))))
             AlexaApi.DEFAULT_HEADERS jar in
         AlexaApi.sent o = [req]
         /\ AlexaApi.after o = snd (AlexaApi.send req t)
         /\ (AlexaApi.returned o = true <->
             exists r, fst (AlexaApi.send req t) = Some r
                       /\ AlexaApi.status_code r = 200)
     end.
Proof.
  intros o. subst o. split; [done|]. split; [done|].
  unfold AlexaApi._update_item_completion_status. cbv zeta.
  pose proof (write_outcome
                (AlexaApi.AMAZON_URL +:+ "/alexashoppinglists/api/updatelistitem")
                "PUT"
                (AlexaApi.ItemDict
                   (Item (item_id list_item) (item_value list_item)
                      (Some completed_status)))
                (fun n => (n =? 200)%nat) t AlexaApi.PUT
                eq_refl ltac:(discriminate) eqb_200_passes) as Hw.
  cbv zeta beta in Hw.
  destruct (AlexaApi.session_jar t) as [jar|]; [|exact Hw].
  destruct Hw as (Hsent & Hafter & Hret). split_and!; [done..|].
  rewrite Hret. split; intros (r & Hr & Hs); exists r; (split; [done|]).
  - by apply Nat.eqb_eq.
  - by apply Nat.eqb_eq.
Qed.

(** [extract_list_items] returns the ['listItems'] of the first entry that
    is a dict with that key. *)
Lemma extract_list_items_Some (response_data : list (string * AlexaApi.member))
    (l : list item) :
  AlexaApi.extract_list_items response_data = Some l <->
  exists pre k post,
    response_data = pre ++ (k, AlexaApi.Dict (Some (Some l))) :: post
    /\ Forall (fun e => forall v, snd e <> AlexaApi.Dict (Some v)) pre.
Proof.
  induction response_data as [|[k m] d IH].
  - split; [done|]. intros (pre & ? & ? & Heq & _). by destruct pre.
  - destruct m as [[v|]|]; simpl.
    + split.
      * intros ->. exists [], k, d. split; [done|constructor].
      * intros ([|e pre] & k' & post & Heq & Hpre).
        -- by injection Heq as _ <-.
        -- injection Heq as <- _. apply Forall_cons in Hpre as [Hbad _].
           by destruct (Hbad v).
    + rewrite IH. split.
      * intros (pre & k' & post & -> & Hpre).
        exists ((k, AlexaApi.Dict None) :: pre), k', post. split; [done|].
        constructor; [done|done].
      * intros ([|e pre] & k' & post & Heq & Hpre); [done|].
        injection Heq as <- ->. apply Forall_cons in Hpre as [_ Hpre].
        by exists pre, k', post.
    + rewrite IH. split.
      * intros (pre & k' & post & -> & Hpre).
        exists ((k, AlexaApi.NotDict) :: pre), k', post. split; [done|].
        constructor; [done|done].
      * intros ([|e pre] & k' & post & Heq & Hpre); [done|].
        injection Heq as <- ->. apply Forall_cons in Hpre as [_ Hpre].
        by exists pre, k', post.
Qed.

(** X21. [get_shopping_list_items] sends nothing and returns [None] when
    the cookie file gives no session.  Otherwise it sends exactly one
    request, a GET without body, and it returns a list exactly when the
    answer has a status that is not 4xx or 5xx and a JSON object as body in
    which the first entry that is a dict with a ['listItems'] key holds that
    list.  Entries before it that are not such dicts are passed over; a
    first such dict whose ['listItems'] is null gives [None] even when a
    later entry holds a list. *)
Theorem get_shopping_list_items_first_list_items (t : T) :
  let o := AlexaApi.get_shopping_list_items t in
  match AlexaApi.session_jar t with
  | None => o = AlexaApi.Outcome None t []
  | Some jar =>
      let req :=
        AlexaApi.Request AlexaApi.GET
          (AlexaApi.AMAZON_URL +:+ "/alexashoppinglists/api/getlistitems")
          None AlexaApi.DEFAULT_HEADERS jar in
      AlexaApi.sent o = [req]
      /\ AlexaApi.after o = snd (AlexaApi.send req t)
      /\ (forall l, AlexaApi.returned o = Some l <->
            exists r pre k post,
              fst (AlexaApi.send req t) = Some r
              /\ AlexaApi.raises_for_status (AlexaApi.status_code r) = false
              /\ AlexaApi.json r
                 = AlexaApi.JsonObject
                     (pre ++ (k, AlexaApi.Dict (Some (Some l))) :: post)
              /\ Forall (fun e => forall v, snd e <> AlexaApi.Dict (Some v)) pre)
  end.
Proof.
  intros o. subst o. unfold AlexaApi.get_shopping_list_items. cbv zeta.
  pose proof (make_authenticated_request_cases
                (AlexaApi.AMAZON_URL +:+ "/alexashoppinglists/api/getlistitems")
                "GET" None t) as Hc.
  cbv zeta in Hc.
  change (AlexaApi.method_of "GET") with (Some AlexaApi.GET) in Hc.
  destruct (AlexaApi.session_jar t) as [jar|]; [|by rewrite Hc].
  destruct Hc as (Hsent & Hafter & Hret). rewrite Hret.
  destruct (fst (AlexaApi.send _ t)) as [r|] eqn:Hsend.
  2: { split_and!; [done..|]. intros l. split; [done|].
       by intros (? & ? & ? & ? & ? & _). }
  destruct (AlexaApi.raises_for_status (AlexaApi.status_code r)) eqn:Hr.
  { split_and!; [done..|]. intros l. split; [done|].
    intros (r' & ? & ? & ? & [= <-] & Hr' & _). congruence. }
  unfold AlexaApi.response_truthy. rewrite Hr. cbn [negb].
  destruct (AlexaApi.json r) as [|d] eqn:Hjson.
  { split_and!; [done..|]. intros l. split; [done|].
    intros (r' & ? & ? & ? & [= <-] & _ & Hj & _). congruence. }
  split_and!; [done..|]. intros l.
  cbn [AlexaApi.returned]. rewrite extract_list_items_Some. split.
  - intros (pre & k & post & -> & Hpre). by exists r, pre, k, post.
  - intros (r' & pre & k & post & [= <-] & _ & Hj & Hpre).
    exists pre, k, post. split; [congruence|done].
Qed.

End ApiFacts.

(** ** The proxy server *)

Lemma forallb_filter_length {A} (f : A -> bool) (l : list A) :
  forallb f l = true <-> length l - length (List.filter f l) = 0.
Proof.
  induction l as [|x l IH]; [done|]. simpl.
  pose proof (filter_length f l) as Hle.
  destruct (f x); simpl.
  - rewrite IH. lia.
  - split; [done|]. lia.
Qed.

Section ProxyFacts.
Context {T : Type} `{Proxy.Server T}.

Lemma make_api_request_sent (method endpoint : string)
    (json_data : option Proxy.json) (t : T) :
  Proxy.sent (Proxy.make_api_request method endpoint json_data t)
  = Proxy.request_of method endpoint json_data.
Proof.
  unfold Proxy.make_api_request, Proxy.request_of.
  destruct (Proxy.method_of method) as [m|]; [|done]. cbv zeta.
  destruct (Proxy.call _ t) as [[| |r] t']; try done.
  destruct (AlexaApi.raises_for_status _); [done|].
  by destruct (Proxy.body r).
Qed.

(** What the loop of a batch tool has done when it ends without raising. *)
Lemma batch_loop_spec (tool : Proxy.batch_tool) (item_names : list Proxy.json)
    (results : list Proxy.detail) (all_succeeded : bool) (t : T)
    (results' : list Proxy.detail) (all_succeeded' : bool) :
  Proxy.returned (Proxy.batch_loop tool item_names results all_succeeded t)
  = Some (results', all_succeeded') ->
  exists new,
    results' = results ++ new
    /\ Forall2 Proxy.recorded item_names new
    /\ all_succeeded' = all_succeeded && forallb Proxy.success new
    /\ Proxy.sent (Proxy.batch_loop tool item_names results all_succeeded t)
       = flat_map (Proxy.request_for tool) (omap Proxy.valid_name item_names).
Proof.
  revert results all_succeeded t.
  induction item_names as [|name rest IH]; intros results all_succeeded t.
  - intros [= <- <-]. exists []. rewrite app_nil_r, andb_true_r.
    split_and!; [done|constructor|done|done].
  - cbn [Proxy.batch_loop omap list_omap].
    destruct (Proxy.valid_name name) as [stripped|] eqn:Hv.
    + cbv zeta. cbn [flat_map].
      pose proof (make_api_request_sent (Proxy.tool_method tool)
                    (Proxy.tool_endpoint tool)
                    (Some (Proxy.JDict [("item_name", Proxy.JStr stripped)])) t)
        as Hsent.
      destruct (Proxy.returned (Proxy.make_api_request _ _ _ t))
        as [| | | | |d]; try done.
      cbn [Proxy.returned Proxy.sent]. intros Hret.
      destruct (IH _ _ _ Hret) as (new & -> & Hrec & -> & Hs).
      eexists (_ :: new). split_and!.
      * by rewrite <- app_assoc.
      * constructor; [|done]. unfold Proxy.recorded. by rewrite Hv.
      * cbn [forallb Proxy.success]. by rewrite andb_assoc.
      * by rewrite Hsent, Hs.
    + intros Hret.
      destruct (IH _ _ _ Hret) as (new & -> & Hrec & -> & Hs).
      eexists (_ :: new). split_and!.
      * by rewrite <- app_assoc.
      * constructor; [|done]. unfold Proxy.recorded. by rewrite Hv.
      * cbn [forallb Proxy.success]. by rewrite andb_false_r.
      * done.
Qed.

(** X24. When one of the batch tools of the proxy server ([add_item],
    [delete_item], [mark_item_completed], [mark_item_incomplete]) returns,
    its report has one detail per input name, in order: an invalid name
    (not a string, or empty after stripping) is recorded as it is with
    "Invalid item name provided." and no request is made for it; a valid
    one is recorded stripped, after one request with the stripped name.
    ["success"] is true exactly when every detail succeeded.  The message
    is the message of the only detail when there is one name, and otherwise
    one of three sentences chosen by the counts, whose two counts add up to
    the number of names. *)
Theorem batch_tools_report (tool : Proxy.batch_tool)
    (item_name : Proxy.names_arg) (t : T) (r : Proxy.report) :
  Proxy.returned (Proxy.run_batch tool item_name t) = Some r ->
  let item_names := Proxy.item_names_of item_name in
  let succeeded := Proxy.success_count (Proxy.details r) in
  let failed := length (Proxy.details r) - succeeded in
  Forall2 Proxy.recorded item_names (Proxy.details r)
  /\ length (Proxy.details r) = length item_names
  /\ succeeded + failed = length item_names
  /\ Proxy.report_success r = forallb Proxy.success (Proxy.details r)
  /\ (Proxy.report_success r = true <-> failed = 0)
  /\ Proxy.sent (Proxy.run_batch tool item_name t)
     = flat_map (Proxy.request_for tool) (omap Proxy.valid_name item_names)
  /\ Proxy.report_message r
     = match Proxy.details r with
       | [d] => Proxy.message d
       | _ =>
           Proxy.JStr
             (if Proxy.report_success r
              then Proxy.all_succeeded_message tool succeeded
              else if (0 <? succeeded)%nat
                   then Proxy.some_succeeded_message tool succeeded failed
                   else Proxy.none_succeeded_message tool failed)
       end.
Proof.
  intros Hret item_names succeeded failed. subst succeeded failed.
  unfold Proxy.run_batch in *. cbv zeta in *. fold item_names in Hret |- *.
  destruct (Proxy.returned (Proxy.batch_loop tool item_names [] true t))
    as [[results all_succeeded]|] eqn:Hloop; [|done].
  destruct (batch_loop_spec _ _ _ _ _ _ _ Hloop)
    as (new & -> & Hrec & -> & Hsent).
  cbn [app andb] in *.
  destruct (Proxy.summary_message tool item_names new (forallb Proxy.success new))
    as [summary|] eqn:Hsum; [|done].
  injection Hret as <-. cbn [Proxy.details Proxy.report_success
                               Proxy.report_message Proxy.sent].
  pose proof (Forall2_length _ _ _ Hrec) as Hlen.
  pose proof (filter_length Proxy.success new) as Hle.
  unfold Proxy.success_count.
  split_and!; [done|done|lia|done|apply forallb_filter_length|done|].
  unfold Proxy.summary_message, Proxy.success_count in Hsum.
  destruct item_names as [|n1 [|n2 names]].
  - destruct new; [|done]. by injection Hsum as <-.
  - destruct new as [|d [|d' new]]; try done. by injection Hsum as <-.
  - destruct new as [|d [|d' new]]; try done. by injection Hsum as <-.
Qed.

(** X25. A batch tool given the empty list makes no request and reports
    success with its all-succeeded sentence for 0 items.  Given one invalid
    name it makes no request and reports failure with "Invalid item name
    provided.".  Given one valid name it makes one request; when the
    response is a dict the report succeeds exactly when the dict has no
    ["error"] key, and its message is the ["message"] of the dict, else its
    ["error"], else "Unknown result"; when the response is not a dict (a
    JSON list, string, number or null sent with a good status) the tool
    raises. *)
Theorem batch_tools_one_name (tool : Proxy.batch_tool) (s : string) (t : T) :
  Proxy.run_batch tool (Proxy.ManyNames []) t
  = Proxy.Outcome
      (Some (Proxy.Report true
               (Proxy.JStr (Proxy.all_succeeded_message tool 0)) []))
      t []
  /\ match Proxy.valid_name (Proxy.JStr s) with
     | None =>
         Proxy.run_batch tool (Proxy.OneName s) t
         = Proxy.Outcome
             (Some (Proxy.Report false
                      (Proxy.JStr "Invalid item name provided.")
                      [Proxy.Detail (Proxy.JStr s) false
                         (Proxy.JStr "Invalid item name provided.")]))
             t []
     | Some stripped =>
         let o := Proxy.make_api_request (Proxy.tool_method tool)
                    (Proxy.tool_endpoint tool)
                    (Some (Proxy.JDict [("item_name", Proxy.JStr stripped)])) t in
         Proxy.run_batch tool (Proxy.OneName s) t
         = Proxy.Outcome
             match Proxy.returned o with
             | Proxy.JDict d =>
                 let ok := negb (bool_decide
                                   (is_Some (Proxy.dict_get "error" d))) in
                 Some (Proxy.Report ok (Proxy.message_of d)
                         [Proxy.Detail (Proxy.JStr stripped) ok
                            (Proxy.message_of d)])
             | _ => None
             end
             (Proxy.after o) (Proxy.sent o)
     end.
Proof.
  split; [done|].
  unfold Proxy.run_batch. cbv zeta.
  cbn [Proxy.item_names_of Proxy.batch_loop].
  destruct (Proxy.valid_name (Proxy.JStr s)) as [stripped|]; [|done].
  cbv zeta.
  destruct (Proxy.returned (Proxy.make_api_request _ _ _ t))
    as [| | | | |d]; try done.
  cbn [Proxy.returned Proxy.after Proxy.sent Proxy.summary_message app andb
       head fmap option_fmap option_map Proxy.message].
  by rewrite app_nil_r.
Qed.

(** The answers to [make_api_request] that are lists. *)
Lemma make_api_request_list (method endpoint : string)
    (json_data : option Proxy.json) (t : T) (l : list Proxy.json) :
  Proxy.returned (Proxy.make_api_request method endpoint json_data t)
  = Proxy.JList l ->
  exists req r t',
    Proxy.request_of method endpoint json_data = [req]
    /\ Proxy.call req t = (Proxy.Answered r, t')
    /\ AlexaApi.raises_for_status (Proxy.status_code r) = false
    /\ Proxy.body r = Some (Proxy.JList l).
Proof.
  unfold Proxy.make_api_request, Proxy.request_of.
  destruct (Proxy.method_of method) as [m|]; [|done]. cbv zeta.
  destruct (Proxy.call _ t) as [[| |r] t'] eqn:Hcall; try done.
  destruct (AlexaApi.raises_for_status _) eqn:Hr; [done|].
  destruct (Proxy.body r) as [data|] eqn:Hb; [|done].
  cbn [Proxy.returned]. intros ->. by eexists _, r, t'.
Qed.

(** X26. Each listing tool of the proxy server ([get_all_items],
    [get_incomplete_items], [get_completed_items]) makes one GET request to
    its endpoint.  It returns a list that is not empty only when the server
    answered with a status outside 4xx and 5xx and that very list as JSON
    body; an answer that is a dict, and every failure of the request, gives
    the empty list; a list answer is returned as it is unless one of its
    elements is the string "error", in which case the tool raises. *)
Theorem listing_tools_return_the_answered_list
    (tool : T -> Proxy.outcome T (option (list Proxy.json)))
    (endpoint : string) (t : T) :
  In (tool, endpoint) Proxy.listing_tools ->
  let req := Proxy.Request AlexaApi.GET (Proxy.API_BASE_URL +:+ endpoint) None in
  Proxy.sent (tool t) = [req]
  /\ Proxy.after (tool t) = snd (Proxy.call req t)
  /\ (forall l, Proxy.returned (tool t) = Some l -> l <> [] ->
        exists r, fst (Proxy.call req t) = Proxy.Answered r
                  /\ AlexaApi.raises_for_status (Proxy.status_code r) = false
                  /\ Proxy.body r = Some (Proxy.JList l))
  /\ (forall r l, fst (Proxy.call req t) = Proxy.Answered r ->
        AlexaApi.raises_for_status (Proxy.status_code r) = false ->
        Proxy.body r = Some (Proxy.JList l) ->
        Proxy.returned (tool t)
        = if existsb (fun x => match x with
                               | Proxy.JStr s => String.eqb s "error"
                               | _ => false
                               end) l
          then None else Some l)
  /\ (match fst (Proxy.call req t) with
      | Proxy.Answered r =>
          AlexaApi.raises_for_status (Proxy.status_code r) = true
          \/ Proxy.body r = None
          \/ exists d, Proxy.body r = Some (Proxy.JDict d)
      | _ => True
      end -> Proxy.returned (tool t) = Some []).
Proof.
  intros Hin req.
  assert (Proxy.sent (tool t) = [req]
          /\ Proxy.after (tool t) = snd (Proxy.call req t)
          /\ Proxy.returned (tool t)
             = Proxy.items_or_empty
                 (Proxy.returned (Proxy.make_api_request "GET" endpoint None t))
          /\ Proxy.request_of "GET" endpoint None = [req]) as (Hs & Ha & Hr & Hq).
  { assert (tool t
            = let o := Proxy.make_api_request "GET" endpoint None t in
              Proxy.Outcome (Proxy.items_or_empty (Proxy.returned o))
                (Proxy.after o) (Proxy.sent o)) as ->.
    { simpl in Hin.
      destruct Hin as [[= <- <-]|[[= <- <-]|[[= <- <-]|[]]]]; reflexivity. }
    cbv zeta. cbn [Proxy.sent Proxy.after Proxy.returned].
    rewrite make_api_request_sent.
    split_and!; [done| |done|done].
    unfold Proxy.make_api_request.
    change (Proxy.method_of "GET") with (Some AlexaApi.GET).
    cbv beta iota zeta. fold req. destruct (Proxy.call req t) as [[| |r] t']; try done.
    destruct (AlexaApi.raises_for_status _); [done|].
    by destruct (Proxy.body r). }
  split_and!; [done|done|..].
  - intros l Hl Hne. rewrite Hr in Hl.
    destruct (Proxy.returned (Proxy.make_api_request "GET" endpoint None t))
      as [| | |s|l'|d] eqn:Hresp; try done.
    + unfold Proxy.items_or_empty in Hl. simpl in Hl.
      destruct (Proxy.is_infix "error" s); [done|]. injection Hl as <-. done.
    + destruct (make_api_request_list _ _ _ _ _ Hresp)
        as (req' & r & t' & Hq' & Hcall & Hok & Hbody).
      rewrite Hq in Hq'. injection Hq' as <-.
      unfold Proxy.items_or_empty in Hl. simpl in Hl.
      destruct (existsb _ l'); [done|]. injection Hl as <-.
      exists r. by rewrite Hcall.
    + unfold Proxy.items_or_empty in Hl. simpl in Hl.
      case_bool_decide; injection Hl as <-; done.
  - intros r l Hcall Hok Hbody. rewrite Hr.
    unfold Proxy.make_api_request.
    change (Proxy.method_of "GET") with (Some AlexaApi.GET).
    cbv beta iota zeta. fold req. destruct (Proxy.call req t) as [a t']. cbn [fst] in Hcall.
    subst a. rewrite Hok, Hbody. cbn [Proxy.returned].
    unfold Proxy.items_or_empty. simpl. by destruct (existsb _ l).
  - intros Hcase. rewrite Hr.
    unfold Proxy.make_api_request.
    change (Proxy.method_of "GET") with (Some AlexaApi.GET).
    cbv beta iota zeta. fold req. destruct (Proxy.call req t) as [[| |r] t']; [done|done|].
    cbn [fst] in Hcase.
    destruct (AlexaApi.raises_for_status _) eqn:Hraise; [done|].
    destruct Hcase as [?|[Hb|(d & Hb)]]; [done|by rewrite Hb|].
    rewrite Hb. cbn [Proxy.returned]. unfold Proxy.items_or_empty. simpl.
    by case_bool_decide.
Qed.

End ProxyFacts.

Section ProxyReturns.
Context {T : Type} `{Proxy.Server T}.
Variable good : T -> Prop.

(** The server stays [good], and a [good] server gives object answers. *)
Hypothesis good_call :
  forall req t, good t ->
    good (snd (Proxy.call req t)) /\ object_answer (fst (Proxy.call req t)).

Lemma make_api_request_dict (method endpoint : string)
    (json_data : option Proxy.json) (t : T) :
  good t ->
  let o := Proxy.make_api_request method endpoint json_data t in
  good (Proxy.after o) /\ exists d, Proxy.returned o = Proxy.JDict d.
Proof.
  intros Hgood o. subst o. unfold Proxy.make_api_request.
  destruct (Proxy.method_of method) as [m|]; [|split; [done|by eexists]].
  cbv zeta.
  match goal with
  | |- context [Proxy.call ?req t] =>
      destruct (good_call req t Hgood) as [Hafter Hobj];
      destruct (Proxy.call req t) as [[| |r] t']
  end; cbn [fst snd] in *; try (split; [done|by eexists]).
  destruct (AlexaApi.raises_for_status _) eqn:Hr; [split; [done|by eexists]|].
  destruct (Hobj Hr) as [-> |(d & ->)]; split; try done; by eexists.
Qed.

Lemma batch_loop_returns (tool : Proxy.batch_tool)
    (item_names : list Proxy.json) (results : list Proxy.detail)
    (all_succeeded : bool) (t : T) :
  good t ->
  exists out,
    Proxy.returned (Proxy.batch_loop tool item_names results all_succeeded t)
    = Some out.
Proof.
  revert results all_succeeded t.
  induction item_names as [|name rest IH]; intros results all_succeeded t Hgood.
  - by eexists.
  - cbn [Proxy.batch_loop].
    destruct (Proxy.valid_name name) as [stripped|]; [|by apply IH].
    cbv zeta.
    destruct (make_api_request_dict (Proxy.tool_method tool)
                (Proxy.tool_endpoint tool)
                (Some (Proxy.JDict [("item_name", Proxy.JStr stripped)]))
                t Hgood) as (Hafter & d & ->).
    cbn [Proxy.returned]. by apply IH.
Qed.

(** X27. When every answer of the FastAPI server with a status outside 4xx
    and 5xx carries a JSON object or no JSON at all, a batch tool of the
    proxy server returns a report for every input: no pass of its loop
    raises and the summary is always found. *)
Theorem batch_tools_return (tool : Proxy.batch_tool)
    (item_name : Proxy.names_arg) (t : T) :
  good t ->
  exists r, Proxy.returned (Proxy.run_batch tool item_name t) = Some r.
Proof.
  intros Hgood. unfold Proxy.run_batch. cbv zeta.
  destruct (batch_loop_returns tool (Proxy.item_names_of item_name) [] true t
              Hgood) as ([results all_succeeded] & Hloop).
  rewrite Hloop.
  destruct (batch_loop_spec _ _ _ _ _ _ _ Hloop) as (new & -> & Hrec & _ & _).
  apply Forall2_length in Hrec.
  assert (exists summary,
            Proxy.summary_message tool (Proxy.item_names_of item_name)
              ([] ++ new) all_succeeded = Some summary) as (summary & ->).
  { unfold Proxy.summary_message.
    destruct (Proxy.item_names_of item_name) as [|n1 [|n2 names]];
      [by eexists| |by eexists].
    destruct new as [|d new]; [done|]. by eexists. }
  by eexists.
Qed.

End ProxyReturns.

(** ** The proxy server on a scripted FastAPI server *)

Lemma batch_tools_report_witness :
  Proxy.returned
    (Proxy.add_item
       (Proxy.ManyNames [Proxy.JStr " Milk "; Proxy.JNum 3; Proxy.JStr "Eggs"])
       [item_added; item_not_found])
  = Some
      (Proxy.Report false
         (Proxy.JStr "Added 1 items, failed to add 2 items. Check logs for details.")
         [Proxy.Detail (Proxy.JStr "Milk") true (Proxy.JStr "Item added");
          Proxy.Detail (Proxy.JNum 3) false
            (Proxy.JStr "Invalid item name provided.");
          Proxy.Detail (Proxy.JStr "Eggs") false (Proxy.JStr "Item not found")])
  /\ Proxy.sent
       (Proxy.add_item
          (Proxy.ManyNames [Proxy.JStr " Milk "; Proxy.JNum 3; Proxy.JStr "Eggs"])
          [item_added; item_not_found])
     = [Proxy.Request AlexaApi.POST "http://127.0.0.1:8000/items"
          (Some (Proxy.JDict [("item_name", Proxy.JStr "Milk")]));
        Proxy.Request AlexaApi.POST "http://127.0.0.1:8000/items"
          (Some (Proxy.JDict [("item_name", Proxy.JStr "Eggs")]))].
Proof.
  assert (Proxy.returned
            (Proxy.run_batch Proxy.add_item_tool
               (Proxy.ManyNames
                  [Proxy.JStr " Milk "; Proxy.JNum 3; Proxy.JStr "Eggs"])
               [item_added; item_not_found])
          = Some
              (Proxy.Report false
                 (Proxy.JStr "Added 1 items, failed to add 2 items. Check logs for details.")
                 [Proxy.Detail (Proxy.JStr "Milk") true (Proxy.JStr "Item added");
                  Proxy.Detail (Proxy.JNum 3) false
                    (Proxy.JStr "Invalid item name provided.");
                  Proxy.Detail (Proxy.JStr "Eggs") false
                    (Proxy.JStr "Item not found")])) as Hret
    by reflexivity.
  destruct (batch_tools_report _ _ _ _ Hret) as (_ & _ & _ & _ & _ & Hsent & _).
  split; [exact Hret|exact Hsent].
Defined.

Lemma listing_tools_return_the_answered_list_witness :
  In (Proxy.get_completed_items (T:=list Proxy.call_outcome), "/items/completed")
    Proxy.listing_tools
  /\ Proxy.sent (Proxy.get_completed_items [item_not_found])
     = [Proxy.Request AlexaApi.GET "http://127.0.0.1:8000/items/completed" None]
  /\ Proxy.returned (Proxy.get_completed_items [item_not_found]) = Some [].
Proof.
  assert (In (Proxy.get_completed_items (T:=list Proxy.call_outcome),
              "/items/completed") Proxy.listing_tools) as Hin
    by (right; right; left; reflexivity).
  destruct (listing_tools_return_the_answered_list _ _ [item_not_found] Hin)
    as (Hsent & _ & _ & _ & Hempty).
  split_and!; [exact Hin|exact Hsent|].
  apply Hempty. left. reflexivity.
Defined.

Lemma batch_tools_return_witness :
  Forall object_answer [item_added; item_not_found]
  /\ exists r,
       Proxy.returned
         (Proxy.delete_item (Proxy.ManyNames [Proxy.JStr "Milk"; Proxy.JStr ""])
            [item_added; item_not_found])
       = Some r.
Proof.
  assert (Forall object_answer [item_added; item_not_found]) as Hgood.
  { constructor; [|constructor; [|constructor]].
    - intros _. right. by eexists.
    - intros Hr. vm_compute in Hr. discriminate. }
  split; [exact Hgood|].
  apply (batch_tools_return (Forall object_answer)); [|exact Hgood].
  intros req [|a script] Hscript; cbn [Proxy.call Proxy.scripted_server fst snd].
  - split; [constructor|exact I].
  - apply Forall_cons in Hscript as [Ha Hs]. by split.
Defined.

(** ** How often the failure list of [clear_completed_items] holds a string *)

Lemma occurrences_app (x : string) (l l' : list string) :
  occurrences x (l ++ l') = occurrences x l + occurrences x l'.
Proof. unfold occurrences. by rewrite List.filter_app, length_app. Qed.

Lemma occurrences_absent (x : string) (l : list string) :
  contains x l = false -> occurrences x l = 0.
Proof.
  unfold contains, occurrences. induction l as [|y l IH]; [done|]. simpl.
  destruct (String.eqb x y); [done|]. exact IH.
Qed.

Lemma occurrences_snoc (x y : string) (l : list string) :
  occurrences x (l ++ [y]) = occurrences x l + Nat.b2n (String.eqb y x).
Proof.
  rewrite occurrences_app. unfold occurrences at 2. simpl.
  rewrite (String.eqb_sym x y). by destruct (String.eqb y x).
Qed.

Lemma failed_delete_value_app (x : string) (cs cs' : list call) :
  failed_delete_value x (cs ++ cs')
  = failed_delete_value x cs || failed_delete_value x cs'.
Proof. apply existsb_app. Qed.

Lemma missing_id_entry_app (x : string) (cs cs' : list call) :
  missing_id_entry x (cs ++ cs')
  = missing_id_entry x cs || missing_id_entry x cs'.
Proof. apply existsb_app. Qed.

Section FailureCounts.
Context {W : Type} `{RemoteList W}.

(** Through a batch: [batch_failed] holds [x] at most once, and only after a
    delete-one call failed on an item of that value; the two lists together
    hold it at most once more, and only when an item without an id has it as
    entry ([M]). *)
Lemma clear_batch_occurrences (batch : list item) (st : clearing) (w : W)
    (x : string) (d M : bool) :
  Forall (fun it => has_id it = false ->
                    get_value it "<Unknown Item>" +:+ " (Missing ID)" = x ->
                    M = true) batch ->
  occurrences x (batch_failed st) <= Nat.b2n d ->
  occurrences x (total_failed_items st) + occurrences x (batch_failed st)
  <= Nat.b2n d + Nat.b2n M ->
  let r := for_each clear_body batch st w in
  let d' := d || failed_delete_value x (calls r) in
  occurrences x (batch_failed (result r)) <= Nat.b2n d'
  /\ occurrences x (total_failed_items (result r))
     + occurrences x (batch_failed (result r))
     <= Nat.b2n d' + Nat.b2n M.
Proof.
  intros Hbatch. revert st w d.
  induction Hbatch as [|it batch HM _ IH]; intros st w d Hb Ht.
  - cbn. by rewrite orb_false_r.
  - cbv zeta. rewrite for_each_cons. cbn [result calls].
    rewrite failed_delete_value_app, orb_assoc.
    destruct (clear_body_cases it st w)
      as [(Hid & ->)|[(w' & Hid & _ & ->)|(w' & Hid & _ & ->)]];
      cbn [result remote calls].
    + change (failed_delete_value x []) with false. rewrite orb_false_r.
      apply IH; cbn [total_failed_items batch_failed]; [done|].
      destruct (contains _ (total_failed_items st)) eqn:Hc; [done|].
      rewrite occurrences_snoc.
      destruct (String.eqb _ x) eqn:Hx; simpl; [|lia].
      apply String.eqb_eq in Hx. rewrite (HM Hid Hx). simpl.
      rewrite <- Hx. rewrite (occurrences_absent _ _ Hc).
      rewrite Hx. lia.
    + change (failed_delete_value x [DeleteOne it true]) with false.
      rewrite orb_false_r. by apply IH.
    + change (failed_delete_value x [DeleteOne it false])
        with (String.eqb (get_value it "<Unknown Item>") x || false).
      rewrite orb_false_r.
      destruct (String.eqb (get_value it "<Unknown Item>") x) eqn:Hx.
      * apply String.eqb_eq in Hx. rewrite orb_true_r.
        apply IH; cbn [total_failed_items batch_failed].
        -- destruct (contains _ (batch_failed st)) eqn:Hcb; simpl;
             [destruct d; simpl in *; lia|].
           destruct (contains _ (total_failed_items st)) eqn:Hct; simpl;
             [destruct d; simpl in *; lia|].
           rewrite occurrences_snoc, Hx, String.eqb_refl. simpl.
           rewrite Hx in Hcb. rewrite (occurrences_absent _ _ Hcb). lia.
        -- destruct (contains _ (batch_failed st)) eqn:Hcb; simpl;
             [destruct d; simpl in *; lia|].
           destruct (contains _ (total_failed_items st)) eqn:Hct; simpl;
             [destruct d; simpl in *; lia|].
           rewrite occurrences_snoc, Hx, String.eqb_refl. simpl.
           rewrite Hx in Hcb, Hct.
           rewrite (occurrences_absent _ _ Hcb), (occurrences_absent _ _ Hct).
           lia.
      * rewrite orb_false_r.
        apply IH; cbn [total_failed_items batch_failed];
          destruct (contains _ (batch_failed st) || contains _ _); try done;
          rewrite occurrences_snoc, Hx; simpl; lia.
Qed.

Lemma clear_loop_occurrences (remaining iteration deleted : nat)
    (failures : list string) (w : W) (x : string) (d M : bool) :
  let r := clear_loop remaining iteration deleted failures w in
  (missing_id_entry x (calls r) = true -> M = true) ->
  occurrences x failures <= Nat.b2n d + Nat.b2n M ->
  occurrences x (outcome_failures (result r))
  <= Nat.b2n (d || failed_delete_value x (calls r)) + Nat.b2n M.
Proof.
  revert iteration deleted failures w d.
  induction remaining as [|remaining IH];
    intros iteration deleted failures w d r; subst r.
  - intros _ Hf. cbn. by rewrite orb_false_r.
  - rewrite clear_loop_step.
    destruct (get_shopping_list_items w) as [[all|] w1];
      [|intros _ Hf; cbn; by rewrite orb_false_r].
    destruct (List.filter get_completed all) as [|c batch] eqn:Hbatch;
      [intros _ Hf; cbn; by rewrite orb_false_r|].
    cbv zeta. rewrite <- Hbatch.
    set (rb := for_each clear_body (List.filter get_completed all)
                 (Clearing deleted failures []) w1).
    set (rl := clear_loop remaining (S iteration)
                 (total_deleted_count (result rb))
                 (total_failed_items (result rb) ++ batch_failed (result rb))
                 (remote rb)).
    cbn [result calls]. intros HM Hf.
    change (Fetch (Some all) :: calls rb ++ calls rl)
      with ([Fetch (Some all)] ++ calls rb ++ calls rl) in *.
    rewrite !missing_id_entry_app in HM.
    rewrite !failed_delete_value_app.
    change (failed_delete_value x [Fetch (Some all)]) with false.
    rewrite orb_false_l, orb_assoc.
    destruct (clear_batch_occurrences (List.filter get_completed all)
                (Clearing deleted failures []) w1 x d M) as [_ Hb].
    + apply Forall_forall. intros it Hit Hid Hx. apply HM.
      apply orb_true_iff. left. cbn. rewrite orb_false_r.
      apply existsb_exists. exists it.
      apply list_elem_of_In, filter_In in Hit as [Hit Hc].
      split; [done|]. rewrite Hc, Hid, Hx, String.eqb_refl. done.
    + cbn. lia.
    + cbn [total_failed_items batch_failed]. change (occurrences x []) with 0.
      lia.
    + fold rb in Hb. apply IH.
      * intros Hm. apply HM. fold rl in Hm. rewrite Hm.
        by rewrite !orb_true_r.
      * by rewrite occurrences_app.
Qed.

(** X28. Over a whole run of [clear_completed_items], the failure list
    reported holds a string at most once for the delete-one calls that
    failed on items of that value, and at most once more for the completed
    items without an id whose value followed by " (Missing ID)" it is.  So
    a string occurs at most twice, at most once when only one of the two
    kinds of failure gives it, and not at all when none does: no failure is
    recorded again in a later turn of the loop. *)
Theorem clear_completed_items_failure_list_bound (w : W) (x : string) :
  let r := clear_completed_outcome w in
  occurrences x (outcome_failures (result r))
  <= Nat.b2n (failed_delete_value x (calls r))
     + Nat.b2n (missing_id_entry x (calls r))
  /\ occurrences x (outcome_failures (result r)) <= 2.
Proof.
  intros r.
  pose proof (clear_loop_occurrences max_iterations 0 0 [] w x false
                (missing_id_entry x (calls r))) as Hl.
  cbv zeta in Hl. fold clear_completed_outcome in Hl. fold r in Hl.
  rewrite orb_false_l in Hl.
  assert (occurrences x (outcome_failures (result r))
          <= Nat.b2n (failed_delete_value x (calls r))
             + Nat.b2n (missing_id_entry x (calls r))) as Hbound.
  { apply Hl; [done|]. change (occurrences x []) with 0. lia. }
  split; [done|]. clearbody r. revert Hbound.
  destruct (failed_delete_value x (calls r)), (missing_id_entry x (calls r));
    simpl; lia.
Qed.

End FailureCounts.
